(** * skel: a directory-skeleton generator

    A shallow embedding of [skel] (version 1.1, [package main]): the
    placeholder substitution [findReplace], the per-entry callback
    [walkFunc] of the tree walk, the archive extraction [Unzip] and the
    control flow of [main], together with the parts of the Go standard
    library they call.

    Go strings are byte sequences; they are modelled by [string] (a list of
    8-bit [ascii] characters).  [map[string]string] is a [gmap string
    string]; the map [Unsubstituted], a [map[string]bool] that only ever
    stores [true], is a [gset string]. *)

From Stdlib Require Import Ascii.
From stdpp Require Import base gmap strings list sorting pretty.

(** ** package strings *)

Module Strings.

(** [strings.HasPrefix(s, prefix)]. *)
Fixpoint HasPrefix (s prefix : string) : bool :=
  match prefix, s with
  | "", _ => true
  | String p prefix', String c s' =>
      if decide (c = p) then HasPrefix s' prefix' else false
  | String _ _, "" => false
  end.

(** The scan behind [strings.Replace(s, old, new, -1)]: walk over [s]
    from left to right; where [old] starts, emit [new] and skip the
    bytes of [old] ([skip] counts the bytes still to be skipped), so
    that occurrences are replaced without overlap and the inserted text
    is not scanned again. *)
Fixpoint replace_from (old new : string) (skip : nat) (s : string) : string :=
  match s with
  | "" => ""
  | String c s' =>
      match skip with
      | S n => replace_from old new n s'
      | O =>
          if HasPrefix s old
          then new +:+ replace_from old new (String.length old - 1) s'
          else String c (replace_from old new 0 s')
      end
  end.

(** [strings.Replace(s, old, new, -1)] for a non-empty [old]; the
    program only ever passes [old = "${" + k + "}"]. *)
Definition Replace (s old new : string) : string :=
  replace_from old new 0 s.

(** [strings.Contains(s, substr)]. *)
Fixpoint Contains (s substr : string) : bool :=
  HasPrefix s substr ||
  match s with
  | "" => false
  | String _ s' => Contains s' substr
  end.

End Strings.

(** ** package regexp

    The fragment of the RE2 syntax that the program's pattern uses: a
    sequence of single-character atoms, each taken once or repeated with
    [+] (greedy) or [+?] (lazy).  Matching is leftmost-first: the match
    starts as early as possible and, among the matches starting there, is
    the one a backtracking search finds first. *)

Module Regexp.

Inductive atom : Type :=
| Lit (c : ascii)   (* a literal byte *)
| Dot.              (* [.]: any character but newline *)

Inductive item : Type :=
| One (a : atom)
| Plus (greedy : bool) (a : atom).

Definition Regexp : Type := list item.

Definition newline : ascii := "010"%char.

Definition atom_matches (a : atom) (c : ascii) : bool :=
  match a with
  | Lit c' => bool_decide (c = c')
  | Dot => negb (bool_decide (c = newline))
  end.

(** [match_here r s]: the length of the match of [r] anchored at the
    start of [s] that a backtracking search prefers, if there is one. *)
Fixpoint match_here (r : Regexp) : string → option nat :=
  match r with
  | [] => λ _, Some 0
  | One a :: r' => λ s,
      match s with
      | String c s' => if atom_matches a c then S <$> match_here r' s' else None
      | "" => None
      end
  | Plus greedy a :: r' =>
      fix plus (s : string) : option nat :=
        match s with
        | String c s' =>
            if atom_matches a c then
              if greedy then
                match plus s' with
                | Some n => Some (S n)
                | None => S <$> match_here r' s'
                end
              else
                match match_here r' s' with
                | Some n => Some (S n)
                | None => S <$> plus s'
                end
            else None
        | "" => None
        end
  end.

(** [Regexp.FindString]: the text of the leftmost match, or [""]. *)
Fixpoint FindString (r : Regexp) (s : string) : string :=
  match match_here r s with
  | Some n => String.substring 0 n s
  | None =>
      match s with
      | "" => ""
      | String _ s' => FindString r s'
      end
  end.

End Regexp.

(** ** Placeholder substitution *)

(** [fmt.Sprintf("${%s}", k)]. *)
Definition Sprintf_placeholder (k : string) : string := "${" +:+ k +:+ "}".

(** [regexp.MustCompile("\\${(.+)}")]: a literal [$], a literal [{], one
    or more characters other than newline (greedy), a literal [}].  The
    capture group does not affect [FindString]. *)
Definition regex : Regexp.Regexp :=
  [Regexp.One (Regexp.Lit "$"); Regexp.One (Regexp.Lit "{");
   Regexp.Plus true Regexp.Dot; Regexp.One (Regexp.Lit "}")].

(** The body of the loop [for k, v := range t.KeyValues]. *)
Definition replace_pass (src : string) (kv : string * string) : string :=
  Strings.Replace src (Sprintf_placeholder kv.1) kv.2.

(** The loop of [findReplace], run over the entries of [t.KeyValues] in
    the order [order] in which [range] happens to yield them. *)
Definition findReplace_loop (order : list (string * string)) (src : string) : string :=
  foldl replace_pass src order.

(** Go leaves the iteration order of a map unspecified: [range] may yield
    the entries of [m] in any order, each entry once. *)
Definition range_of (m : gmap string string) (order : list (string * string)) : Prop :=
  order ≡ₚ map_to_list m.

(** [findReplace]: the substituted text and the updated [Unsubstituted]
    set.  The receiver is copied by the call, but [Unsubstituted] is a map,
    hence shared with the caller: the update is returned. *)
Definition findReplace (order : list (string * string)) (unsub : gset string)
    (src : string) : string * gset string :=
  let src := findReplace_loop order src in
  (* check for unprocessed replacements *)
  let strfound := Regexp.FindString regex src in
  (src, if decide (strfound ≠ "") then {[ strfound ]} ∪ unsub else unsub).


(** ** package path/filepath (Unix: the separator is [/]) *)

Module Filepath.

Definition Separator : ascii := "/"%char.

(** [strings.Split(s, "/")], with the piece being read kept reversed
    in [cur]. *)
Fixpoint split_go (cur : string) (s : string) : list string :=
  match s with
  | "" => [String.rev cur]
  | String c s' =>
      if decide (c = Separator) then String.rev cur :: split_go "" s'
      else split_go (String c cur) s'
  end.
Definition split (s : string) : list string := split_go "" s.

(** [strings.Join(elems, "/")]. *)
Fixpoint join (elems : list string) : string :=
  match elems with
  | [] => ""
  | [e] => e
  | e :: rest => e +:+ "/" +:+ join rest
  end.

Definition rooted (path : string) : bool :=
  match path with
  | String c _ => bool_decide (c = Separator)
  | "" => false
  end.

(** One element of the path met by [Clean]; [stack] holds the elements
    kept so far, the last one first. *)
Definition clean_step (is_rooted : bool) (stack : list string) (elem : string)
    : list string :=
  if decide (elem = "") then stack            (* doubled separator *)
  else if decide (elem = ".") then stack      (* current directory *)
  else if decide (elem = "..") then
    match stack with
    | top :: stack' =>
        if decide (top = "..") then elem :: stack else stack'
    | [] => if is_rooted then [] else [elem]
    end
  else elem :: stack.

(** [filepath.Clean]: the shortest path equivalent to [path] by purely
    lexical processing. *)
Definition Clean (path : string) : string :=
  let elems := rev (foldl (clean_step (rooted path)) [] (split path)) in
  let out := (if rooted path then "/" else "") +:+ join elems in
  if decide (out = "") then "." else out.

(** [filepath.Join]: empty elements are ignored, the result is cleaned;
    with no non-empty element the result is empty. *)
Definition Join (elems : list string) : string :=
  match filter (λ e, e ≠ "") elems with
  | [] => ""
  | nonempty => Clean (join nonempty)
  end.

(** The bytes of [path] up to and including its last separator. *)
Fixpoint upto_last_sep (path : string) : string :=
  match path with
  | "" => ""
  | String c rest =>
      let r := upto_last_sep rest in
      if decide (c = Separator) then String c r
      else if decide (r = "") then "" else String c r
  end.

(** [filepath.Dir]: all but the last element of [path], cleaned. *)
Definition Dir (path : string) : string := Clean (upto_last_sep path).

(** [filepath.Base] of a cleaned path: its last element. *)
Definition Base (path : string) : string := default "" (last (split path)).

End Filepath.

(** ** The process and the operating system *)

(** An [error] value, represented by the text of its [Error()]. *)
Definition error : Type := string.

(** What Go returns as [(value, err)] with exactly one of them set. *)
Inductive result (A : Type) : Type :=
| Ok (a : A)
| Err (e : error).
Arguments Ok {A} a.
Arguments Err {A} e.

Definition result_err {A} (r : result A) : option error :=
  match r with Ok _ => None | Err e => Some e end.

(** A node of the file system: a directory or a regular file with its
    bytes. *)
Inductive node : Type :=
| Dir
| File (content : string).

(** [os.FileInfo], of which the program reads [IsDir()] only. *)
Record FileInfo : Type := { IsDir : bool }.

(** [*os.File] as returned by [os.Open]: its name and the node opened. *)
Record OsFile : Type := { Name : string; opened : node }.

(** The calls into the operating system made by the program and by the
    library functions it uses. *)
Inductive syscall : Type :=
| SysOpen (path : string)
| SysStat (path : string)
| SysLstat (path : string)
| SysReadDir (path : string)
| SysReadFile (path : string)
| SysMkdirAll (path : string)
| SysCreate (path : string)
| SysWriteFile (path : string) (data : string)
| SysRemoveAll (path : string)
| SysTempDir (path : string).

(** The calls that change the file system. *)
Definition mutates (c : syscall) : bool :=
  match c with
  | SysMkdirAll _ | SysCreate _ | SysWriteFile _ _ | SysRemoveAll _ | SysTempDir _ => true
  | SysOpen _ | SysStat _ | SysLstat _ | SysReadDir _ | SysReadFile _ => false
  end.

(** The state a run acts on.  [files] maps a cleaned path to its node;
    [trace] lists the system calls made so far, the latest last;
    [Unsubstituted] is the map allocated by [NewSkeleton], which every copy
    of the [Skeleton] value refers to; [ranges] counts the [range] loops
    over maps run so far. *)
Record World : Type := mkWorld {
  files : gmap string node;
  stdin : list string;
  stdout : list string;
  stderr : list string;
  trace : list syscall;
  Unsubstituted : gset string;
  ranges : nat;
}.

Definition set_files (f : gmap string node) (w : World) : World :=
  mkWorld f (stdin w) (stdout w) (stderr w) (trace w) (Unsubstituted w) (ranges w).
Definition set_stdin (l : list string) (w : World) : World :=
  mkWorld (files w) l (stdout w) (stderr w) (trace w) (Unsubstituted w) (ranges w).
Definition add_stdout (s : string) (w : World) : World :=
  mkWorld (files w) (stdin w) (stdout w ++ [s]) (stderr w) (trace w) (Unsubstituted w) (ranges w).
Definition add_stderr (s : string) (w : World) : World :=
  mkWorld (files w) (stdin w) (stdout w) (stderr w ++ [s]) (trace w) (Unsubstituted w) (ranges w).
Definition add_trace (c : syscall) (w : World) : World :=
  mkWorld (files w) (stdin w) (stdout w) (stderr w) (trace w ++ [c]) (Unsubstituted w) (ranges w).
Definition set_Unsubstituted (u : gset string) (w : World) : World :=
  mkWorld (files w) (stdin w) (stdout w) (stderr w) (trace w) u (ranges w).
Definition next_range (w : World) : World :=
  mkWorld (files w) (stdin w) (stdout w) (stderr w) (trace w) (Unsubstituted w) (S (ranges w)).

(** The skeleton's configuration (the content of [config.xml]). *)
Record SkeletonParams : Type := {
  param_Name : string;
  param_Description : string;
}.

Record SkeletonConfig : Type := {
  config_Name : string;
  config_Description : string;
  Parameters : list SkeletonParams;
}.

(** An entry of a zip archive: its name, whether it is a directory, and
    what opening and reading it gives. *)
Record zipFile : Type := {
  zip_Name : string;
  zip_IsDir : bool;
  zip_Open : result string;
}.

(** What a run depends on besides the [World]: the command-line flags, and
    the choices the program has no hold on.  [fault c] is the error the
    operating system raises for the call [c] whatever the files are
    (permissions, a full disk), if any; [range_order n m] is the order in
    which the [n]-th [range] loop yields the entries of the map [m];
    [UnixNano] is the clock read by [NewSkeleton]; [temp_name] is the name
    [ioutil.TempDir] picks; [zip_decode] and [xml_Unmarshal] decode the
    archive and descriptor formats. *)
Record Env : Type := {
  flagVerbose : bool;
  flagIn : string;
  flagDryRun : bool;
  flagOut : string;
  fault : syscall → option error;
  range_order : nat → gmap string string → list (string * string);
  range_keys : nat → gset string → list string;
  UnixNano : Z;
  temp_name : string;
  zip_decode : string → option (list zipFile);
  xml_Unmarshal : string → SkeletonConfig;
}.

(** [range] yields every entry of the map once. *)
Definition range_order_valid (env : Env) : Prop :=
  ∀ n m, range_of m (range_order env n m).

(** How a computation ends: it returns, the process exits through
    [os.Exit], it panics, or (for the tree walk) the model runs out of
    fuel. *)
Inductive outcome (A : Type) : Type :=
| Ret (a : A) (w : World)
| Exit (code : Z) (w : World)
| Panic (w : World)
| OutOfFuel (w : World).
Arguments Ret {A} a w.
Arguments Exit {A} code w.
Arguments Panic {A} w.
Arguments OutOfFuel {A} w.

Definition world_of {A} (o : outcome A) : World :=
  match o with Ret _ w | Exit _ w | Panic w | OutOfFuel w => w end.

Definition M (A : Type) : Type := World → outcome A.

Definition ret {A} (a : A) : M A := λ w, Ret a w.

Definition bind {A B} (c : M A) (k : A → M B) : M B := λ w,
  match c w with
  | Ret a w' => k a w'
  | Exit code w' => Exit code w'
  | Panic w' => Panic w'
  | OutOfFuel w' => OutOfFuel w'
  end.

Notation "'let*' x := c 'in' k" := (bind c (λ x, k))
  (at level 10, x pattern, c at level 100, k at level 200).
Notation "c ;; k" := (bind c (λ _, k))
  (at level 100, k at level 200, right associativity).

Definition modify (f : World → World) : M unit := λ w, Ret () (f w).
Definition get {A} (f : World → A) : M A := λ w, Ret (f w) w.

(** [os.Exit(code)]: the process ends at once. *)
Definition os_Exit {A} (code : Z) : M A := λ w, Exit code w.

(** A method called through a nil interface value. *)
Definition nil_dereference {A} : M A := λ w, Panic w.

Definition out_of_fuel {A} : M A := λ w, OutOfFuel w.

Definition Printf (s : string) : M unit := modify (add_stdout s).
Definition Fprintf_Stderr (s : string) : M unit := modify (add_stderr s).

(** What a system call does to the file system and what it gives back:
    the error the environment raises for it, or else what [body] makes of
    the files. *)
Definition sys_outcome {A} (env : Env) (c : syscall)
    (body : gmap string node → gmap string node * result A)
    (fs : gmap string node) : gmap string node * result A :=
  match fault env c with
  | Some e => (fs, Err e)
  | None => body fs
  end.

(** Run a system call: it is recorded and acts on the files. *)
Definition sys {A} (env : Env) (c : syscall)
    (body : gmap string node → gmap string node * result A) : M (result A) :=
  λ w,
    let out := sys_outcome env c body (files w) in
    Ret out.2 (set_files out.1 (add_trace c w)).

(** A call that only reads the files. *)
Definition reading {A} (f : gmap string node → result A)
    : gmap string node → gmap string node * result A :=
  λ fs, (fs, f fs).

(** The node at a cleaned path; the working directory and the root always
    exist. *)
Definition node_at (fs : gmap string node) (p : string) : option node :=
  if decide (p = "." ∨ p = "/") then Some Dir else fs !! p.

Definition info_of (n : node) : FileInfo :=
  {| IsDir := match n with Dir => true | File _ => false end |}.

Definition os_Lstat (env : Env) (path : string) : M (result FileInfo) :=
  sys env (SysLstat path) (reading (λ fs,
    match node_at fs (Filepath.Clean path) with
    | Some n => Ok (info_of n)
    | None => Err ("lstat " +:+ path +:+ ": no such file or directory")
    end)).

Definition os_Open (env : Env) (path : string) : M (result OsFile) :=
  sys env (SysOpen path) (reading (λ fs,
    match node_at fs (Filepath.Clean path) with
    | Some n => Ok {| Name := path; opened := n |}
    | None => Err ("open " +:+ path +:+ ": no such file or directory")
    end)).

(** The method [Stat] of an opened file. *)
Definition File_Stat (env : Env) (f : OsFile) : M (result FileInfo) :=
  sys env (SysStat (Name f)) (reading (λ _, Ok (info_of (opened f)))).

(** [ioutil.ReadAll] on an opened file. *)
Definition ioutil_ReadAll (env : Env) (f : OsFile) : M (result string) :=
  sys env (SysReadFile (Name f)) (reading (λ _,
    match opened f with
    | File c => Ok c
    | Dir => Err ("read " +:+ Name f +:+ ": is a directory")
    end)).

(** What reading the file at [path] gives. *)
Definition read_file (path : string) (fs : gmap string node) : result string :=
  match node_at fs (Filepath.Clean path) with
  | Some (File c) => Ok c
  | Some Dir => Err ("read " +:+ path +:+ ": is a directory")
  | None => Err ("open " +:+ path +:+ ": no such file or directory")
  end.

Definition ioutil_ReadFile (env : Env) (path : string) : M (result string) :=
  sys env (SysReadFile path) (reading (read_file path)).

(** The names in a directory, sorted ([readDirNames] of [filepath]). *)
Definition children (fs : gmap string node) (dir : string) : list string :=
  merge_sort String.le
    (Filepath.Base <$>
       filter (λ p, Filepath.Dir p = dir ∧ p ≠ dir) (map_to_list fs).*1).

Definition readDirNames (env : Env) (path : string) : M (result (list string)) :=
  sys env (SysReadDir path) (reading (λ fs,
    match node_at fs (Filepath.Clean path) with
    | Some Dir => Ok (children fs (Filepath.Clean path))
    | Some (File _) => Err ("readdirent " +:+ path +:+ ": not a directory")
    | None => Err ("open " +:+ path +:+ ": no such file or directory")
    end)).

(** The directories [MkdirAll] has to find or make for the cleaned path
    [p]: every prefix of [p] that ends before a separator, then [p]. *)
Fixpoint prefixes_go (done : string) (elems : list string) : list string :=
  match elems with
  | [] => []
  | e :: rest =>
      let here := if decide (done = "") then e
                  else if decide (done = "/") then "/" +:+ e
                  else done +:+ "/" +:+ e in
      here :: prefixes_go here rest
  end.
Definition prefixes (p : string) : list string :=
  if Filepath.rooted p
  then prefixes_go "/" (filter (λ e, e ≠ "") (Filepath.split p))
  else prefixes_go "" (Filepath.split p).

Definition mkdir_step (acc : gmap string node * result unit) (p : string)
    : gmap string node * result unit :=
  match acc with
  | (fs, Err e) => acc
  | (fs, Ok _) =>
      match node_at fs p with
      | Some Dir => acc
      | Some (File _) => (fs, Err ("mkdir " +:+ p +:+ ": not a directory"))
      | None => (<[p := Dir]> fs, Ok ())
      end
  end.

(** [os.MkdirAll]: the directories made before a failure stay. *)
Definition os_MkdirAll (env : Env) (path : string) : M (result unit) :=
  sys env (SysMkdirAll path) (λ fs,
    foldl mkdir_step (fs, Ok ()) (prefixes (Filepath.Clean path))).

(** Whether a file can be put at [path]: the path is no directory and its
    parent is one. *)
Definition can_put (fs : gmap string node) (path : string) : bool :=
  let p := Filepath.Clean path in
  match node_at fs p, node_at fs (Filepath.Dir p) with
  | Some Dir, _ => false
  | _, Some Dir => true
  | _, _ => false
  end.

(** Writing the whole of a file, new or truncated. *)
Definition put_file (op path data : string) (fs : gmap string node)
    : gmap string node * result unit :=
  let p := Filepath.Clean path in
  if can_put fs path then (<[p := File data]> fs, Ok ())
  else
    match node_at fs p with
    | Some Dir => (fs, Err (op +:+ " " +:+ path +:+ ": is a directory"))
    | _ => (fs, Err (op +:+ " " +:+ path +:+ ": no such file or directory"))
    end.

Definition os_Create (env : Env) (path : string) : M (result unit) :=
  sys env (SysCreate path) (put_file "open" path "").

Definition ioutil_WriteFile (env : Env) (path data : string) : M (result unit) :=
  sys env (SysWriteFile path data) (put_file "open" path data).

(** [io.Copy(newfile, rc)]: the bytes go to the file just created. *)
Definition io_Copy (env : Env) (path data : string) : M (result unit) :=
  sys env (SysWriteFile path data) (put_file "write" path data).

(** [p] is the directory [d] or a path in it. *)
Definition below (d p : string) : Prop :=
  p = d ∨ Strings.HasPrefix p (d +:+ "/") = true.

Global Instance below_dec (d p : string) : Decision (below d p).
Proof. unfold below. apply _. Defined.

(** [os.RemoveAll] removes what it can and returns the first error it
    meets: it removes the entries of a directory, by a call of itself on
    each, and then the directory.

    [removal_fault env path q] is the error the environment raises for the
    removal of the entry [q], at or below [path], if any: the error of the
    call of [os.RemoveAll] on [q], the call on the top entry being the
    call on [path] as the program wrote it. *)
Definition removal_fault (env : Env) (path q : string) : option error :=
  fault env (SysRemoveAll (if decide (q = Filepath.Clean path) then path else q)).

(** The entries at or below [path] whose removal is refused, each with the
    error. *)
Definition refused (env : Env) (path : string) (fs : gmap string node)
    : list (string * error) :=
  omap (λ q, if decide (below (Filepath.Clean path) q)
             then (λ e, (q, e)) <$> removal_fault env path q
             else None)
       (map_to_list fs).*1.

(** An entry stays when its removal is refused, or the removal of an entry
    below it: a directory that is not empty cannot be removed. *)
Definition held (refusals : list (string * error)) (q : string) : Prop :=
  Exists (λ r, below q r.1) refusals.

Global Instance held_dec (refusals : list (string * error)) (q : string) :
  Decision (held refusals q).
Proof. unfold held. apply _. Defined.

(** A refusal with the longest path: the entries of a directory come
    before the directory, and the order in which a directory yields its
    entries is not specified, so that the first error met may be the one
    of any entry that is refused and has no refused entry below it. *)
Fixpoint deepest (r : string * error) (rs : list (string * error)) : string * error :=
  match rs with
  | [] => r
  | r' :: rs' =>
      deepest (if decide (String.length r.1 < String.length r'.1) then r' else r) rs'
  end.

(** What [os.RemoveAll(path)] leaves of the files, and what it returns; a
    path that does not exist is no error. *)
Definition remove_all (env : Env) (path : string) (fs : gmap string node)
    : gmap string node * result unit :=
  let p := Filepath.Clean path in
  let refusals := refused env path fs in
  (filter (λ kv, ¬ below p kv.1 ∨ held refusals kv.1) fs,
   match refusals with
   | r :: rs => Err (deepest r rs).2
   | [] =>
       match fault env (SysRemoveAll path) with
       | Some e => Err e
       | None => Ok ()
       end
   end).

Definition os_RemoveAll (env : Env) (path : string) : M (result unit) :=
  λ w,
    let out := remove_all env path (files w) in
    Ret out.2 (set_files out.1 (add_trace (SysRemoveAll path) w)).

(** [ioutil.TempDir("", "skel")]: a new directory in [/tmp], under the
    name the environment picked. *)
Definition ioutil_TempDir (env : Env) : M (result string) :=
  let p := Filepath.Join ["/tmp"; "skel" +:+ temp_name env] in
  sys env (SysTempDir p) (λ fs,
    match node_at fs "/tmp", node_at fs p with
    | Some Dir, None => (<[p := Dir]> fs, Ok p)
    | Some Dir, Some _ => (fs, Err ("mkdir " +:+ p +:+ ": file exists"))
    | _, _ => (fs, Err ("mkdir " +:+ p +:+ ": no such file or directory"))
    end).

(** [zip.OpenReader]. *)
Definition zip_OpenReader (env : Env) (zipfile : string) : M (result (list zipFile)) :=
  let* r := ioutil_ReadFile env zipfile in
  match r with
  | Err e => ret (Err e)
  | Ok bytes =>
      match zip_decode env bytes with
      | Some entries => ret (Ok entries)
      | None => ret (Err "zip: not a valid zip file")
      end
  end.

(** [ReadLine] of a [bufio.Reader] on [os.Stdin]: the next line of the standard input,
    without its end; nothing at the end of the input. *)
Definition ReadLine : M string := λ w,
  match stdin w with
  | [] => Ret "" w
  | line :: rest => Ret line (set_stdin rest w)
  end.

(** ** The program *)

Definition nl : string := String "010"%char "".

(** The [Skeleton] struct.  Two of its fields live elsewhere: [regex] is
    set once, by [NewSkeleton], to the pattern [regex] above, and
    [Unsubstituted] holds a reference to a map, which is the field
    [Unsubstituted] of the [World]. *)
Record Skeleton : Type := mkSkeleton {
  Location : string;                (* location of the skeleton *)
  Config : SkeletonConfig;          (* skeleton configuration (parsed from XML) *)
  Outdir : string;                  (* output directory *)
  Dryrun : bool;                    (* whether it's a dry run, without output *)
  KeyValues : gmap string string;   (* substitutable keys and their values *)
  outDirBase : string;              (* base output directory: name + clock *)
}.

Definition set_Dryrun (b : bool) (t : Skeleton) : Skeleton :=
  mkSkeleton (Location t) (Config t) (Outdir t) b (KeyValues t) (outDirBase t).
Definition set_Outdir (o : string) (t : Skeleton) : Skeleton :=
  mkSkeleton (Location t) (Config t) o (Dryrun t) (KeyValues t) (outDirBase t).
Definition set_KeyValues (m : gmap string string) (t : Skeleton) : Skeleton :=
  mkSkeleton (Location t) (Config t) (Outdir t) (Dryrun t) m (outDirBase t).

(** [NewSkeleton]: a fresh, empty [Unsubstituted] map; the fields the
    source leaves at their zero values are empty. *)
Definition NewSkeleton (env : Env) (location : string) (config : SkeletonConfig)
    : M Skeleton :=
  modify (set_Unsubstituted ∅);;
  ret {| Location := location;
         Config := config;
         Outdir := "";
         Dryrun := false;
         KeyValues := ∅;
         outDirBase := config_Name config +:+ "-" +:+ pretty (UnixNano env) |}.

(** A call [t.findReplace(src)] in a run: the entries of [t.KeyValues]
    come in the order of this [range] loop, and the update of the shared
    map is stored. *)
Definition call_findReplace (env : Env) (t : Skeleton) (src : string) : M string :=
  λ w,
    let order := range_order env (ranges w) (KeyValues t) in
    let '(src', unsub) := findReplace order (Unsubstituted w) src in
    Ret src' (next_range (set_Unsubstituted unsub w)).

Definition when (b : bool) (c : M unit) : M unit := if b then c else ret ().

(** Calling a function and dropping what it returns. *)
Definition discard {A} (c : M A) : M unit := c;; ret ().

(** [walkFunc], the callback of the walk.  [info] is [None] for a nil
    [os.FileInfo]; the result is the error returned, [None] for nil. *)
Definition walkFunc (env : Env) (t : Skeleton)
    (path : string) (info : option FileInfo) (err : option error) : M (option error) :=
  let x := Filepath.Clean (Location t) in
  let y := Filepath.Clean path in
  (* remove the template location path from the walked path *)
  let newp := Strings.Replace y x "" in
  let targetpath := Filepath.Join [Outdir t; outDirBase t; newp] in
  let* targetpath := call_findReplace env t targetpath in  (* substitute with variables *)
  match info with
  | None => nil_dereference                        (* info.IsDir() *)
  | Some info =>
      if IsDir info then
        (* create directory *)
        when (flagVerbose env)
          (let* shown := call_findReplace env t targetpath in
           Printf ("Creating dir:   " +:+ shown +:+ nl));;
        when (negb (Dryrun t))
          (discard (os_MkdirAll env targetpath));;
        ret None
      else
        (* create file and substitute *)
        when (flagVerbose env)
          (Printf ("Creating file:  " +:+ targetpath +:+ nl));;
        when (negb (Dryrun t))
          (discard (os_Create env targetpath));;
        (* read original contents, write contents *)
        let* r := ioutil_ReadFile env path in
        match r with
        | Err e =>
            Fprintf_Stderr ("failed to open file '" +:+ path +:+ "': " +:+ e +:+ nl);;
            ret None
        | Ok origBytes =>
            when (negb (Dryrun t))
              (let* newcontents := call_findReplace env t origBytes in
               discard (ioutil_WriteFile env targetpath newcontents));;
            ret None
        end
  end.

(** *** filepath.Walk *)

Definition SkipDir : error := "skip this directory".
Definition SkipAll : error := "skip everything and stop the walk".

Definition WalkFunc : Type := string → option FileInfo → option error → M (option error).

(** [walk] of package [filepath]: the callback is called for [path], then,
    for a directory, for everything below it, in the order of the names.
    A callback may make directories that a later step of the walk descends
    into, so the recursion is bounded by [fuel]. *)
Fixpoint walk (env : Env) (fuel : nat) (walkFn : WalkFunc)
    (path : string) (info : FileInfo) {struct fuel} : M (option error) :=
  match fuel with
  | O => out_of_fuel
  | S fuel' =>
      if negb (IsDir info) then walkFn path (Some info) None
      else
        let* names := readDirNames env path in
        let err := result_err names in
        let* err1 := walkFn path (Some info) err in
        if bool_decide (err ≠ None ∨ err1 ≠ None) then ret err1
        else
          (fix loop (names : list string) : M (option error) :=
             match names with
             | [] => ret None
             | name :: names' =>
                 let filename := Filepath.Join [path; name] in
                 let* r := os_Lstat env filename in
                 match r with
                 | Err e =>
                     let* err := walkFn filename None (Some e) in
                     if bool_decide (err ≠ None ∧ err ≠ Some SkipDir) then ret err
                     else loop names'
                 | Ok fileInfo =>
                     let* err := walk env fuel' walkFn filename fileInfo in
                     if bool_decide (err ≠ None ∧ (IsDir fileInfo = false ∨ err ≠ Some SkipDir))
                     then ret err
                     else loop names'
                 end
             end)
            (match names with Ok l => l | Err _ => [] end)
  end.

(** [filepath.Walk]. *)
Definition filepath_Walk (env : Env) (fuel : nat) (root : string) (fn : WalkFunc)
    : M (option error) :=
  let* r := os_Lstat env root in
  let* err :=
    match r with
    | Err e => fn root None (Some e)
    | Ok info => walk env fuel fn root info
    end in
  if bool_decide (err = Some SkipDir ∨ err = Some SkipAll) then ret None else ret err.

(** [Walk]: the error returned by [filepath.Walk] is dropped. *)
Definition Walk (env : Env) (fuel : nat) (t : Skeleton) : M unit :=
  discard (filepath_Walk env fuel (Location t) (walkFunc env t)).

(** [ParseSkeleton]: a skeleton, or an error when the directory holds no
    [config.xml] that can be read.  What [xml.Unmarshal] returns is
    dropped. *)
Definition ParseSkeleton (env : Env) (tdir : string) : M (result Skeleton) :=
  let pathtoconfig := Filepath.Join [tdir; "config.xml"] in
  let* r := os_Open env pathtoconfig in
  match r with
  | Err e =>
      (* config file not found, not a skeleton *)
      ret (Err ("Unable to open skeleton 'config.xml': " +:+ e +:+ nl))
  | Ok cfg =>
      let* r := ioutil_ReadAll env cfg in
      match r with
      | Err e => ret (Err e)
      | Ok confData =>
          let tmplConfig := xml_Unmarshal env confData in
          let location := Filepath.Dir (Name cfg) in
          let* skeleton := NewSkeleton env location tmplConfig in
          ret (Ok skeleton)
      end
  end.

(** The first loop of [ReadUserInput]: a prompt and a line per parameter. *)
Fixpoint read_params (params : list SkeletonParams) (paramvals : gmap string string)
    : M (gmap string string) :=
  match params with
  | [] => ret paramvals
  | p :: rest =>
      Printf (param_Description p +:+ ": " +:+ nl +:+ "> ");;
      let* bline := ReadLine in
      read_params rest (<[param_Name p := bline]> paramvals)
  end.

Fixpoint print_each {A} (line : A → string) (l : list A) : M unit :=
  match l with
  | [] => ret ()
  | a :: rest => Printf (line a);; print_each line rest
  end.

(** [ReadUserInput]: the map from the names of the parameters to the
    values read from the standard input. *)
Definition ReadUserInput (env : Env) (t : Skeleton) : M (gmap string string) :=
  Printf nl;;
  let* paramvals := read_params (Parameters (Config t)) ∅ in
  Printf (nl +:+ "The following parameters are specified:" +:+ nl +:+ nl);;
  let* n := get ranges in
  modify next_range;;
  print_each (λ kv : string * string, kv.1 +:+ " = " +:+ kv.2 +:+ nl)
    (range_order env n paramvals);;
  Printf nl;;
  ret paramvals.

(** The loop of [Unzip] over the entries of the archive. *)
Fixpoint Unzip_entries (env : Env) (targetDir : string) (entries : list zipFile)
    : M (string * option error) :=
  match entries with
  | [] => ret (targetDir, None)
  | f :: rest =>
      match zip_Open f with
      | Err e => ret (targetDir, Some e)
      | Ok rc =>
          (* the file or directory to be created *)
          let creationTarget := Filepath.Join [targetDir; zip_Name f] in
          if zip_IsDir f then
            when (flagVerbose env)
              (Printf ("Creating directory '" +:+ zip_Name f +:+ "'" +:+ nl));;
            let* r := os_MkdirAll env creationTarget in
            match r with
            | Err e => ret (targetDir, Some e)
            | Ok _ => Unzip_entries env targetDir rest
            end
          else
            (* it's a file, create it. *)
            let* r := os_Create env creationTarget in
            match r with
            | Err e => ret (targetDir, Some e)
            | Ok _ =>
                when (flagVerbose env)
                  (Printf ("Unzipping file '" +:+ zip_Name f +:+ "'" +:+ nl));;
                let* r := io_Copy env creationTarget rc in
                match r with
                | Err e => ret (targetDir, Some e)
                | Ok _ => Unzip_entries env targetDir rest
                end
            end
      end
  end.

(** [Unzip]: unzips the file into a new temporary directory; returns that
    directory, and an error when anything failed. *)
Definition Unzip (env : Env) (zipfile : string) : M (string * option error) :=
  let* r := zip_OpenReader env zipfile in
  match r with
  | Err e => ret ("", Some e)
  | Ok entries =>
      (* create temp dir *)
      let* r := ioutil_TempDir env in
      match r with
      | Err e => ret ("", Some e)
      | Ok targetDir =>
          when (flagVerbose env)
            (Printf ("Using temporary directory '" +:+ targetDir +:+ "'" +:+ nl));;
          Unzip_entries env targetDir entries
      end
  end.

Definition cleanup (env : Env) (targetFileDir : string) : M unit :=
  when (flagVerbose env)
    (Printf ("Removing unzip directory '" +:+ targetFileDir +:+ "'" +:+ nl));;
  let* r := os_RemoveAll env targetFileDir in
  match r with
  | Err e =>
      Fprintf_Stderr ("Unable to remove directory '" +:+ targetFileDir +:+ "': " +:+ e +:+ nl);;
      os_Exit 1
  | Ok _ => ret ()
  end.

(** [main], after [flag.Parse]: the flags are those of [env]. *)
Definition main (env : Env) (fuel : nat) : M unit :=
  if decide (flagIn env = "") then
    Fprintf_Stderr ("No skeleton specified." +:+ nl);;
    os_Exit 1
  else
  Printf ("Opening skeleton '" +:+ flagIn env +:+ "'" +:+ nl);;
  (* determine type of input (directory or zip file) *)
  let* r := os_Open env (flagIn env) in
  match r with
  | Err e =>
      Fprintf_Stderr ("Unable to open input directory or file '" +:+ flagIn env
                      +:+ "': " +:+ e +:+ nl);;
      os_Exit 1
  | Ok fileOrDir =>
  let* r := File_Stat env fileOrDir in
  match r with
  | Err e =>
      Fprintf_Stderr ("Unable to stat '" +:+ flagIn env +:+ "': " +:+ e +:+ nl);;
      os_Exit 1
  | Ok stat =>
  when (flagDryRun env)
    (Printf ("This run will not have any effect (dry-run)!" +:+ nl));;
  (* indicator whether we used a zipfile or no. *)
  let* (isZip, targetFileDir) :=
    if negb (IsDir stat) then
      let* (tdir, err) := Unzip env (flagIn env) in
      match err with
      | Some e =>
          Fprintf_Stderr ("ZIP does not seem to be OK: " +:+ e +:+ nl);;
          os_Exit 1
      | None => ret (true, tdir)
      end
    else ret (false, flagIn env) in
  (* TODO: clean up the temp dir from the unzipped contents *)
  let* r := ParseSkeleton env targetFileDir in
  match r with
  | Err e =>
      Fprintf_Stderr ("Error opening skeleton: " +:+ e +:+ nl);;
      os_Exit 1
  | Ok t =>
  let t := set_Outdir (flagOut env) (set_Dryrun (flagDryRun env) t) in
  Printf nl;;
  Printf (config_Name (Config t) +:+ nl);;
  Printf (config_Description (Config t) +:+ nl +:+ nl);;
  Printf (pretty (length (Parameters (Config t)))
          +:+ " configurable parameter(s) defined:" +:+ nl);;
  when (flagVerbose env)
    (print_each (λ params, "  ${" +:+ param_Name params +:+ "}: "
                           +:+ param_Description params +:+ nl)
       (Parameters (Config t)));;
  let* themap := ReadUserInput env t in
  let t := set_KeyValues themap t in
  Walk env fuel t;;
  let* unsub := get Unsubstituted in
  when (bool_decide (0 < size unsub))
    (Printf (nl +:+ "Warning: the following variables were left unsubstituted:"
             +:+ nl +:+ nl);;
     let* n := get ranges in
     modify next_range;;
     print_each (λ k, String "009"%char k +:+ nl) (range_keys env n unsub));;
  (* remove temporary directory *)
  when isZip (cleanup env targetFileDir)
  end end end.

(** ** Texts seen as placeholders and plain text

    The vocabulary in which the properties of [findReplace] are stated: a
    text is cut into stretches of plain text and placeholders. *)

(** [c] does not occur in [s]. *)
Fixpoint no_char (c : ascii) (s : string) : bool :=
  match s with
  | "" => true
  | String a s' => negb (bool_decide (a = c)) && no_char c s'
  end.

(** A name that cannot be confused with the syntax around it: no [$] and
    no [}] in it. *)
Definition name_ok (name : string) : bool :=
  no_char "$" name && no_char "}" name.

(** Plain text: every [$] in it is followed, in it, by a character other
    than [{]. *)
Fixpoint plain (w : string) : bool :=
  match w with
  | "" => true
  | String c w' =>
      (if decide (c = "$"%char)
       then match w' with
            | String d _ => negb (bool_decide (d = "{"%char))
            | "" => false
            end
       else true) && plain w'
  end.

Inductive tok : Type :=
| Text (w : string)       (* a stretch of plain text *)
| Var (name : string).    (* the placeholder [${name}] *)

Definition render_tok (t : tok) : string :=
  match t with
  | Text w => w
  | Var name => Sprintf_placeholder name
  end.

(** The text a sequence of tokens stands for. *)
Fixpoint render (ts : list tok) : string :=
  match ts with
  | [] => ""
  | t :: ts' => render_tok t +:+ render ts'
  end.

Definition wf_tok (t : tok) : bool :=
  match t with
  | Text w => plain w
  | Var name => name_ok name
  end.

(** A text made of plain text and well-formed placeholders. *)
Definition tokenised (ts : list tok) : Prop := Forall (λ t, wf_tok t = true) ts.

(** The names of the placeholders of a text. *)
Definition names (ts : list tok) : list string :=
  omap (λ t, match t with Var name => Some name | Text _ => None end) ts.

(** One replacement pass, on a token. *)
Definition subst_tok (k v : string) (t : tok) : tok :=
  match t with
  | Var name => if decide (name = k) then Text v else t
  | Text _ => t
  end.

(** The passes of [order], one after the other, on a token. *)
Definition passes_tok (order : list (string * string)) (t : tok) : tok :=
  foldl (λ t kv, subst_tok kv.1 kv.2 t) t order.

(** All the entries of a mapping at once, on a token. *)
Definition subst_map (m : gmap string string) (t : tok) : tok :=
  match t with
  | Var name => match m !! name with Some v => Text v | None => t end
  | Text _ => t
  end.

(** A key whose placeholder ends where its first [}] is: no [}] in it. *)
Definition key_ok (k : string) : bool := no_char "}" k.

(** A mapping whose keys hold no [}] and whose values are plain text. *)
Definition mapping_ok (m : gmap string string) : Prop :=
  ∀ k v, m !! k = Some v → key_ok k = true ∧ plain v = true.

(** The pattern after its two literal characters: [(.+)}]. *)
Definition regex_tail : Regexp.Regexp :=
  [Regexp.Plus true Regexp.Dot; Regexp.One (Regexp.Lit "}")].

(** The text before the first [}] of [w], and the text after it. *)
Fixpoint split_brace (w : string) : option (string * string) :=
  match w with
  | "" => None
  | String c w' =>
      if decide (c = "}"%char) then Some ("", w')
      else
        match split_brace w' with
        | Some (name, rest) => Some (String c name, rest)
        | None => None
        end
  end.

(** One more character in front of a text already cut into tokens. *)
Definition tokenise_step (c : ascii) (ts : list tok) : option (list tok) :=
  if decide (c = "$"%char) then
    match ts with
    | Text (String d w) :: ts' =>
        if decide (d = "{"%char) then
          match split_brace w with
          | Some (name, rest) =>
              if no_char "$" name then Some (Var name :: Text rest :: ts') else None
          | None => None
          end
        else Some (Text (String c (String d w)) :: ts')
    | _ => None
    end
  else
    match ts with
    | Text w :: ts' => Some (Text (String c w) :: ts')
    | _ => Some (Text (String c "") :: ts)
    end.

(** Cutting a text into plain text and placeholders, from its end; [None]
    for a text that is not made of these: one with a [$] at its end or
    before another [$] that starts a placeholder, or with a [${] that no
    [}] closes or that has a [$] before its [}]. *)
Fixpoint tokenise (s : string) : option (list tok) :=
  match s with
  | "" => Some []
  | String c s' =>
      match tokenise s' with
      | Some ts => tokenise_step c ts
      | None => None
      end
  end.

(** A text made of plain text and placeholders [${name}], the names
    holding neither [$] nor [}]. *)
Definition well_formed (s : string) : bool :=
  match tokenise s with Some _ => true | None => false end.

(** The names of the placeholders of a text. *)
Definition placeholder_names (s : string) : list string :=
  match tokenise s with Some ts => names ts | None => [] end.

(** ** Vocabulary for the properties of the walk *)

(** [c] keeps the relation [R] between the world it starts in and the
    world it ends in, however it ends. *)
Definition preserves {A} (R : relation World) (c : M A) : Prop :=
  ∀ w, R w (world_of (c w)).

(** From [w] to [w'] the file system has not changed, and no system call
    made in between is one that changes it. *)
Definition quiet (w w' : World) : Prop :=
  files w' = files w
  ∧ ∃ calls, trace w' = trace w ++ calls ∧ Forall (λ c, mutates c = false) calls.

(** The path [walkFunc] computes for an entry, before substitution. *)
Definition raw_target (t : Skeleton) (path : string) : string :=
  Filepath.Join [Outdir t; outDirBase t;
                 Strings.Replace (Filepath.Clean path) (Filepath.Clean (Location t)) ""].

(** The value of [targetpath] in a call of [walkFunc] started in [w]. *)
Definition targetpath_of (env : Env) (t : Skeleton) (path : string) (w : World) : string :=
  (findReplace (range_order env (ranges w) (KeyValues t)) (Unsubstituted w)
     (raw_target t path)).1.

(** What [os.Create(path)] makes of the files [fs], and what it gives. *)
Definition create_outcome (env : Env) (path : string) (fs : gmap string node)
    : gmap string node * result unit :=
  sys_outcome env (SysCreate path) (put_file "open" path "") fs.

(** What [ioutil.ReadFile(path)] gives on the files [fs]. *)
Definition read_outcome (env : Env) (path : string) (fs : gmap string node) : result string :=
  (sys_outcome env (SysReadFile path) (reading (read_file path)) fs).2.

(** The message [walkFunc] prints when a file cannot be read. *)
Definition read_failure (path : string) (e : error) : string :=
  "failed to open file '" +:+ path +:+ "': " +:+ e +:+ nl.

(** ** A sample skeleton and its runs *)

Module Sample.

Definition config : SkeletonConfig :=
  {| config_Name := "demo";
     config_Description := "A demo";
     Parameters := [ {| param_Name := "proj"; param_Description := "Project name" |} ] |}.

(** The archive [skel.zip] holds a whole skeleton; [bare.zip] holds a
    file but no [config.xml]; the second entry of [torn.zip] cannot be
    opened. *)
Definition decode (bytes : string) : option (list zipFile) :=
  if decide (bytes = "PK-skel") then
    Some [ {| zip_Name := "config.xml"; zip_IsDir := false; zip_Open := Ok "<skeleton/>" |};
           {| zip_Name := "src/"; zip_IsDir := true; zip_Open := Ok "" |};
           {| zip_Name := "src/${proj}.go"; zip_IsDir := false;
              zip_Open := Ok "package ${proj} // ${owner}" |} ]
  else if decide (bytes = "PK-bare") then
    Some [ {| zip_Name := "README.md"; zip_IsDir := false; zip_Open := Ok "Hello" |} ]
  else if decide (bytes = "PK-torn") then
    Some [ {| zip_Name := "config.xml"; zip_IsDir := false; zip_Open := Ok "<skeleton/>" |};
           {| zip_Name := "data.bin"; zip_IsDir := false;
              zip_Open := Err "zip: checksum error" |} ]
  else None.

(** An environment in which no call fails on its own. *)
Definition env (input : string) (dry verbose : bool) : Env :=
  {| flagVerbose := verbose;
     flagIn := input;
     flagDryRun := dry;
     flagOut := "./__out/";
     fault := λ _, None;
     range_order := λ _ m, map_to_list m;
     range_keys := λ _ s, elements s;
     UnixNano := 17;
     temp_name := "123";
     zip_decode := decode;
     xml_Unmarshal := λ _, config |}.

(** The same, but reading [path] is refused. *)
Definition env_unreadable (path : string) (input : string) (dry verbose : bool) : Env :=
  {| flagVerbose := verbose;
     flagIn := input;
     flagDryRun := dry;
     flagOut := "./__out/";
     fault := λ c, match c with
                   | SysReadFile p => if decide (p = path) then Some "permission denied" else None
                   | _ => None
                   end;
     range_order := λ _ m, map_to_list m;
     range_keys := λ _ s, elements s;
     UnixNano := 17;
     temp_name := "123";
     zip_decode := decode;
     xml_Unmarshal := λ _, config |}.

Definition tree : gmap string node :=
  list_to_map
    [ ("skel", Dir);
      ("skel/config.xml", File "<skeleton/>");
      ("skel/README.md", File "Hello ${proj} from ${owner}!");
      ("skel/src", Dir);
      ("skel/src/${proj}.go", File "package ${proj}");
      ("/tmp", Dir);
      ("skel.zip", File "PK-skel");
      ("bare.zip", File "PK-bare");
      ("torn.zip", File "PK-torn") ].

Definition world : World :=
  {| files := tree; stdin := ["Acme"]; stdout := []; stderr := [];
     trace := []; Unsubstituted := ∅; ranges := 0 |}.

(** The same files, with a regular file where the output directory
    should go. *)
Definition blocked : World :=
  {| files := <["__out" := File "in the way"]> tree; stdin := ["Acme"];
     stdout := []; stderr := []; trace := []; Unsubstituted := ∅; ranges := 0 |}.

(** The skeleton as [main] has it when the walk starts. *)
Definition skeleton (dry : bool) : Skeleton :=
  {| Location := "skel";
     Config := config;
     Outdir := "./__out/";
     Dryrun := dry;
     KeyValues := {[ "proj" := "Acme" ]};
     outDirBase := "demo-17" |}.

(** A mapping and a text with a resolved placeholder, a lone [$] and a
    placeholder that no key resolves. *)
Definition entries : list (string * string) := [("proj", "Acme"); ("owner", "me")].
Definition mapping : gmap string string := list_to_map entries.
Definition source : string := "Hello ${proj}, $5 from ${owner} and ${x}".
Definition resolved_source : string := "Hello ${proj}, $5 from ${owner}!".

End Sample.

(** ** Vocabulary for the properties of the whole run *)

(** An element that [filepath.Clean] keeps where it is: a name, other
    than [.] and [..]. *)
Definition plain_elem (e : string) : Prop :=
  e ≠ "" ∧ e ≠ "." ∧ e ≠ ".." ∧ no_char Filepath.Separator e = true.

(** The stacks [Clean] builds: names on top of the [..] elements that
    lead a relative path out of where it starts. *)
Definition stack_ok (is_rooted : bool) (stack : list string) : Prop :=
  ∃ k names, stack = names ++ replicate k ".."
             ∧ Forall plain_elem names ∧ (is_rooted = true → k = 0).

(** The world after [lines] have been printed on the standard output. *)
Definition add_stdouts (lines : list string) (w : World) : World :=
  mkWorld (files w) (stdin w) (stdout w ++ lines) (stderr w) (trace w)
    (Unsubstituted w) (ranges w).

(** The prompt of [ReadUserInput] for a parameter, and the line that shows
    an entry of the map it has built. *)
Definition prompt (p : SkeletonParams) : string :=
  param_Description p +:+ ": " +:+ nl +:+ "> ".
Definition shown_entry (kv : string * string) : string :=
  kv.1 +:+ " = " +:+ kv.2 +:+ nl.

(** What [os.Open(path)] gives on the files [fs]. *)
Definition open_outcome (env : Env) (path : string) (fs : gmap string node) : result OsFile :=
  match fault env (SysOpen path) with
  | Some e => Err e
  | None =>
      match node_at fs (Filepath.Clean path) with
      | Some n => Ok {| Name := path; opened := n |}
      | None => Err ("open " +:+ path +:+ ": no such file or directory")
      end
  end.

(** The calls that remove files. *)
Definition removes (c : syscall) : bool :=
  match c with
  | SysRemoveAll _ => true
  | _ => false
  end.

(** From the files [fs] to the files [fs'] nothing has gone: a path that
    was there is there, and a directory is still a directory. *)
Definition fs_grows (fs fs' : gmap string node) : Prop :=
  (∀ p, is_Some (fs !! p) → is_Some (fs' !! p))
  ∧ (∀ p, fs !! p = Some Dir → fs' !! p = Some Dir).

(** From [w] to [w'] nothing has been removed, and no call made in
    between is one that removes. *)
Definition grows (w w' : World) : Prop :=
  fs_grows (files w) (files w')
  ∧ ∃ calls, trace w' = trace w ++ calls ∧ Forall (λ c, removes c = false) calls.

(** The directory [ioutil.TempDir("", "skel")] makes. *)
Definition scratch (env : Env) : string :=
  Filepath.Join ["/tmp"; "skel" +:+ temp_name env].

(** [Unsubstituted] as the call of [findReplace] on the target path
    leaves it, in a call of [walkFunc] started in [w]. *)
Definition unsub_of_target (env : Env) (t : Skeleton) (path : string) (w : World)
    : gset string :=
  (findReplace (range_order env (ranges w) (KeyValues t)) (Unsubstituted w)
     (raw_target t path)).2.

(** What [findReplace] makes of the bytes of the file of an entry in that
    call, when the callback prints nothing: the second [range] loop of the
    call. *)
Definition content_of (env : Env) (t : Skeleton) (path : string) (w : World)
    (origBytes : string) : string * gset string :=
  findReplace (range_order env (S (ranges w)) (KeyValues t))
    (unsub_of_target env t path w) origBytes.


(** From [w] to [w'] nothing outside the directory [d] has gone. *)
Definition kept_outside (d : string) (w w' : World) : Prop :=
  ∀ p, ¬ below d p →
    (is_Some (files w !! p) → is_Some (files w' !! p))
    ∧ (files w !! p = Some Dir → files w' !! p = Some Dir).

(** The heading of the report of [main] on [Unsubstituted], and its line
    for an entry. *)
Definition warning_heading : string :=
  nl +:+ "Warning: the following variables were left unsubstituted:" +:+ nl +:+ nl.
Definition warning_line (k : string) : string := String "009"%char k +:+ nl.


(** ** Version 1.0: the walk over a template

    In version 1.0 the program takes its templates from a directory two
    levels up from their files: [walkFunc] cuts the first two elements
    off the path of an entry, and passes by the entries that have no
    more than two.  There is no [-verbose] flag: the lines are always
    printed. *)

Module V10.

Definition walkFunc (env : Env) (t : Skeleton)
    (path : string) (info : option FileInfo) (err : option error) : M (option error) :=
  (* cut down the first two elements from the path to create the target portion *)
  let split := Filepath.split path in
  if bool_decide (2 < length split) then
    let targetpath := Filepath.Join (drop 2 split) in
    let targetpath := Filepath.Join [Outdir t; targetpath] in
    let* targetpath := call_findReplace env t targetpath in  (* substitute with variables *)
    match info with
    | None => nil_dereference                        (* info.IsDir() *)
    | Some info =>
        if IsDir info then
          (* create directory *)
          let* shown := call_findReplace env t targetpath in
          Printf ("Creating dir:   " +:+ shown +:+ nl);;
          when (negb (Dryrun t))
            (discard (os_MkdirAll env targetpath));;
          ret None
        else
          (* create file and substitute *)
          Printf ("Creating file:  " +:+ targetpath +:+ nl);;
          when (negb (Dryrun t))
            (discard (os_Create env targetpath));;
          (* read original contents, write contents *)
          let* r := ioutil_ReadFile env path in
          match r with
          | Err e =>
              Fprintf_Stderr ("failed to open file '" +:+ path +:+ "': " +:+ e +:+ nl);;
              ret None
          | Ok origBytes =>
              when (negb (Dryrun t))
                (let* newcontents := call_findReplace env t origBytes in
                 discard (ioutil_WriteFile env targetpath newcontents));;
              ret None
          end
    end
  else ret None.

Definition Walk (env : Env) (fuel : nat) (t : Skeleton) : M unit :=
  discard (filepath_Walk env fuel (Location t) (walkFunc env t)).

(** The path [walkFunc] computes for an entry with more than two
    elements, before substitution. *)
Definition raw_target (t : Skeleton) (path : string) : string :=
  Filepath.Join [Outdir t; Filepath.Join (drop 2 (Filepath.split path))].

End V10.

(** * Properties *)

(** ** Strings *)

Lemma str_app_cons (c : ascii) (s r : string) : String c s +:+ r = String c (s +:+ r).
Proof. reflexivity. Qed.

Lemma str_app_nil_l (s : string) : "" +:+ s = s.
Proof. reflexivity. Qed.

Lemma str_app_nil_r (s : string) : s +:+ "" = s.
Proof. induction s as [|c s IH]; [done|]. by rewrite str_app_cons, IH. Qed.

Lemma str_app_assoc (a b c : string) : (a +:+ b) +:+ c = a +:+ (b +:+ c).
Proof. induction a as [|x a IH]; [done|]. by rewrite !str_app_cons, IH. Qed.

Lemma HasPrefix_nil (s : string) : Strings.HasPrefix s "" = true.
Proof. by destruct s. Qed.

Lemma HasPrefix_app (p s : string) : Strings.HasPrefix (p +:+ s) p = true.
Proof.
  induction p as [|c p IH]; [by destruct s|].
  rewrite str_app_cons. simpl. by rewrite decide_True.
Qed.

Lemma HasPrefix_cons_ne (c p : ascii) (s ps : string) :
  c ≠ p → Strings.HasPrefix (String c s) (String p ps) = false.
Proof. intros Hne. simpl. by rewrite decide_False. Qed.

Lemma HasPrefix_cons_eq (c : ascii) (s ps : string) :
  Strings.HasPrefix (String c s) (String c ps) = Strings.HasPrefix s ps.
Proof. simpl. by rewrite decide_True. Qed.

Lemma HasPrefix_spec (s p : string) :
  Strings.HasPrefix s p = true ↔ ∃ r, s = p +:+ r.
Proof.
  split.
  - revert s. induction p as [|c p IH]; intros s H.
    + by exists s.
    + destruct s as [|a s]; [done|]. simpl in H.
      destruct (decide (a = c)) as [->|]; [|done].
      destruct (IH _ H) as [r ->]. by exists r.
  - intros [r ->]. apply HasPrefix_app.
Qed.

Example Replace_examples :
  Strings.Replace "oink oink oink" "k" "ky" = "oinky oinky oinky"
  ∧ Strings.Replace "aaaa" "aa" "b" = "bb"
  ∧ Strings.Replace "aaa" "aa" "a" = "aa"
  ∧ Strings.Replace "skel/src/a.txt" "skel" "" = "/src/a.txt".
Proof. repeat split. Qed.

(** *** The three equations of the replacement scan *)

Lemma replace_skip (old new p s : string) :
  Strings.replace_from old new (String.length p) (p +:+ s)
  = Strings.replace_from old new 0 s.
Proof.
  induction p as [|c p IH]; simpl.
  - destruct s; reflexivity.
  - exact IH.
Qed.

Lemma replace_from_cons (old new : string) (c : ascii) (s : string) :
  Strings.replace_from old new 0 (String c s)
  = if Strings.HasPrefix (String c s) old
    then new +:+ Strings.replace_from old new (String.length old - 1) s
    else String c (Strings.replace_from old new 0 s).
Proof. reflexivity. Qed.

Lemma replace_hit (old new s : string) :
  old ≠ "" →
  Strings.Replace (old +:+ s) old new = new +:+ Strings.Replace s old new.
Proof.
  intros Hne. unfold Strings.Replace.
  destruct old as [|c old]; [done|].
  rewrite str_app_cons, replace_from_cons, HasPrefix_cons_eq, HasPrefix_app.
  replace (String.length (String c old) - 1) with (String.length old)
    by (simpl; lia).
  by rewrite replace_skip.
Qed.

Lemma replace_miss (old new : string) (c : ascii) (s : string) :
  Strings.HasPrefix (String c s) old = false →
  Strings.Replace (String c s) old new = String c (Strings.Replace s old new).
Proof. intros H. unfold Strings.Replace. by rewrite replace_from_cons, H. Qed.

Lemma replace_empty (old new : string) : Strings.Replace "" old new = "".
Proof. reflexivity. Qed.

(** A text in which [old] does not occur is left as it is. *)
Lemma replace_absent (old new s : string) :
  Strings.Contains s old = false → Strings.Replace s old new = s.
Proof.
  induction s as [|c s IH]; [done|]. intros H.
  simpl in H. apply orb_false_iff in H as [H1 H2].
  rewrite replace_miss by exact H1. by rewrite IH.
Qed.

(** [filepath.Clean] never returns the empty string, so that [walkFunc],
    like [findReplace], calls [strings.Replace] with a non-empty [old]. *)
Lemma Clean_nonempty (path : string) : Filepath.Clean path ≠ "".
Proof. unfold Filepath.Clean. cbv zeta. by case_decide. Qed.

(** ** One replacement pass, token by token *)

Lemma placeholder_unfold (k : string) :
  Sprintf_placeholder k = String "$" (String "{" (k +:+ "}")).
Proof. reflexivity. Qed.

Lemma placeholder_nonempty (k : string) : Sprintf_placeholder k ≠ "".
Proof. by rewrite placeholder_unfold. Qed.

Lemma no_char_cons (c a : ascii) (s : string) :
  no_char c (String a s) = true ↔ a ≠ c ∧ no_char c s = true.
Proof.
  simpl. rewrite andb_true_iff, negb_true_iff, bool_decide_eq_false. tauto.
Qed.

Lemma no_char_app (c : ascii) (s r : string) :
  no_char c (s +:+ r) = true ↔ no_char c s = true ∧ no_char c r = true.
Proof.
  induction s as [|a s IH]; [rewrite str_app_nil_l; simpl; tauto|].
  rewrite str_app_cons, !no_char_cons, IH. tauto.
Qed.

Lemma plain_tail (c : ascii) (w : string) : plain (String c w) = true → plain w = true.
Proof. simpl. by intros [_ H]%andb_true_iff. Qed.

Lemma no_dollar_plain (u : string) : no_char "$" u = true → plain u = true.
Proof.
  induction u as [|c u IH]; [done|].
  intros [Hc Hu]%no_char_cons. simpl.
  rewrite decide_False by done. auto.
Qed.

(** Plain text, whatever follows it, is copied by a pass. *)
Lemma replace_plain (k v w rest : string) :
  plain w = true →
  Strings.Replace (w +:+ rest) (Sprintf_placeholder k) v
  = w +:+ Strings.Replace rest (Sprintf_placeholder k) v.
Proof.
  induction w as [|c w IH]; [done|].
  intros Hp. rewrite !str_app_cons.
  rewrite replace_miss, (IH (plain_tail _ _ Hp)); [done|].
  rewrite placeholder_unfold.
  destruct (decide (c = "$"%char)) as [->|Hc]; [|by apply HasPrefix_cons_ne].
  rewrite HasPrefix_cons_eq.
  simpl in Hp. destruct w as [|d w]; [done|].
  apply andb_true_iff in Hp as [Hd _].
  apply negb_true_iff, bool_decide_eq_false in Hd.
  rewrite str_app_cons. by apply HasPrefix_cons_ne.
Qed.

(** Where [${n}] starts, [${k}] starts only if [n] is [k]. *)
Lemma HasPrefix_other_name (n k rest : string) :
  no_char "}" n = true → no_char "}" k = true → n ≠ k →
  Strings.HasPrefix (n +:+ "}" +:+ rest) (k +:+ "}") = false.
Proof.
  revert k. induction n as [|a n IH]; intros [|c k] Hn Hk Hne; try done.
  - apply no_char_cons in Hk as [Hc _].
    rewrite !str_app_cons, str_app_nil_l. apply HasPrefix_cons_ne. congruence.
  - apply no_char_cons in Hn as [Ha _].
    rewrite !str_app_cons, str_app_nil_l. by apply HasPrefix_cons_ne.
  - apply no_char_cons in Hn as [_ Hn]. apply no_char_cons in Hk as [_ Hk].
    rewrite !str_app_cons. destruct (decide (a = c)) as [->|Hac].
    + rewrite HasPrefix_cons_eq. apply IH; [done..|congruence].
    + by apply HasPrefix_cons_ne.
Qed.

Lemma wf_subst_tok (k v : string) (t : tok) :
  plain v = true → wf_tok t = true → wf_tok (subst_tok k v t) = true.
Proof. intros Hv Ht. destruct t as [w|n]; [done|]. simpl. by case_decide. Qed.

Lemma replace_tok (k v : string) (t : tok) (rest : string) :
  key_ok k = true → wf_tok t = true →
  Strings.Replace (render_tok t +:+ rest) (Sprintf_placeholder k) v
  = render_tok (subst_tok k v t) +:+ Strings.Replace rest (Sprintf_placeholder k) v.
Proof.
  intros Hk Ht. destruct t as [w|n]; simpl.
  { by apply replace_plain. }
  unfold key_ok in Hk. apply andb_true_iff in Ht as [Hn1 Hn2].
  case_decide as Hnk; cbn [render_tok].
  - subst n. apply replace_hit, placeholder_nonempty.
  - rewrite (placeholder_unfold n), !str_app_cons.
    rewrite replace_miss.
    2:{ rewrite placeholder_unfold, !HasPrefix_cons_eq, str_app_assoc.
        by apply HasPrefix_other_name. }
    f_equal.
    change (String "{" ((n +:+ "}") +:+ rest))
      with (String "{" (n +:+ "}") +:+ rest).
    change (String "{" ((n +:+ "}") +:+ ?r))
      with (String "{" (n +:+ "}") +:+ r).
    apply replace_plain, no_dollar_plain.
    rewrite no_char_cons. split; [done|].
    apply no_char_app. done.
Qed.

(** A pass over a tokenised text acts on each placeholder by itself. *)
Lemma replace_render (k v : string) (ts : list tok) :
  key_ok k = true → tokenised ts →
  Strings.Replace (render ts) (Sprintf_placeholder k) v
  = render (subst_tok k v <$> ts).
Proof.
  intros Hk. induction 1 as [|t ts Ht _ IH]; [done|].
  simpl. by rewrite replace_tok, IH.
Qed.

Lemma tokenised_subst_tok (k v : string) (ts : list tok) :
  plain v = true → tokenised ts → tokenised (subst_tok k v <$> ts).
Proof.
  intros Hv Hts. unfold tokenised. rewrite Forall_fmap.
  eapply Forall_impl; [exact Hts|]. intros t. by apply wf_subst_tok.
Qed.

(** ** The loop of [findReplace] on a tokenised text *)

Lemma passes_tok_Text (order : list (string * string)) (w : string) :
  passes_tok order (Text w) = Text w.
Proof. induction order as [|kv order IH]; [done|]. exact IH. Qed.

Lemma passes_tok_absent (order : list (string * string)) (n : string) :
  n ∉ order.*1 → passes_tok order (Var n) = Var n.
Proof.
  induction order as [|[k v] order IH]; [done|].
  intros Hn. apply not_elem_of_cons in Hn as [Hk Hn].
  unfold passes_tok. simpl. rewrite decide_False by done. by apply IH.
Qed.

Lemma passes_tok_present (order : list (string * string)) (n v : string) :
  NoDup order.*1 → (n, v) ∈ order → passes_tok order (Var n) = Text v.
Proof.
  induction order as [|[k v'] order IH]; intros Hnd Hin.
  { by apply elem_of_nil in Hin. }
  apply NoDup_cons in Hnd as [Hk Hnd].
  unfold passes_tok. simpl.
  apply elem_of_cons in Hin as [Heq|Hin].
  - injection Heq as -> ->. rewrite decide_True by done. apply passes_tok_Text.
  - rewrite decide_False.
    + by apply IH.
    + intros ->. apply Hk. apply list_elem_of_fmap. by exists (k, v).
Qed.

(** Whatever the order of the passes, a token ends as the mapping has it. *)
Lemma passes_tok_range (m : gmap string string) (order : list (string * string)) (t : tok) :
  range_of m order → passes_tok order t = subst_map m t.
Proof.
  intros Hr. destruct t as [w|n]; [apply passes_tok_Text|].
  assert (NoDup order.*1) as Hnd.
  { unfold range_of in Hr. rewrite Hr. apply NoDup_fst_map_to_list. }
  simpl. destruct (m !! n) as [v|] eqn:Hm.
  - apply passes_tok_present; [done|].
    unfold range_of in Hr. rewrite Hr. by apply elem_of_map_to_list.
  - apply passes_tok_absent. intros Hin.
    apply list_elem_of_fmap in Hin as [[k v] [-> Hin]].
    unfold range_of in Hr. rewrite Hr in Hin.
    apply elem_of_map_to_list in Hin. simpl in Hm. congruence.
Qed.

Lemma range_of_ok (m : gmap string string) (order : list (string * string)) :
  range_of m order → mapping_ok m →
  Forall (λ kv, key_ok kv.1 = true ∧ plain kv.2 = true) order.
Proof.
  intros Hr Hm. apply Forall_forall. intros [k v] Hin.
  unfold range_of in Hr. rewrite Hr in Hin.
  apply elem_of_map_to_list in Hin. by apply Hm.
Qed.

Lemma loop_render (order : list (string * string)) (ts : list tok) :
  Forall (λ kv, key_ok kv.1 = true ∧ plain kv.2 = true) order →
  tokenised ts →
  findReplace_loop order (render ts) = render (passes_tok order <$> ts).
Proof.
  intros Ho. revert ts. induction Ho as [|[k v] order [Hk Hv] _ IH]; intros ts Hts.
  { by rewrite list_fmap_id. }
  unfold findReplace_loop. simpl. unfold replace_pass at 2. simpl.
  rewrite replace_render by done.
  unfold findReplace_loop in IH. rewrite IH by by apply tokenised_subst_tok.
  by rewrite <-list_fmap_compose.
Qed.

(** The loop computes the simultaneous substitution, in any order. *)
Lemma loop_tokenised (m : gmap string string) (order : list (string * string))
    (ts : list tok) :
  range_of m order → mapping_ok m → tokenised ts →
  findReplace_loop order (render ts) = render (subst_map m <$> ts).
Proof.
  intros Hr Hm Hts. rewrite loop_render by eauto using range_of_ok.
  f_equal. apply list_fmap_ext. intros _ t _. by apply passes_tok_range.
Qed.

Lemma tokenised_subst_map (m : gmap string string) (ts : list tok) :
  mapping_ok m → tokenised ts → tokenised (subst_map m <$> ts).
Proof.
  intros Hm Hts. unfold tokenised. rewrite Forall_fmap.
  eapply Forall_impl; [exact Hts|]. intros [w|n] Ht; [done|]. simpl.
  destruct (m !! n) as [v|] eqn:Hn; [|done]. by apply Hm in Hn as [_ Hv].
Qed.

Lemma subst_map_idemp (m : gmap string string) (t : tok) :
  subst_map m (subst_map m t) = subst_map m t.
Proof.
  destruct t as [w|n]; [done|]. simpl.
  destruct (m !! n) eqn:Hn; [done|]. simpl. by rewrite Hn.
Qed.

(** ** Cutting a text into tokens *)

Lemma split_brace_spec (w name rest : string) :
  split_brace w = Some (name, rest) →
  w = name +:+ "}" +:+ rest ∧ no_char "}" name = true.
Proof.
  revert name. induction w as [|c w IH]; intros name; [done|]. simpl.
  case_decide as Hc.
  - intros [= <- <-]. by subst c.
  - destruct (split_brace w) as [[name' rest']|]; [|done].
    intros [= <- <-]. destruct (IH name' eq_refl) as [-> Hn].
    split; [done|]. apply no_char_cons. done.
Qed.

Lemma plain_app_r (u v : string) : plain (u +:+ v) = true → plain v = true.
Proof.
  induction u as [|c u IH]; [done|]. rewrite str_app_cons.
  intros H. by apply IH, (plain_tail c).
Qed.

Lemma tokenise_step_sound (c : ascii) (ts ts' : list tok) :
  tokenised ts → tokenise_step c ts = Some ts' →
  render ts' = String c (render ts) ∧ tokenised ts'.
Proof.
  intros Hts. unfold tokenise_step. case_decide as Hc.
  - subst c. destruct ts as [|[[|d w]|n] ts0]; try done.
    apply Forall_cons in Hts as [Hw Hts0]. case_decide as Hd.
    + subst d. destruct (split_brace w) as [[name rest]|] eqn:Hsplit; [|done].
      destruct (no_char "$" name) eqn:Hname; [|done]. intros [= <-].
      apply split_brace_spec in Hsplit as [-> Hbrace]. split.
      * simpl. by rewrite placeholder_unfold, !str_app_cons, !str_app_assoc.
      * apply Forall_cons. split; [by apply andb_true_iff|].
        apply Forall_cons. split; [|done]. simpl in *.
        apply (plain_app_r (name +:+ "}")). rewrite str_app_assoc.
        exact Hw.
    + intros [= <-]. split; [done|]. apply Forall_cons. split; [|done].
      simpl in *. by rewrite Hw, bool_decide_eq_false_2.
  - destruct ts as [|[w|n] ts0]; intros [= <-].
    + split; [done|]. by repeat constructor; simpl; rewrite ?decide_False.
    + apply Forall_cons in Hts as [Hw Hts0]. split; [done|].
      apply Forall_cons. split; [|done]. simpl in *. by rewrite decide_False.
    + split; [done|]. apply Forall_cons. split; [|done].
      simpl. by rewrite decide_False.
Qed.

(** The tokens found stand for the text, and are well formed. *)
Lemma tokenise_sound (s : string) (ts : list tok) :
  tokenise s = Some ts → render ts = s ∧ tokenised ts.
Proof.
  revert ts. induction s as [|c s IH]; intros ts.
  { intros [= <-]. split; [done|constructor]. }
  simpl. destruct (tokenise s) as [ts0|]; [|done]. intros Hstep.
  destruct (IH ts0 eq_refl) as [<- Hts0].
  by apply tokenise_step_sound.
Qed.

Lemma well_formed_tokens (s : string) :
  well_formed s = true →
  ∃ ts, render ts = s ∧ tokenised ts ∧ placeholder_names s = names ts.
Proof.
  unfold well_formed, placeholder_names.
  destruct (tokenise s) as [ts|] eqn:Hs; [|done]. intros _.
  exists ts. by destruct (tokenise_sound s ts Hs).
Qed.

(** *** Every text made of well-formed tokens is recognised *)

Lemma tokenise_cons (c : ascii) (s : string) :
  tokenise (String c s)
  = match tokenise s with Some ts => tokenise_step c ts | None => None end.
Proof. reflexivity. Qed.

(** How the tokens found start, by the first character of the text. *)
Lemma tokenise_head (s : string) (ts : list tok) :
  tokenise s = Some ts →
  match s with
  | "" => ts = []
  | String d x =>
      (∃ w ts', ts = Text (String d w) :: ts')
      ∨ (d = "$"%char ∧ (∃ x', x = String "{" x') ∧ ∃ n ts', ts = Var n :: ts')
  end.
Proof.
  revert ts. induction s as [|d x IH]; intros ts; [by intros [= <-]|].
  rewrite tokenise_cons. destruct (tokenise x) as [ts0|] eqn:Hx; [|done].
  specialize (IH ts0 eq_refl). unfold tokenise_step. case_decide as Hd.
  - destruct ts0 as [|[[|e w]|n] ts1]; try done.
    destruct x as [|e' x']; [discriminate IH|].
    destruct IH as [(w0 & ts' & Heq)|(_ & _ & n & ts' & Heq)]; [|discriminate Heq].
    injection Heq as -> _ _.
    case_decide as He.
    + destruct (split_brace w) as [[name rest]|]; [|done].
      destruct (no_char "$" name); [|done]. intros [= <-].
      right. subst e'. split_and!; [done|by eexists|by eexists _, _].
    + intros [= <-]. left. by eexists _, _.
  - destruct ts0 as [|[w|n] ts1]; intros [= <-]; left; by eexists _, _.
Qed.

Lemma tokenise_plain_app (w s : string) :
  plain w = true → is_Some (tokenise s) → is_Some (tokenise (w +:+ s)).
Proof.
  intros Hw Hs. induction w as [|c w IH]; [done|].
  rewrite str_app_cons, tokenise_cons.
  destruct (IH (plain_tail _ _ Hw)) as [ts1 Hts1]. rewrite Hts1.
  unfold tokenise_step. case_decide as Hc.
  - subst c. simpl in Hw. destruct w as [|d w]; [done|].
    apply andb_true_iff in Hw as [Hd Hw].
    apply negb_true_iff, bool_decide_eq_false in Hd.
    rewrite str_app_cons in Hts1.
    destruct (tokenise_head _ _ Hts1) as [(w0 & ts' & ->)|(-> & (x' & Hx') & _)].
    + by rewrite decide_False.
    + exfalso. destruct w as [|e w]; [done|]. simpl in Hw.
      apply andb_true_iff in Hw as [He _].
      apply negb_true_iff, bool_decide_eq_false in He.
      rewrite str_app_cons in Hx'. congruence.
  - by destruct ts1 as [|[]].
Qed.

(** Characters other than [$] join the plain text that follows them. *)
Lemma tokenise_no_dollar_app (u s : string) (ts : list tok) :
  no_char "$" u = true → u ≠ "" → tokenise s = Some ts →
  tokenise (u +:+ s)
  = Some (match ts with
          | Text w :: ts' => Text (u +:+ w) :: ts'
          | _ => Text u :: ts
          end).
Proof.
  intros Hu Hne Hs. induction u as [|c u IH]; [done|].
  apply no_char_cons in Hu as [Hc Hu].
  rewrite str_app_cons, tokenise_cons.
  destruct u as [|d u].
  - rewrite str_app_nil_l, Hs. unfold tokenise_step.
    rewrite decide_False by done. by destruct ts as [|[]].
  - rewrite (IH Hu) by done. unfold tokenise_step.
    rewrite decide_False by done. by destruct ts as [|[]].
Qed.

Lemma split_brace_app (name rest : string) :
  no_char "}" name = true → split_brace (name +:+ "}" +:+ rest) = Some (name, rest).
Proof.
  induction name as [|c name IH]; [done|].
  intros [Hc Hn]%no_char_cons. rewrite str_app_cons. simpl.
  rewrite decide_False by done. by rewrite IH.
Qed.

Lemma tokenise_var_app (n s : string) :
  name_ok n = true → is_Some (tokenise s) →
  is_Some (tokenise (Sprintf_placeholder n +:+ s)).
Proof.
  intros [Hn1 Hn2]%andb_true_iff [ts Hts].
  rewrite placeholder_unfold, str_app_cons, tokenise_cons.
  change (String "{" (n +:+ "}") +:+ s) with ((String "{" (n +:+ "}")) +:+ s).
  rewrite (tokenise_no_dollar_app _ _ ts); [|by apply no_char_cons, conj, no_char_app|done..].
  unfold tokenise_step. rewrite decide_True by done.
  destruct ts as [|[w|m] ts'].
  - rewrite decide_True by done.
    rewrite <-(str_app_nil_r (n +:+ "}")), str_app_assoc, split_brace_app by done.
    by rewrite Hn1.
  - rewrite str_app_cons, decide_True by done.
    rewrite str_app_assoc, split_brace_app by done. by rewrite Hn1.
  - rewrite decide_True by done.
    rewrite <-(str_app_nil_r (n +:+ "}")), str_app_assoc, split_brace_app by done.
    by rewrite Hn1.
Qed.

(** [well_formed] holds of exactly the texts that well-formed tokens make. *)
Lemma well_formed_render (ts : list tok) : tokenised ts → well_formed (render ts) = true.
Proof.
  intros Hts. enough (is_Some (tokenise (render ts))) as [ts' H].
  { unfold well_formed. by rewrite H. }
  induction Hts as [|[w|n] ts Ht _ IH]; [done|..]; simpl.
  - by apply tokenise_plain_app.
  - by apply tokenise_var_app.
Qed.

Lemma well_formed_iff (s : string) :
  well_formed s = true ↔ ∃ ts, tokenised ts ∧ render ts = s.
Proof.
  split.
  - intros (ts & Hr & Hts & _)%well_formed_tokens. by exists ts.
  - intros (ts & Hts & <-). by apply well_formed_render.
Qed.

(** ** The scan for what is left unsubstituted *)

(** The match starts at the first [${] that has a character and a [}]
    after it on its line, and runs to the last [}] of that line. *)
Example FindString_examples :
  Regexp.FindString regex "Hello ${proj}!" = "${proj}"
  ∧ Regexp.FindString regex "a ${x} b } c ${y}" = "${x} b } c ${y}"
  ∧ Regexp.FindString regex ("${x}" +:+ nl +:+ "}") = "${x}"
  ∧ Regexp.FindString regex ("${" +:+ nl +:+ "} ${y}") = "${y}"
  ∧ Regexp.FindString regex "${}" = ""
  ∧ Regexp.FindString regex "${}}" = "${}}"
  ∧ Regexp.FindString regex "$ {x}" = "".
Proof. repeat split. Qed.

Lemma match_here_regex (s : string) :
  Regexp.match_here regex s
  = match s with
    | String "$" (String "{" s') => (λ n, S (S n)) <$> Regexp.match_here regex_tail s'
    | _ => None
    end.
Proof.
  destruct s as [|c s]; [done|].
  change (Regexp.match_here regex (String c s))
    with (if Regexp.atom_matches (Regexp.Lit "$") c
          then S <$> Regexp.match_here (tail regex) s else None).
  unfold Regexp.atom_matches.
  destruct (decide (c = "$"%char)) as [->|Hc].
  2:{ rewrite bool_decide_eq_false_2 by done.
      destruct c as [[] [] [] [] [] [] [] []]; try done. }
  rewrite bool_decide_eq_true_2 by done.
  destruct s as [|d s]; [done|].
  change (Regexp.match_here (tail regex) (String d s))
    with (if Regexp.atom_matches (Regexp.Lit "{") d
          then S <$> Regexp.match_here regex_tail s else None).
  unfold Regexp.atom_matches.
  destruct (decide (d = "{"%char)) as [->|Hd].
  2:{ rewrite bool_decide_eq_false_2 by done.
      destruct d as [[] [] [] [] [] [] [] []]; try done. }
  rewrite bool_decide_eq_true_2 by done.
  by destruct (Regexp.match_here regex_tail s).
Qed.

Lemma match_here_close (s : string) :
  Regexp.match_here [Regexp.One (Regexp.Lit "}")] s
  = match s with String "}" _ => Some 1 | _ => None end.
Proof.
  destruct s as [|c s]; [done|].
  change (Regexp.match_here [Regexp.One (Regexp.Lit "}")] (String c s))
    with (if bool_decide (c = "}"%char) then Some 1 else None).
  destruct (decide (c = "}"%char)) as [->|Hc]; [done|].
  rewrite bool_decide_eq_false_2 by done.
  destruct c as [[] [] [] [] [] [] [] []]; try done.
Qed.

Lemma match_here_tail_cons (c : ascii) (s : string) :
  Regexp.match_here regex_tail (String c s)
  = if negb (bool_decide (c = Regexp.newline)) then
      match Regexp.match_here regex_tail s with
      | Some n => Some (S n)
      | None => S <$> Regexp.match_here [Regexp.One (Regexp.Lit "}")] s
      end
    else None.
Proof. reflexivity. Qed.

(** What [(.+)}] matches: a non-empty name without newline, then [}]. *)
Lemma match_here_tail_sound (s : string) (n : nat) :
  Regexp.match_here regex_tail s = Some n →
  ∃ name post, s = name +:+ "}" +:+ post ∧ n = S (String.length name)
               ∧ name ≠ "" ∧ no_char Regexp.newline name = true.
Proof.
  revert n. induction s as [|c s IH]; intros n; [done|].
  rewrite match_here_tail_cons.
  destruct (negb (bool_decide (c = Regexp.newline))) eqn:Hc; [|done].
  destruct (Regexp.match_here regex_tail s) as [n'|] eqn:Hs.
  - intros [= <-]. destruct (IH _ eq_refl) as (name & post & -> & -> & _ & Hnl).
    exists (String c name), post. repeat split; [done|].
    simpl. by rewrite Hc, Hnl.
  - rewrite match_here_close.
    destruct s as [|d s]; [done|].
    destruct (decide (d = "}"%char)) as [->|Hd].
    + intros [= <-]. exists (String c ""), s. repeat split; [done|].
      simpl. by rewrite Hc.
    + destruct d as [[] [] [] [] [] [] [] []]; done.
Qed.

Lemma match_here_tail_complete (name post : string) :
  name ≠ "" → no_char Regexp.newline name = true →
  is_Some (Regexp.match_here regex_tail (name +:+ "}" +:+ post)).
Proof.
  induction name as [|c name IH]; [done|]. intros _ [Hc Hnl]%no_char_cons.
  rewrite str_app_cons, match_here_tail_cons.
  rewrite bool_decide_eq_false_2 by done. simpl negb. cbv iota.
  destruct name as [|d name].
  - rewrite str_app_nil_l.
    destruct (Regexp.match_here regex_tail _); [done|].
    by rewrite match_here_close.
  - destruct (IH ltac:(done) Hnl) as [n ->]. done.
Qed.

Lemma substring_prefix (p r : string) :
  String.substring 0 (String.length p) (p +:+ r) = p.
Proof.
  induction p as [|c p IH]; [by destruct r|].
  rewrite str_app_cons. simpl. by rewrite IH.
Qed.

Lemma match_here_regex_sound (s : string) (n : nat) :
  Regexp.match_here regex s = Some n →
  ∃ name post, s = Sprintf_placeholder name +:+ post
               ∧ String.substring 0 n s = Sprintf_placeholder name
               ∧ name ≠ "" ∧ no_char Regexp.newline name = true.
Proof.
  rewrite match_here_regex.
  destruct s as [|c s]; [done|].
  destruct (decide (c = "$"%char)) as [->|Hc];
    [|by destruct c as [[] [] [] [] [] [] [] []]].
  destruct s as [|d s]; [done|].
  destruct (decide (d = "{"%char)) as [->|Hd];
    [|by destruct d as [[] [] [] [] [] [] [] []]].
  destruct (Regexp.match_here regex_tail s) as [n'|] eqn:Hs; [|done].
  intros [= <-].
  destruct (match_here_tail_sound _ _ Hs) as (name & post & -> & -> & Hne & Hnl).
  exists name, post. split_and!; [| |done..].
  - by rewrite placeholder_unfold, !str_app_cons, !str_app_assoc.
  - replace (S (S (S (String.length name))))
      with (String.length (Sprintf_placeholder name)).
    + rewrite <-(substring_prefix (Sprintf_placeholder name) post) at 2.
      f_equal. by rewrite placeholder_unfold, !str_app_cons, !str_app_assoc.
    + rewrite placeholder_unfold. simpl. f_equal. f_equal.
      clear. induction name as [|c name IH]; [done|]. rewrite str_app_cons. simpl. by rewrite IH.
Qed.

(** [FindString] gives the empty string or a placeholder of the text. *)
Lemma FindString_sound (s : string) :
  Regexp.FindString regex s = ""
  ∨ ∃ pre name post,
      s = pre +:+ Sprintf_placeholder name +:+ post
      ∧ Regexp.FindString regex s = Sprintf_placeholder name
      ∧ name ≠ "" ∧ no_char Regexp.newline name = true.
Proof.
  induction s as [|c s IH].
  { left. reflexivity. }
  change (Regexp.FindString regex (String c s))
    with (match Regexp.match_here regex (String c s) with
          | Some n => String.substring 0 n (String c s)
          | None => Regexp.FindString regex s
          end).
  destruct (Regexp.match_here regex (String c s)) as [n|] eqn:Hm.
  - right. destruct (match_here_regex_sound _ _ Hm) as (name & post & Hs & Hsub & Hne & Hnl).
    exists "", name, post. by rewrite str_app_nil_l.
  - destruct IH as [IH|(pre & name & post & -> & Hf & Hne & Hnl)]; [by left|].
    right. exists (String c pre), name, post. by rewrite str_app_cons.
Qed.

(** A text that holds a placeholder has one found. *)
Lemma FindString_complete (pre name post : string) :
  name ≠ "" → no_char Regexp.newline name = true →
  Regexp.FindString regex (pre +:+ Sprintf_placeholder name +:+ post) ≠ "".
Proof.
  intros Hne Hnl.
  assert (∀ s n, Regexp.match_here regex s = Some n →
                 Regexp.FindString regex s ≠ "") as Hfound.
  { intros s n Hm.
    destruct (match_here_regex_sound _ _ Hm) as (name' & post' & _ & Hsub & _).
    destruct s as [|c s]; [done|].
    change (Regexp.FindString regex (String c s))
      with (match Regexp.match_here regex (String c s) with
            | Some n => String.substring 0 n (String c s)
            | None => Regexp.FindString regex s
            end).
    rewrite Hm, Hsub. apply placeholder_nonempty. }
  induction pre as [|c pre IH].
  - rewrite str_app_nil_l.
    destruct (match_here_tail_complete name post Hne Hnl) as [n Hn].
    apply (Hfound _ (S (S n))).
    rewrite match_here_regex, placeholder_unfold, !str_app_cons, str_app_assoc.
    by rewrite Hn.
  - rewrite str_app_cons.
    change (Regexp.FindString regex (String c ?s))
      with (match Regexp.match_here regex (String c s) with
            | Some n => String.substring 0 n (String c s)
            | None => Regexp.FindString regex s
            end).
    destruct (Regexp.match_here regex (String c _)) as [n|] eqn:Hm; [|exact IH].
    specialize (Hfound _ _ Hm).
    change (Regexp.FindString regex (String c ?s))
      with (match Regexp.match_here regex (String c s) with
            | Some n => String.substring 0 n (String c s)
            | None => Regexp.FindString regex s
            end) in Hfound.
    by rewrite Hm in Hfound.
Qed.

(** A text without [${] has nothing found. *)
Lemma FindString_absent (s : string) :
  Strings.Contains s "${" = false → Regexp.FindString regex s = "".
Proof.
  intros Hc. destruct (FindString_sound s) as [H|(pre & name & post & -> & _)]; [done|].
  exfalso. clear -Hc. induction pre as [|c pre IH].
  - rewrite str_app_nil_l, placeholder_unfold, !str_app_cons in Hc. simpl in Hc.
    by rewrite HasPrefix_nil in Hc.
  - rewrite str_app_cons in Hc. simpl in Hc.
    apply orb_false_iff in Hc as [_ Hc]. by apply IH.
Qed.

(** ** [findReplace] *)

Example findReplace_hello :
  findReplace [("proj", "Acme")] ∅ "Hello ${proj} from ${owner}!"
  = ("Hello Acme from ${owner}!", {[ "${owner}" ]}).
Proof. vm_compute. reflexivity. Qed.

Lemma range_of_list_to_map (order : list (string * string)) :
  NoDup order.*1 → range_of (list_to_map order) order.
Proof. intros Hnd. unfold range_of. symmetry. by apply map_to_list_to_map. Qed.

Lemma mapping_ok_list_to_map (l : list (string * string)) :
  Forall (λ kv, key_ok kv.1 = true ∧ plain kv.2 = true) l →
  mapping_ok (list_to_map l).
Proof.
  intros Hl k v Hkv. apply elem_of_list_to_map_2 in Hkv.
  by apply (proj1 (Forall_forall _ _) Hl (k, v)).
Qed.

Lemma elem_of_names (n : string) (ts : list tok) : n ∈ names ts ↔ Var n ∈ ts.
Proof.
  unfold names. rewrite list_elem_of_omap. split.
  - intros ([w|n'] & Hin & Heq); [done|]. by injection Heq as ->.
  - intros Hin. by exists (Var n).
Qed.

Lemma Contains_cons (c : ascii) (s sub : string) :
  Strings.Contains (String c s) sub
  = Strings.HasPrefix (String c s) sub || Strings.Contains s sub.
Proof. reflexivity. Qed.

Lemma Contains_plain_app (w rest : string) :
  plain w = true → Strings.Contains rest "${" = false →
  Strings.Contains (w +:+ rest) "${" = false.
Proof.
  intros Hw Hrest. induction w as [|c w IH]; [done|].
  rewrite str_app_cons, Contains_cons.
  rewrite (IH (plain_tail _ _ Hw)), orb_false_r.
  destruct (decide (c = "$"%char)) as [->|Hc]; [|by apply HasPrefix_cons_ne].
  rewrite HasPrefix_cons_eq.
  simpl in Hw. destruct w as [|d w]; [done|].
  apply andb_true_iff in Hw as [Hd _].
  apply negb_true_iff, bool_decide_eq_false in Hd.
  rewrite str_app_cons. by apply HasPrefix_cons_ne.
Qed.

(** A tokenised text without placeholders holds no [${]. *)
Lemma Contains_no_names (ts : list tok) :
  tokenised ts → names ts = [] → Strings.Contains (render ts) "${" = false.
Proof.
  induction 1 as [|[w|n] ts Ht _ IH]; intros Hn; [done| |done].
  simpl. apply Contains_plain_app; [done|]. by apply IH.
Qed.

Lemma names_subst_map (m : gmap string string) (ts : list tok) :
  (∀ n, n ∈ names ts → is_Some (m !! n)) → names (subst_map m <$> ts) = [].
Proof.
  induction ts as [|[w|n] ts IH]; intros Hn; [done|by apply IH|].
  destruct (Hn n) as [v Hv]; [apply elem_of_names; left|].
  simpl. rewrite Hv. simpl. apply IH. intros n' Hn'. apply Hn.
  apply elem_of_names. right. by apply elem_of_names.
Qed.

(** C2, as the spec has it, fails: on [${a}${b}] the scan records the one
    string [${a}${b}], and neither [${a}] nor [${b}]. *)
Lemma findReplace_adjacent_recorded_as_one :
  (findReplace [] ∅ "${a}${b}").2 = {[ "${a}${b}" ]}
  ∧ ("${a}" ∉ (findReplace [] ∅ "${a}${b}").2)
  ∧ ("${b}" ∉ (findReplace [] ∅ "${a}${b}").2).
Proof.
  assert ((findReplace [] ∅ "${a}${b}").2 = {[ "${a}${b}" ]}) as ->
    by (vm_compute; reflexivity).
  split; [done|]. split; intros H%elem_of_singleton; discriminate H.
Qed.

(** C2, amended: a call of [findReplace] records at most one string.  When
    the substituted text holds no [${], one or more characters other than
    newline, [}], nothing is recorded; otherwise the scan records one
    stretch of the substituted text of that form. *)
Theorem findReplace_records_one_match
    (order : list (string * string)) (unsub : gset string) (src : string) :
  let r := (findReplace order unsub src).1 in
  let unsub' := (findReplace order unsub src).2 in
  (unsub' = unsub
   ∧ ∀ pre name post, name ≠ "" → no_char Regexp.newline name = true →
       r ≠ pre +:+ Sprintf_placeholder name +:+ post)
  ∨ (∃ pre name post,
       r = pre +:+ Sprintf_placeholder name +:+ post
       ∧ name ≠ "" ∧ no_char Regexp.newline name = true
       ∧ unsub' = {[ Sprintf_placeholder name ]} ∪ unsub).
Proof.
  unfold findReplace. simpl.
  destruct (FindString_sound (findReplace_loop order src))
    as [Hnone|(pre & name & post & Hr & Hf & Hne & Hnl)].
  - left. rewrite Hnone. split; [by rewrite decide_False by (intros H; by apply H)|].
    intros pre name post Hne Hnl Hr.
    apply (FindString_complete pre name post Hne Hnl). by rewrite <-Hr.
  - right. exists pre, name, post. rewrite Hf.
    rewrite decide_True by apply placeholder_nonempty. done.
Qed.

(** C3, as the spec has it, fails: with [k1 -> ${k2}] and [k2 -> x], the
    text [${k1}] becomes [x] when [range] yields [k1] first, the value
    being scanned by the pass of [k2], and [${k2}] when it yields [k2]
    first. *)
Lemma findReplace_order_matters :
  range_of (list_to_map [("k1", "${k2}"); ("k2", "x")]) [("k1", "${k2}"); ("k2", "x")]
  ∧ range_of (list_to_map [("k1", "${k2}"); ("k2", "x")]) [("k2", "x"); ("k1", "${k2}")]
  ∧ (findReplace [("k1", "${k2}"); ("k2", "x")] ∅ "${k1}").1 = "x"
  ∧ (findReplace [("k2", "x"); ("k1", "${k2}")] ∅ "${k1}").1 = "${k2}".
Proof.
  split_and!; [| |reflexivity..].
  - apply range_of_list_to_map. by compute_done.
  - unfold range_of. rewrite (perm_swap ("k1", "${k2}") ("k2", "x") []).
    apply range_of_list_to_map. by compute_done.
Qed.

Lemma findReplace_order_independent_tokens
    (m : gmap string string) (order1 order2 : list (string * string))
    (ts : list tok) (unsub : gset string) :
  range_of m order1 → range_of m order2 → mapping_ok m → tokenised ts →
  findReplace order1 unsub (render ts) = findReplace order2 unsub (render ts).
Proof.
  intros H1 H2 Hm Hts. unfold findReplace.
  by rewrite (loop_tokenised m order1), (loop_tokenised m order2).
Qed.

(** C3, amended: the passes run one after the other, each on the text the
    passes before it left; for a mapping whose keys hold no [}] and whose
    values are plain text, and a text made of plain text and placeholders,
    the result is the same in every order of iteration. *)
Theorem findReplace_order_independent
    (m : gmap string string) (order1 order2 : list (string * string))
    (src : string) (unsub : gset string) :
  range_of m order1 → range_of m order2 → mapping_ok m →
  well_formed src = true →
  findReplace order1 unsub src = findReplace order2 unsub src.
Proof.
  intros H1 H2 Hm (ts & <- & Hts & _)%well_formed_tokens.
  by apply (findReplace_order_independent_tokens m).
Qed.

Lemma range_of_perm (m : gmap string string) (order order' : list (string * string)) :
  order' ≡ₚ order → range_of m order → range_of m order'.
Proof. unfold range_of. by intros ->. Qed.

Lemma Sample_range : range_of Sample.mapping Sample.entries.
Proof. apply range_of_list_to_map. by compute_done. Qed.

Lemma Sample_range_rev : range_of Sample.mapping (reverse Sample.entries).
Proof. apply (range_of_perm _ Sample.entries); [apply perm_swap|apply Sample_range]. Qed.

Lemma Sample_mapping_ok : mapping_ok Sample.mapping.
Proof. apply mapping_ok_list_to_map. by repeat constructor. Qed.

Lemma findReplace_order_independent_witness :
  findReplace Sample.entries ∅ Sample.source
  = findReplace (reverse Sample.entries) ∅ Sample.source.
Proof.
  apply (findReplace_order_independent Sample.mapping Sample.entries
           (reverse Sample.entries) Sample.source ∅).
  - exact Sample_range.
  - exact Sample_range_rev.
  - exact Sample_mapping_ok.
  - reflexivity.
Defined.

(** C4, as the spec has it, fails: [${a}] names a key of the mapping
    [a -> ${z}], and the result is [${z}], which is recorded. *)
Lemma findReplace_value_left_unresolved :
  range_of (list_to_map [("a", "${z}")]) [("a", "${z}")]
  ∧ findReplace [("a", "${z}")] ∅ "${a}" = ("${z}", {[ "${z}" ]}).
Proof.
  split; [apply range_of_list_to_map; by compute_done|].
  vm_compute. reflexivity.
Qed.

Lemma findReplace_all_resolved_tokens
    (m : gmap string string) (order : list (string * string))
    (ts : list tok) (unsub : gset string) :
  range_of m order → mapping_ok m → tokenised ts →
  (∀ n, n ∈ names ts → is_Some (m !! n)) →
  Strings.Contains (findReplace order unsub (render ts)).1 "${" = false
  ∧ Regexp.FindString regex (findReplace order unsub (render ts)).1 = ""
  ∧ (findReplace order unsub (render ts)).2 = unsub.
Proof.
  intros Hr Hm Hts Hn. unfold findReplace. simpl.
  rewrite (loop_tokenised m order) by done.
  assert (Strings.Contains (render (subst_map m <$> ts)) "${" = false) as Hc.
  { apply Contains_no_names; [by apply tokenised_subst_map|by apply names_subst_map]. }
  split; [done|]. rewrite (FindString_absent _ Hc). split; [done|].
  by rewrite decide_False by (intros H; by apply H).
Qed.

(** C4, amended: for a mapping whose keys hold no [}] and whose values are
    plain text, and a text made of plain text and of placeholders that all
    name keys of the mapping, the result holds no [${], the scan finds
    nothing and [Unsubstituted] is left as it was. *)
Theorem findReplace_all_resolved
    (m : gmap string string) (order : list (string * string))
    (src : string) (unsub : gset string) :
  range_of m order → mapping_ok m →
  well_formed src = true →
  (∀ n, n ∈ placeholder_names src → is_Some (m !! n)) →
  Strings.Contains (findReplace order unsub src).1 "${" = false
  ∧ Regexp.FindString regex (findReplace order unsub src).1 = ""
  ∧ (findReplace order unsub src).2 = unsub.
Proof.
  intros Hr Hm (ts & <- & Hts & Hnames)%well_formed_tokens Hn.
  rewrite Hnames in Hn. by apply (findReplace_all_resolved_tokens m).
Qed.

Lemma findReplace_all_resolved_witness :
  Strings.Contains (findReplace Sample.entries ∅ Sample.resolved_source).1 "${" = false
  ∧ Regexp.FindString regex (findReplace Sample.entries ∅ Sample.resolved_source).1 = ""
  ∧ (findReplace Sample.entries ∅ Sample.resolved_source).2 = ∅.
Proof.
  apply (findReplace_all_resolved Sample.mapping Sample.entries Sample.resolved_source ∅).
  - exact Sample_range.
  - exact Sample_mapping_ok.
  - reflexivity.
  - intros n Hn. vm_compute in Hn.
    apply elem_of_cons in Hn as [->|Hn]; [by eexists|].
    apply list_elem_of_singleton in Hn as ->. by eexists.
Defined.

(** C7, as the spec has it, fails: with [a] mapped to the empty string,
    the text [$${a}{a}] becomes [${a}], and a second application makes it
    empty. *)
Lemma findReplace_twice_differs :
  range_of (list_to_map [("a", "")]) [("a", "")]
  ∧ mapping_ok (list_to_map [("a", "")])
  ∧ (findReplace [("a", "")] ∅ "$${a}{a}").1 = "${a}"
  ∧ (findReplace [("a", "")] ∅ (findReplace [("a", "")] ∅ "$${a}{a}").1).1 = "".
Proof.
  split; [apply range_of_list_to_map; by compute_done|].
  split; [apply mapping_ok_list_to_map; by repeat constructor|].
  split; reflexivity.
Qed.

Lemma findReplace_idempotent_tokens
    (m : gmap string string) (order1 order2 : list (string * string))
    (ts : list tok) (unsub1 unsub2 : gset string) :
  range_of m order1 → range_of m order2 → mapping_ok m → tokenised ts →
  (findReplace order2 unsub2 (findReplace order1 unsub1 (render ts)).1).1
  = (findReplace order1 unsub1 (render ts)).1.
Proof.
  intros H1 H2 Hm Hts. unfold findReplace. simpl.
  rewrite (loop_tokenised m order1) by done.
  rewrite (loop_tokenised m order2) by (by try apply tokenised_subst_map).
  rewrite <-list_fmap_compose. f_equal. apply list_fmap_ext.
  intros _ t _. apply subst_map_idemp.
Qed.

(** C7, amended: for a mapping whose keys hold no [}] and whose values are
    plain text, and a text made of plain text and placeholders, applying
    [findReplace] a second time changes nothing. *)
Theorem findReplace_idempotent
    (m : gmap string string) (order1 order2 : list (string * string))
    (src : string) (unsub1 unsub2 : gset string) :
  range_of m order1 → range_of m order2 → mapping_ok m →
  well_formed src = true →
  (findReplace order2 unsub2 (findReplace order1 unsub1 src).1).1
  = (findReplace order1 unsub1 src).1.
Proof.
  intros H1 H2 Hm (ts & <- & Hts & _)%well_formed_tokens.
  by apply (findReplace_idempotent_tokens m).
Qed.

Lemma findReplace_idempotent_witness :
  (findReplace (reverse Sample.entries) ∅
     (findReplace Sample.entries ∅ Sample.source).1).1
  = (findReplace Sample.entries ∅ Sample.source).1.
Proof.
  apply (findReplace_idempotent Sample.mapping Sample.entries
           (reverse Sample.entries) Sample.source ∅ ∅).
  - exact Sample_range.
  - exact Sample_range_rev.
  - exact Sample_mapping_ok.
  - reflexivity.
Defined.

Example findReplace_sample :
  findReplace Sample.entries ∅ Sample.source
  = ("Hello Acme, $5 from me and ${x}", {[ "${x}" ]}).
Proof. vm_compute. reflexivity. Qed.

(** *** What the hypotheses of the amended statements are for *)

(** A key holding [}]: the placeholder of [a] starts the placeholder of
    [a}]; the first line is about the order of the passes, the second
    about a second application. *)
Example order_matters_for_key_with_brace :
  well_formed "${a}}" = true
  ∧ (findReplace [("a", "1"); ("a}", "2")] ∅ "${a}}").1 = "1}"
  ∧ (findReplace [("a}", "2"); ("a", "1")] ∅ "${a}}").1 = "2"
  ∧ well_formed "${n}${c}" = true
  ∧ (findReplace [("n}", "X"); ("c", "}")] ∅ "${n}${c}").1 = "${n}}"
  ∧ (findReplace [("n}", "X"); ("c", "}")] ∅ "${n}}").1 = "X".
Proof. split_and!; reflexivity. Qed.

(** A value ending in [$]: it makes a placeholder with the text that
    follows it. *)
Example order_matters_for_value_with_dollar :
  well_formed "${a}{b}" = true
  ∧ (findReplace [("a", "$"); ("b", "x")] ∅ "${a}{b}").1 = "x"
  ∧ (findReplace [("b", "x"); ("a", "$")] ∅ "${a}{b}").1 = "${b}".
Proof. split_and!; reflexivity. Qed.

(** A text with a placeholder inside a placeholder, keys and values being
    as they should. *)
Example order_matters_for_nested_text :
  mapping_ok (list_to_map [("a", "k"); ("xky", "v")])
  ∧ well_formed "${x${a}y}" = false
  ∧ (findReplace [("a", "k"); ("xky", "v")] ∅ "${x${a}y}").1 = "v"
  ∧ (findReplace [("xky", "v"); ("a", "k")] ∅ "${x${a}y}").1 = "${xky}".
Proof.
  split; [apply mapping_ok_list_to_map; by repeat constructor|]. split_and!; reflexivity.
Qed.

(** ** Reasoning about runs *)

Section preserves.
Context (R : relation World) `{!PreOrder R}.

Lemma preserves_ret {A} (a : A) : preserves R (ret a).
Proof. intros w. simpl. reflexivity. Qed.

Lemma preserves_bind {A B} (c : M A) (k : A → M B) :
  preserves R c → (∀ a, preserves R (k a)) → preserves R (bind c k).
Proof.
  intros Hc Hk w. unfold bind. specialize (Hc w).
  destruct (c w) as [a w'| | |]; simpl in *; [|done..].
  etrans; [exact Hc|]. apply Hk.
Qed.

Lemma preserves_modify (f : World → World) :
  (∀ w, R w (f w)) → preserves R (modify f).
Proof. intros Hf w. apply Hf. Qed.

Lemma preserves_get {A} (f : World → A) : preserves R (get f).
Proof. intros w. simpl. reflexivity. Qed.

Lemma preserves_when (b : bool) (c : M unit) :
  preserves R c → preserves R (when b c).
Proof. intros Hc. destruct b; [done|]. apply preserves_ret. Qed.

Lemma preserves_discard {A} (c : M A) : preserves R c → preserves R (discard c).
Proof. intros Hc. apply preserves_bind; [done|]. intros _. apply preserves_ret. Qed.

Lemma preserves_stop {A} : 
  preserves R (@os_Exit A 1) ∧ preserves R (@nil_dereference A)
  ∧ preserves R (@out_of_fuel A).
Proof. split_and!; intros w; simpl; reflexivity. Qed.
End preserves.

Global Instance quiet_preorder : PreOrder quiet.
Proof.
  split.
  - intros w. split; [done|]. exists []. by rewrite app_nil_r.
  - intros w1 w2 w3 [Hf1 (c1 & Ht1 & Hc1)] [Hf2 (c2 & Ht2 & Hc2)].
    split; [congruence|]. exists (c1 ++ c2).
    rewrite Ht2, Ht1, <-(assoc_L (++)). split; [done|]. by apply Forall_app.
Qed.

Lemma quiet_add_stdout (s : string) (w : World) : quiet w (add_stdout s w).
Proof. split; [done|]. exists []. by rewrite app_nil_r. Qed.

Lemma quiet_add_stderr (s : string) (w : World) : quiet w (add_stderr s w).
Proof. split; [done|]. exists []. by rewrite app_nil_r. Qed.

Lemma quiet_add_trace (c : syscall) (w : World) :
  mutates c = false → quiet w (add_trace c w).
Proof. intros Hc. split; [done|]. exists [c]. split; [done|]. by constructor. Qed.

Lemma quiet_reading {A} (env : Env) (c : syscall) (f : gmap string node → result A) :
  mutates c = false → preserves quiet (sys env c (reading f)).
Proof.
  intros Hc w. unfold sys, sys_outcome, reading. split.
  - destruct (fault env c); done.
  - exists [c]. simpl. split; [done|]. by constructor.
Qed.

Lemma quiet_Printf (s : string) : preserves quiet (Printf s).
Proof. intros w. apply quiet_add_stdout. Qed.

Lemma quiet_Fprintf_Stderr (s : string) : preserves quiet (Fprintf_Stderr s).
Proof. intros w. apply quiet_add_stderr. Qed.

Lemma quiet_call_findReplace (env : Env) (t : Skeleton) (src : string) :
  preserves quiet (call_findReplace env t src).
Proof.
  intros w. unfold call_findReplace.
  destruct (findReplace _ _ _) as [r u]. simpl.
  split; [done|]. exists []. by rewrite app_nil_r.
Qed.

Lemma quiet_os_Lstat (env : Env) (path : string) : preserves quiet (os_Lstat env path).
Proof. by apply quiet_reading. Qed.

Lemma quiet_readDirNames (env : Env) (path : string) :
  preserves quiet (readDirNames env path).
Proof. by apply quiet_reading. Qed.

Lemma quiet_ioutil_ReadFile (env : Env) (path : string) :
  preserves quiet (ioutil_ReadFile env path).
Proof. by apply quiet_reading. Qed.

(** The walk keeps whatever its callback and its own reads keep. *)
Lemma preserves_walk (R : relation World) `{!PreOrder R}
    (env : Env) (walkFn : WalkFunc) :
  (∀ path, preserves R (os_Lstat env path)) →
  (∀ path, preserves R (readDirNames env path)) →
  (∀ path info err, preserves R (walkFn path info err)) →
  ∀ fuel path info, preserves R (walk env fuel walkFn path info).
Proof.
  intros HL HD Hfn. induction fuel as [|fuel IH]; intros path info.
  { apply preserves_stop, _. }
  simpl. destruct (negb (IsDir info)); [apply Hfn|].
  apply preserves_bind; [done..|]. intros names.
  apply preserves_bind; [done..|]. intros err1.
  case_bool_decide; [by apply preserves_ret|].
  generalize (match names with Ok l => l | Err _ => [] end). intros l.
  induction l as [|name l IHl]; [by apply preserves_ret|].
  apply preserves_bind; [done..|]. intros [fileInfo|e].
  - apply preserves_bind; [done..|]. intros err.
    case_bool_decide; [by apply preserves_ret|apply IHl].
  - apply preserves_bind; [done..|]. intros err.
    case_bool_decide; [by apply preserves_ret|apply IHl].
Qed.

Lemma preserves_filepath_Walk (R : relation World) `{!PreOrder R}
    (env : Env) (fuel : nat) (root : string) (fn : WalkFunc) :
  (∀ path, preserves R (os_Lstat env path)) →
  (∀ path, preserves R (readDirNames env path)) →
  (∀ path info err, preserves R (fn path info err)) →
  preserves R (filepath_Walk env fuel root fn).
Proof.
  intros HL HD Hfn. unfold filepath_Walk.
  apply preserves_bind; [done..|]. intros r.
  apply preserves_bind; [done| |].
  - destruct r; [by apply preserves_walk|apply Hfn].
  - intros err. case_bool_decide; by apply preserves_ret.
Qed.

(** ** [walkFunc] and the walk *)

Lemma call_findReplace_eq (env : Env) (t : Skeleton) (src : string) (w : World) :
  call_findReplace env t src w
  = Ret (findReplace (range_order env (ranges w) (KeyValues t)) (Unsubstituted w) src).1
        (next_range (set_Unsubstituted
           (findReplace (range_order env (ranges w) (KeyValues t)) (Unsubstituted w) src).2 w)).
Proof. unfold call_findReplace. by destruct (findReplace _ _ _). Qed.

Lemma bind_Ret {A B} (c : M A) (k : A → M B) (w w' : World) (a : A) :
  c w = Ret a w' → bind c k w = k a w'.
Proof. intros H. unfold bind. by rewrite H. Qed.

Lemma discard_Ret {A} (c : M A) (w w' : World) (a : A) :
  c w = Ret a w' → discard c w = Ret () w'.
Proof. intros H. unfold discard. by rewrite (bind_Ret _ _ _ _ _ H). Qed.

Lemma when_Printf_eq (b : bool) (s : string) (w : World) :
  when b (Printf s) w = Ret () (if b then add_stdout s w else w).
Proof. by destruct b. Qed.

Lemma ioutil_ReadFile_eq (env : Env) (path : string) (w : World) :
  ioutil_ReadFile env path w
  = Ret (read_outcome env path (files w)) (add_trace (SysReadFile path) w).
Proof.
  unfold ioutil_ReadFile, sys, read_outcome, sys_outcome, reading.
  destruct (fault env _); by destruct w.
Qed.

(** Unfolding one call of [walkFunc] down to the system calls. *)
Ltac run_walkFunc :=
  unfold walkFunc, targetpath_of, raw_target, bind;
  rewrite ?call_findReplace_eq;
  unfold when, discard, bind, os_MkdirAll, os_Create, ioutil_ReadFile,
    ioutil_WriteFile, sys, Printf, Fprintf_Stderr, modify, ret, nil_dereference;
  cbn [negb IsDir].

Lemma quiet_walkFunc_dry (env : Env) (t : Skeleton) :
  Dryrun t = true →
  ∀ path info err, preserves quiet (walkFunc env t path info err).
Proof.
  intros Hdry path info err. unfold walkFunc. rewrite Hdry. simpl negb.
  apply preserves_bind; [apply _|apply quiet_call_findReplace|]. intros targetpath.
  destruct info as [info|]; [|apply preserves_stop, _].
  destruct (IsDir info).
  - apply preserves_bind; [apply _| |].
    + apply preserves_when; [apply _|].
      apply preserves_bind; [apply _|apply quiet_call_findReplace|].
      intros shown. apply quiet_Printf.
    + intros _. apply preserves_bind; [apply _|apply preserves_ret, _|].
      intros _. apply preserves_ret, _.
  - apply preserves_bind; [apply _| |].
    + apply preserves_when; [apply _|]. apply quiet_Printf.
    + intros _. apply preserves_bind; [apply _|apply preserves_ret, _|].
      intros _. apply preserves_bind; [apply _|apply quiet_ioutil_ReadFile|].
      intros [origBytes|e].
      * apply preserves_bind; [apply _|apply preserves_ret, _|].
        intros _. apply preserves_ret, _.
      * apply preserves_bind; [apply _|apply quiet_Fprintf_Stderr|].
        intros _. apply preserves_ret, _.
Qed.

(** C5: in a dry run the walk leaves the file system as it found it, and
    makes no system call that creates a directory, creates a file or
    writes one, whatever the files, the mapping and the output directory
    are, and however the walk ends. *)
Theorem Walk_dry_run_no_mutation (env : Env) (fuel : nat) (t : Skeleton) (w : World) :
  Dryrun t = true →
  files (world_of (Walk env fuel t w)) = files w
  ∧ ∃ calls, trace (world_of (Walk env fuel t w)) = trace w ++ calls
             ∧ Forall (λ c, mutates c = false) calls.
Proof.
  intros Hdry.
  enough (preserves quiet (Walk env fuel t)) as H by apply H.
  apply preserves_discard; [apply _|].
  apply preserves_filepath_Walk;
    auto using quiet_os_Lstat, quiet_readDirNames, quiet_walkFunc_dry with typeclass_instances.
Qed.

Lemma Walk_dry_run_no_mutation_witness :
  files (world_of (Walk (Sample.env "skel" true true) 10 (Sample.skeleton true) Sample.world))
  = files Sample.world
  ∧ ∃ calls,
      trace (world_of (Walk (Sample.env "skel" true true) 10 (Sample.skeleton true) Sample.world))
      = trace Sample.world ++ calls
      ∧ Forall (λ c, mutates c = false) calls.
Proof.
  apply (Walk_dry_run_no_mutation (Sample.env "skel" true true) 10
           (Sample.skeleton true) Sample.world).
  reflexivity.
Defined.

(** C6, as the spec has it, fails: with a regular file in the place of the
    output directory, [os.Create] and [ioutil.WriteFile] fail for the entry
    [skel/README.md]; the callback returns nil, and nothing has been
    printed. *)
Lemma walkFunc_write_failure_not_logged :
  let env := Sample.env "skel" false false in
  let w' := world_of (walkFunc env (Sample.skeleton false) "skel/README.md"
                        (Some {| IsDir := false |}) None Sample.blocked) in
  (os_Create env "__out/demo-17/README.md" Sample.blocked
   = Ret (Err "open __out/demo-17/README.md: no such file or directory")
         (add_trace (SysCreate "__out/demo-17/README.md") Sample.blocked))
  ∧ trace w' = [SysCreate "__out/demo-17/README.md"; SysReadFile "skel/README.md";
                SysWriteFile "__out/demo-17/README.md" "Hello Acme from ${owner}!"]
  ∧ files w' = files Sample.blocked
  ∧ stdout w' = [] ∧ stderr w' = [].
Proof. vm_compute. repeat split. Qed.

(** C6, amended: for an entry that comes with a [FileInfo], the callback
    returns nil and does not panic, whether or not [os.MkdirAll],
    [os.Create] and [ioutil.WriteFile] fail; what they return is dropped
    and not logged: the standard output gains the line of a verbose run
    at most, and the standard error gains a line exactly when the entry is
    a file that cannot be read. *)
Theorem walkFunc_drops_write_failures
    (env : Env) (t : Skeleton) (path : string) (info : FileInfo)
    (err : option error) (w : World) :
  ∃ w', walkFunc env t path (Some info) err w = Ret None w'
    ∧ (∃ line, stdout w' = stdout w ++ (if flagVerbose env then [line] else []))
    ∧ stderr w'
      = stderr w ++
        (if IsDir info then []
         else
           match read_outcome env path
                   (if Dryrun t then files w
                    else (create_outcome env (targetpath_of env t path w) (files w)).1)
           with
           | Err e => [read_failure path e]
           | Ok _ => []
           end).
Proof.
  unfold read_outcome, create_outcome. run_walkFunc.
  destruct (IsDir info), (flagVerbose env), (Dryrun t); cbn;
    try (destruct (sys_outcome env (SysReadFile path) _ _) as [fs1 [origBytes|e]] eqn:Hout;
         cbn).
  all: eexists; split; [reflexivity|]; cbn.
  all: split; [first [by eexists | exists ""; by rewrite app_nil_r]|].
  all: by rewrite ?app_nil_r.
Qed.

(** Where [os.Create] succeeds there is an empty file afterwards. *)
Lemma create_outcome_ok (env : Env) (path : string) (fs : gmap string node) :
  (create_outcome env path fs).2 = Ok () →
  (create_outcome env path fs).1 !! Filepath.Clean path = Some (File "").
Proof.
  unfold create_outcome, sys_outcome, put_file.
  destruct (fault env _); [done|].
  destruct (can_put fs path).
  - intros _. apply lookup_insert_eq.
  - by destruct (node_at fs _) as [[]|].
Qed.

Lemma os_Create_eq (env : Env) (path : string) (w : World) :
  os_Create env path w
  = Ret (create_outcome env path (files w)).2
        (set_files (create_outcome env path (files w)).1 (add_trace (SysCreate path) w)).
Proof. reflexivity. Qed.

Lemma create_outcome_err (env : Env) (path : string) (fs : gmap string node) (e : error) :
  (create_outcome env path fs).2 = Err e → (create_outcome env path fs).1 = fs.
Proof.
  unfold create_outcome, sys_outcome, put_file.
  destruct (fault env _); [done|].
  destruct (can_put fs path); [done|].
  by destruct (node_at fs _) as [[]|].
Qed.

(** C8, as the spec has it, fails: with a regular file in the place of the
    output directory and the reading of [skel/README.md] refused,
    [os.Create] fails, then the read fails and is reported; no file has
    been made at the target path, and the files are as they were. *)
Lemma walkFunc_read_failure_without_file :
  let env := Sample.env_unreadable "skel/README.md" "skel" false false in
  ∃ w', walkFunc env (Sample.skeleton false) "skel/README.md"
          (Some {| IsDir := false |}) None Sample.blocked = Ret None w'
    ∧ os_Create env "__out/demo-17/README.md" Sample.blocked
      = Ret (Err "open __out/demo-17/README.md: no such file or directory")
          (add_trace (SysCreate "__out/demo-17/README.md") Sample.blocked)
    ∧ trace w' = [SysCreate "__out/demo-17/README.md"; SysReadFile "skel/README.md"]
    ∧ stderr w' = [read_failure "skel/README.md" "permission denied"]
    ∧ files w' !! "__out/demo-17/README.md" = None
    ∧ files w' = files Sample.blocked.
Proof. eexists. vm_compute. repeat split. Qed.

(** C8, amended: in a run that is not dry, when the file of an entry
    cannot be read, [os.Create] has already been called for the
    substituted target path, nothing is written after it, the failure is
    reported on the standard error and the callback returns nil.  The
    files are as [os.Create] left them: where it succeeded, the empty file
    it made at the target path is there; where it failed, its error being
    dropped, the files are as they were. *)
Theorem walkFunc_read_failure_leaves_empty_file
    (env : Env) (t : Skeleton) (path : string) (info : FileInfo)
    (err : option error) (w : World) (e : error) :
  Dryrun t = false → IsDir info = false →
  read_outcome env path
    (create_outcome env (targetpath_of env t path w) (files w)).1 = Err e →
  ∃ w', walkFunc env t path (Some info) err w = Ret None w'
    ∧ trace w' = trace w ++ [SysCreate (targetpath_of env t path w); SysReadFile path]
    ∧ stderr w' = stderr w ++ [read_failure path e]
    ∧ files w' = (create_outcome env (targetpath_of env t path w) (files w)).1
    ∧ ((create_outcome env (targetpath_of env t path w) (files w)).2 = Ok () →
       files w' !! Filepath.Clean (targetpath_of env t path w) = Some (File ""))
    ∧ (∀ e', (create_outcome env (targetpath_of env t path w) (files w)).2 = Err e' →
             files w' = files w).
Proof.
  intros Hdry Hfile Hread.
  unfold walkFunc.
  erewrite bind_Ret by apply call_findReplace_eq.
  fold (raw_target t path). fold (targetpath_of env t path w).
  set (tp := targetpath_of env t path w) in *.
  rewrite Hfile, Hdry. cbv iota. cbn [negb].
  erewrite bind_Ret by apply when_Printf_eq.
  erewrite bind_Ret by (eapply discard_Ret, os_Create_eq).
  erewrite bind_Ret by apply ioutil_ReadFile_eq.
  assert (files (if flagVerbose env
                 then add_stdout ("Creating file:  " +:+ tp +:+ nl)
                        (next_range (set_Unsubstituted
                           (findReplace (range_order env (ranges w) (KeyValues t))
                              (Unsubstituted w) (raw_target t path)).2 w))
                 else next_range (set_Unsubstituted
                        (findReplace (range_order env (ranges w) (KeyValues t))
                           (Unsubstituted w) (raw_target t path)).2 w))
          = files w) as Hfiles by (by destruct (flagVerbose env)).
  rewrite Hfiles. cbn [files set_files add_trace]. rewrite Hread.
  eexists. split; [reflexivity|].
  split_and!.
  - destruct (flagVerbose env); cbn; by rewrite <-(assoc_L (++)).
  - by destruct (flagVerbose env).
  - done.
  - intros Hok. by apply create_outcome_ok.
  - intros e' Herr. by apply (create_outcome_err _ _ _ e').
Qed.

Lemma walkFunc_read_failure_leaves_empty_file_witness :
  let env := Sample.env_unreadable "skel/README.md" "skel" false false in
  let w := world_of (os_MkdirAll env "__out/demo-17" Sample.world) in
  ∃ w', walkFunc env (Sample.skeleton false) "skel/README.md"
          (Some {| IsDir := false |}) None w = Ret None w'
    ∧ trace w' = trace w ++ [SysCreate "__out/demo-17/README.md"; SysReadFile "skel/README.md"]
    ∧ stderr w' = stderr w ++ [read_failure "skel/README.md" "permission denied"]
    ∧ files w' = <["__out/demo-17/README.md" := File ""]> (files w)
    ∧ (Ok () = Ok () → files w' !! "__out/demo-17/README.md" = Some (File ""))
    ∧ (∀ e', Ok () = Err e' → files w' = files w).
Proof.
  apply (walkFunc_read_failure_leaves_empty_file
           (Sample.env_unreadable "skel/README.md" "skel" false false)
           (Sample.skeleton false) "skel/README.md" {| IsDir := false |} None
           (world_of (os_MkdirAll (Sample.env_unreadable "skel/README.md" "skel" false false)
                        "__out/demo-17" Sample.world))
           "permission denied"); reflexivity.
Defined.

(** C9: the callback never looks at the error the walker passes to it, and
    for a nil [FileInfo] the call [info.IsDir()] panics, after the target
    path has gone through [findReplace]. *)
Theorem walkFunc_nil_info_panics
    (env : Env) (t : Skeleton) (path : string) (err : option error) (w : World) :
  (∀ info err', walkFunc env t path info err' w = walkFunc env t path info err w)
  ∧ ∃ w', walkFunc env t path None err w = Panic w'.
Proof.
  split; [reflexivity|]. run_walkFunc. eexists. reflexivity.
Qed.

(** The walker does pass a nil [FileInfo]: when [lstat] fails for a name
    it has read from a directory. *)
Example Walk_panics_on_lstat_failure :
  let env :=
    {| flagVerbose := false; flagIn := "skel"; flagDryRun := false; flagOut := "./__out/";
       fault := λ c, match c with
                     | SysLstat "skel/README.md" => Some "permission denied"
                     | _ => None
                     end;
       range_order := λ _ m, map_to_list m;
       range_keys := λ _ s, elements s;
       UnixNano := 17; temp_name := "123";
       zip_decode := Sample.decode; xml_Unmarshal := λ _, Sample.config |} in
  ∃ w', Walk env 10 (Sample.skeleton false) Sample.world = Panic w'.
Proof. eexists. vm_compute. reflexivity. Qed.

(** C10: in a dry run the callback still reads the file of an entry, and
    that is all it does with it: [findReplace] runs once, on the target
    path, so that [Unsubstituted] ends as this one call leaves it,
    whatever the file holds. *)
Theorem walkFunc_dry_run_skips_content
    (env : Env) (t : Skeleton) (path : string) (info : FileInfo)
    (err : option error) (w : World) :
  Dryrun t = true → IsDir info = false →
  ∃ w', walkFunc env t path (Some info) err w = Ret None w'
    ∧ trace w' = trace w ++ [SysReadFile path]
    ∧ ranges w' = S (ranges w)
    ∧ Unsubstituted w'
      = (findReplace (range_order env (ranges w) (KeyValues t)) (Unsubstituted w)
           (raw_target t path)).2.
Proof.
  intros Hdry Hfile. run_walkFunc. rewrite Hdry, Hfile. cbn [negb].
  destruct (flagVerbose env); cbn.
  all: destruct (sys_outcome env (SysReadFile path) _ _) as [fs1 [origBytes|e]]; cbn.
  all: eexists; split; [reflexivity|]; done.
Qed.

Lemma walkFunc_dry_run_skips_content_witness :
  let env := Sample.env "skel" true false in
  ∃ w', walkFunc env (Sample.skeleton true) "skel/README.md"
          (Some {| IsDir := false |}) None Sample.world = Ret None w'
    ∧ trace w' = trace Sample.world ++ [SysReadFile "skel/README.md"]
    ∧ ranges w' = S (ranges Sample.world)
    ∧ Unsubstituted w'
      = (findReplace (range_order env (ranges Sample.world) (KeyValues (Sample.skeleton true)))
           (Unsubstituted Sample.world)
           (raw_target (Sample.skeleton true) "skel/README.md")).2.
Proof.
  apply (walkFunc_dry_run_skips_content (Sample.env "skel" true false)
           (Sample.skeleton true) "skel/README.md" {| IsDir := false |} None Sample.world);
    reflexivity.
Defined.

(** The file [skel/README.md] holds [${owner}], which no parameter
    resolves: a dry run of the walk records nothing, a real run does. *)
Example Walk_dry_run_misses_content_placeholder :
  Unsubstituted (world_of (Walk (Sample.env "skel" true false) 10
                             (Sample.skeleton true) Sample.world)) = ∅
  ∧ Unsubstituted (world_of (Walk (Sample.env "skel" false false) 10
                               (Sample.skeleton false) Sample.world)) = {[ "${owner}" ]}.
Proof. split; vm_compute; reflexivity. Qed.

(** ** [main] and the scratch directory *)

Lemma quiet_os_Open (env : Env) (path : string) : preserves quiet (os_Open env path).
Proof. by apply quiet_reading. Qed.

Lemma quiet_ioutil_ReadAll (env : Env) (f : OsFile) : preserves quiet (ioutil_ReadAll env f).
Proof. by apply quiet_reading. Qed.

Lemma Printf_eq (s : string) (w : World) : Printf s w = Ret () (add_stdout s w).
Proof. reflexivity. Qed.

(** [ParseSkeleton] only reads. *)
Lemma quiet_ParseSkeleton (env : Env) (tdir : string) :
  preserves quiet (ParseSkeleton env tdir).
Proof.
  unfold ParseSkeleton.
  apply preserves_bind; [apply _|apply quiet_os_Open|]. intros [cfg|e];
    [|apply preserves_ret, _].
  apply preserves_bind; [apply _|apply quiet_ioutil_ReadAll|]. intros [confData|e];
    [|apply preserves_ret, _].
  apply preserves_bind; [apply _| |intros sk; apply preserves_ret, _].
  unfold NewSkeleton. apply preserves_bind; [apply _| |intros _; apply preserves_ret, _].
  apply preserves_modify. intros w. split; [done|]. exists []. by rewrite app_nil_r.
Qed.

(** On every run in which the input is no directory, [Unzip] has returned
    a directory and no error, and [ParseSkeleton] fails, [main] exits with
    status 1 straight after the message: [cleanup] is not called, and the
    files are those [Unzip] left. *)
Lemma main_exits_without_cleanup
    (env : Env) (fuel : nat) (w w1 w2 w3 w4 : World)
    (fileOrDir : OsFile) (stat : FileInfo) (tdir : string) (e : error) :
  flagIn env ≠ "" →
  os_Open env (flagIn env)
    (add_stdout ("Opening skeleton '" +:+ flagIn env +:+ "'" +:+ nl) w)
  = Ret (Ok fileOrDir) w1 →
  File_Stat env fileOrDir w1 = Ret (Ok stat) w2 →
  IsDir stat = false →
  Unzip env (flagIn env)
    (if flagDryRun env
     then add_stdout ("This run will not have any effect (dry-run)!" +:+ nl) w2
     else w2)
  = Ret (tdir, None) w3 →
  ParseSkeleton env tdir w3 = Ret (Err e) w4 →
  main env fuel w = Exit 1 (add_stderr ("Error opening skeleton: " +:+ e +:+ nl) w4)
  ∧ files w4 = files w3
  ∧ ∃ calls, trace w4 = trace w3 ++ calls ∧ Forall (λ c, mutates c = false) calls.
Proof.
  intros Hin Hopen Hstat Hdir Hunzip Hparse. split.
  - unfold main. destruct (decide (flagIn env = "")) as [|_]; [done|]. cbv iota.
    erewrite bind_Ret by apply Printf_eq.
    erewrite bind_Ret by exact Hopen. cbv beta iota.
    erewrite bind_Ret by exact Hstat. cbv beta iota.
    erewrite bind_Ret by apply when_Printf_eq.
    rewrite Hdir. cbn [negb]. cbv iota.
    erewrite bind_Ret.
    2:{ erewrite bind_Ret by exact Hunzip. reflexivity. }
    cbv beta iota.
    erewrite bind_Ret by exact Hparse.
    reflexivity.
  - pose proof (quiet_ParseSkeleton env tdir w3) as Hq.
    rewrite Hparse in Hq. exact Hq.
Qed.

(** C1 fails on the code: [bare.zip] is unpacked into [/tmp/skel123], no
    [config.xml] is found there, and the process exits with status 1 while
    the directory and the file unpacked into it are still there;
    [os.RemoveAll] has not been called. *)
Theorem main_leaves_scratch_directory :
  ∃ w', main (Sample.env "bare.zip" false false) 10 Sample.world = Exit 1 w'
    ∧ files Sample.world !! "/tmp/skel123" = None
    ∧ files w' !! "/tmp/skel123" = Some Dir
    ∧ files w' !! "/tmp/skel123/README.md" = Some (File "Hello")
    ∧ trace w' = [SysOpen "bare.zip"; SysStat "bare.zip"; SysReadFile "bare.zip";
                  SysTempDir "/tmp/skel123"; SysCreate "/tmp/skel123/README.md";
                  SysWriteFile "/tmp/skel123/README.md" "Hello";
                  SysOpen "/tmp/skel123/config.xml"].
Proof. eexists. vm_compute. repeat split. Qed.

(** On the path on which the walk is reached, the directory is removed. *)
Example main_removes_scratch_directory :
  ∃ w', main (Sample.env "skel.zip" false false) 10 Sample.world = Ret () w'
    ∧ files w' !! "/tmp/skel123" = None
    ∧ files w' !! "/tmp/skel123/config.xml" = None
    ∧ last (trace w') = Some (SysRemoveAll "/tmp/skel123")
    ∧ files w' !! "__out/demo-17/src/Acme.go" = Some (File "package Acme // ${owner}").
Proof. eexists. vm_compute. repeat split. Qed.

(** The same on the path on which [Unzip] itself fails after it has made
    the directory: it returns the directory with the error, and [main]
    exits without removing it. *)
Example main_leaves_scratch_directory_of_torn_archive :
  ∃ w', main (Sample.env "torn.zip" false false) 10 Sample.world = Exit 1 w'
    ∧ files w' !! "/tmp/skel123" = Some Dir
    ∧ files w' !! "/tmp/skel123/config.xml" = Some (File "<skeleton/>")
    ∧ stderr w' = ["ZIP does not seem to be OK: zip: checksum error" +:+ nl].
Proof. eexists. vm_compute. repeat split. Qed.

(** ** package path/filepath *)

Lemma split_go_spec (cur s : string) :
  Filepath.split_go cur s
  = match Filepath.split s with
    | h :: t => String.rev_app cur h :: t
    | [] => []
    end.
Proof.
  revert cur. induction s as [|c s IH]; intros cur; [done|].
  unfold Filepath.split. cbn [Filepath.split_go].
  destruct (decide (c = Filepath.Separator)); [done|].
  rewrite (IH (String c cur)), (IH (String c "")).
  by destruct (Filepath.split s).
Qed.

Lemma split_cons (c : ascii) (s : string) :
  Filepath.split (String c s)
  = if decide (c = Filepath.Separator) then "" :: Filepath.split s
    else match Filepath.split s with
         | h :: t => String c h :: t
         | [] => []
         end.
Proof.
  unfold Filepath.split at 1. cbn [Filepath.split_go].
  destruct (decide (c = Filepath.Separator)); [done|].
  by rewrite split_go_spec.
Qed.

Lemma split_nonempty (s : string) : Filepath.split s ≠ [].
Proof.
  induction s as [|c s IH]; [done|]. rewrite split_cons.
  case_decide; [done|]. by destruct (Filepath.split s).
Qed.

Lemma split_no_sep (e : string) :
  no_char Filepath.Separator e = true → Filepath.split e = [e].
Proof.
  induction e as [|c e IH]; [done|]. intros [Hc He]%no_char_cons.
  rewrite split_cons, decide_False by done. by rewrite IH.
Qed.

Lemma split_app_sep (s t : string) :
  Filepath.split (s +:+ "/" +:+ t) = Filepath.split s ++ Filepath.split t.
Proof.
  induction s as [|c s IH].
  - rewrite str_app_nil_l.
    change ("/" +:+ t) with (String Filepath.Separator t).
    by rewrite split_cons, decide_True.
  - rewrite str_app_cons, !split_cons. case_decide; [by rewrite IH|].
    rewrite IH. pose proof (split_nonempty s). by destruct (Filepath.split s).
Qed.

Lemma split_elems (s : string) :
  Forall (λ e, no_char Filepath.Separator e = true) (Filepath.split s).
Proof.
  induction s as [|c s IH]; [by repeat constructor|].
  rewrite split_cons. case_decide; [by constructor|].
  destruct (Filepath.split s) as [|h t]; [done|].
  apply Forall_cons in IH as [Hh Ht]. constructor; [|done].
  by apply no_char_cons.
Qed.

Lemma join_cons (e : string) (rest : list string) :
  rest ≠ [] → Filepath.join (e :: rest) = e +:+ "/" +:+ Filepath.join rest.
Proof. by destruct rest. Qed.

Lemma split_join (elems : list string) :
  elems ≠ [] → Forall (λ e, no_char Filepath.Separator e = true) elems →
  Filepath.split (Filepath.join elems) = elems.
Proof.
  induction elems as [|e elems IH]; [done|]. intros _ [He Hes]%Forall_cons.
  destruct elems as [|e' elems]; [by apply split_no_sep|].
  rewrite join_cons, split_app_sep, split_no_sep, IH by done. done.
Qed.

Lemma join_split (s : string) : Filepath.join (Filepath.split s) = s.
Proof.
  induction s as [|c s IH]; [done|]. rewrite split_cons.
  pose proof (split_nonempty s) as Hne. case_decide as Hc.
  - rewrite join_cons, IH by done. by subst c.
  - destruct (Filepath.split s) as [|h t]; [done|].
    destruct t as [|h' t]; simpl in *; by rewrite <-IH.
Qed.

Lemma join_snoc (elems : list string) (e : string) :
  elems ≠ [] → Filepath.join (elems ++ [e]) = Filepath.join elems +:+ "/" +:+ e.
Proof.
  induction elems as [|a elems IH]; [done|]. intros _.
  destruct elems as [|b elems]; [done|].
  change ((a :: b :: elems) ++ [e]) with (a :: ((b :: elems) ++ [e])).
  rewrite join_cons by (simpl; done). rewrite IH by done.
  rewrite (join_cons a (b :: elems)) by done. by rewrite !str_app_assoc.
Qed.

(** *** The stack of [Clean] *)

Lemma plain_elem_no_sep (e : string) : plain_elem e → no_char Filepath.Separator e = true.
Proof. by intros (_ & _ & _ & H). Qed.

Lemma stack_ok_nil (r : bool) : stack_ok r [].
Proof. exists 0, []. by repeat split. Qed.

Lemma clean_step_ok (r : bool) (stack : list string) (e : string) :
  no_char Filepath.Separator e = true →
  stack_ok r stack → stack_ok r (Filepath.clean_step r stack e).
Proof.
  intros He (k & names & -> & Hn & Hk). unfold Filepath.clean_step.
  repeat case_decide; [by exists k, names..| |].
  - subst e. destruct names as [|top names].
    + destruct k as [|k]; simpl.
      * destruct r; [apply stack_ok_nil|]. exists 1, []. by repeat split.
      * try rewrite decide_True by done. exists (S (S k)), []. repeat split; [done|].
        intros Hr. by specialize (Hk Hr).
    + apply Forall_cons in Hn as [Htop Hn]. simpl.
      rewrite decide_False by apply Htop. by exists k, names.
  - exists k, (e :: names). repeat split; [|done]. by constructor.
Qed.

Lemma foldl_clean_step_ok (r : bool) (stack : list string) (l : list string) :
  Forall (λ e, no_char Filepath.Separator e = true) l →
  stack_ok r stack → stack_ok r (foldl (Filepath.clean_step r) stack l).
Proof.
  intros Hl. revert stack. induction Hl as [|e l He _ IH]; intros stack Hs; [done|].
  simpl. by apply IH, clean_step_ok.
Qed.

Lemma foldl_clean_step_dots (r : bool) (j k : nat) :
  (r = true → k = 0) →
  foldl (Filepath.clean_step r) (replicate j "..") (replicate k "..")
  = replicate (k + j) "..".
Proof.
  intros Hr. revert j. induction k as [|k IH]; intros j; [done|].
  destruct r; [by specialize (Hr eq_refl)|].
  assert (Filepath.clean_step false (replicate j "..") ".." = replicate (S j) "..") as Hstep.
  { unfold Filepath.clean_step.
    rewrite decide_False, decide_False, decide_True by done.
    destruct j; [done|]. simpl. by try rewrite decide_True. }
  cbn [replicate foldl]. rewrite Hstep, IH by done.
  by replace (k + S j) with (S (k + j)) by lia.
Qed.

Lemma clean_step_plain (r : bool) (stack : list string) (e : string) :
  plain_elem e → Filepath.clean_step r stack e = e :: stack.
Proof.
  intros (H1 & H2 & H3 & _). unfold Filepath.clean_step.
  by rewrite !decide_False.
Qed.

Lemma clean_step_ok_plain (r : bool) (stack : list string) (e : string) :
  plain_elem e → stack_ok r stack → stack_ok r (e :: stack).
Proof.
  intros He Hok. rewrite <-(clean_step_plain r) by done.
  apply clean_step_ok; [by apply plain_elem_no_sep|done].
Qed.

Lemma foldl_clean_step_plain (r : bool) (stack names : list string) :
  Forall plain_elem names →
  foldl (Filepath.clean_step r) stack (rev names) = names ++ stack.
Proof.
  induction 1 as [|e names He _ IH]; [done|].
  simpl. rewrite foldl_app, IH. simpl. by apply clean_step_plain.
Qed.

(** Cleaning the elements of a stack again gives the stack. *)
Lemma foldl_clean_step_again (r : bool) (stack : list string) :
  stack_ok r stack → foldl (Filepath.clean_step r) [] (rev stack) = stack.
Proof.
  intros (k & names & -> & Hn & Hk).
  rewrite rev_app_distr, foldl_app.
  assert (rev (replicate k "..") = replicate k (".." : string)) as ->.
  { clear. induction k as [|k IH]; [done|]. simpl. rewrite IH.
    clear. induction k as [|k IH]; [done|]. simpl. by rewrite IH. }
  pose proof (foldl_clean_step_dots r 0 k Hk) as Hd.
  rewrite Nat.add_0_r in Hd. change (replicate 0 "..") with (@nil string) in Hd.
  rewrite Hd. by apply foldl_clean_step_plain.
Qed.

Lemma stack_ok_elems (r : bool) (stack : list string) :
  stack_ok r stack →
  Forall (λ e, e ≠ "" ∧ no_char Filepath.Separator e = true) stack.
Proof.
  intros (k & names & -> & Hn & _). apply Forall_app. split.
  - eapply Forall_impl; [exact Hn|]. by intros e (? & _ & _ & ?).
  - apply Forall_replicate. done.
Qed.

Lemma rooted_join (elems : list string) :
  Forall (λ e, e ≠ "" ∧ no_char Filepath.Separator e = true) elems →
  Filepath.rooted (Filepath.join elems) = false.
Proof.
  destruct 1 as [|e elems [He Hs] _]; [done|].
  destruct e as [|c e]; [done|]. apply no_char_cons in Hs as [Hc _].
  assert (Filepath.rooted (String c e +:+ "/" +:+ Filepath.join elems) = false) as H.
  { simpl. by rewrite bool_decide_eq_false_2. }
  destruct elems; [|exact H]. simpl. by rewrite bool_decide_eq_false_2.
Qed.

(** What [Clean] returns, by the stack it has built. *)
Lemma Clean_stack (path : string) :
  ∃ stack, stack_ok (Filepath.rooted path) stack
    ∧ Filepath.Clean path
      = (if decide ((if Filepath.rooted path then "/" else "") +:+ Filepath.join (rev stack) = "")
         then "."
         else (if Filepath.rooted path then "/" else "") +:+ Filepath.join (rev stack))
    ∧ stack = foldl (Filepath.clean_step (Filepath.rooted path)) [] (Filepath.split path).
Proof.
  eexists. split; [|split; [|reflexivity]].
  - apply foldl_clean_step_ok; [apply split_elems|apply stack_ok_nil].
  - reflexivity.
Qed.

(** A path built from a stack is clean. *)
Lemma Clean_of_stack (r : bool) (stack : list string) :
  stack_ok r stack → stack ≠ [] →
  Filepath.Clean ((if r then "/" else "") +:+ Filepath.join (rev stack))
  = (if r then "/" else "") +:+ Filepath.join (rev stack).
Proof.
  intros Hok Hne.
  assert (rev stack ≠ []) as Hrev.
  { intros H. apply Hne. by rewrite <-(rev_involutive stack), H. }
  assert (Forall (λ e, e ≠ "" ∧ no_char Filepath.Separator e = true) (rev stack)) as Hel.
  { apply List.Forall_rev. by eapply stack_ok_elems. }
  assert (Forall (λ e, no_char Filepath.Separator e = true) (rev stack)) as Hsep.
  { eapply Forall_impl; [exact Hel|]. by intros e [_ ?]. }
  assert (Filepath.rooted ((if r then "/" else "") +:+ Filepath.join (rev stack)) = r) as Hr.
  { destruct r; [done|]. rewrite str_app_nil_l. by apply rooted_join. }
  assert (foldl (Filepath.clean_step r) []
            (Filepath.split ((if r then "/" else "") +:+ Filepath.join (rev stack)))
          = stack) as Hfold.
  { destruct r.
    - change ("/" +:+ ?s) with (String Filepath.Separator s).
      rewrite split_cons, decide_True, split_join by done. simpl.
      by apply foldl_clean_step_again.
    - rewrite str_app_nil_l, split_join by done. by apply foldl_clean_step_again. }
  unfold Filepath.Clean. cbv zeta. rewrite Hr, Hfold.
  rewrite decide_False; [done|].
  destruct r; [done|]. rewrite str_app_nil_l.
  destruct Hel as [|e l [He _] _]; [done|].
  destruct e; [done|]. by destruct l.
Qed.

(** [filepath.Clean] is idempotent. *)
Lemma Clean_Clean (path : string) :
  Filepath.Clean (Filepath.Clean path) = Filepath.Clean path.
Proof.
  destruct (Clean_stack path) as (stack & Hok & -> & _).
  destruct stack as [|e stack].
  - simpl. by destruct (Filepath.rooted path).
  - rewrite decide_False.
    + by apply Clean_of_stack.
    + rewrite <-(Clean_of_stack _ _ Hok) by done. apply Clean_nonempty.
Qed.

(** [filepath.Join] gives a clean path. *)
Lemma Clean_Join (elems : list string) :
  Filepath.Join elems ≠ "" → Filepath.Clean (Filepath.Join elems) = Filepath.Join elems.
Proof.
  unfold Filepath.Join. destruct (filter _ elems); [done|]. intros _. apply Clean_Clean.
Qed.

Lemma rooted_app (s t : string) :
  s ≠ "" → Filepath.rooted (s +:+ t) = Filepath.rooted s.
Proof. by destruct s. Qed.

Lemma upto_last_sep_no_sep (name : string) :
  no_char Filepath.Separator name = true → Filepath.upto_last_sep name = "".
Proof.
  induction name as [|c name IH]; [done|]. intros [Hc Hn]%no_char_cons.
  simpl. by rewrite decide_False, IH.
Qed.

Lemma upto_last_sep_cons (c : ascii) (rest : string) :
  Filepath.upto_last_sep (String c rest)
  = if decide (c = Filepath.Separator) then String c (Filepath.upto_last_sep rest)
    else if decide (Filepath.upto_last_sep rest = "") then ""
         else String c (Filepath.upto_last_sep rest).
Proof. reflexivity. Qed.

Lemma upto_last_sep_app (s name : string) :
  no_char Filepath.Separator name = true →
  Filepath.upto_last_sep (s +:+ "/" +:+ name) = s +:+ "/".
Proof.
  intros Hn. induction s as [|c s IH].
  - rewrite str_app_nil_l. simpl. by rewrite upto_last_sep_no_sep.
  - rewrite (str_app_cons c s ("/" +:+ name)), (str_app_cons c s "/").
    rewrite upto_last_sep_cons, IH.
    case_decide; [done|]. rewrite decide_False; [done|]. by destruct s.
Qed.

(** A separator at the end of a path is dropped. *)
Lemma Clean_trailing_sep (s : string) :
  s ≠ "" → Filepath.Clean (s +:+ "/") = Filepath.Clean s.
Proof.
  intros Hs. unfold Filepath.Clean. cbv zeta.
  rewrite rooted_app by done.
  assert (Filepath.split (s +:+ "/") = Filepath.split s ++ [""]) as ->.
  { by rewrite <-(str_app_nil_r (s +:+ "/")), str_app_assoc, split_app_sep. }
  by rewrite foldl_app.
Qed.

Lemma Join_two (a b : string) :
  a ≠ "" → b ≠ "" → Filepath.Join [a; b] = Filepath.Clean (a +:+ "/" +:+ b).
Proof.
  intros Ha Hb. unfold Filepath.Join.
  rewrite filter_cons_True by done. by rewrite filter_cons_True by done.
Qed.

(** The directory of a file joined to [tdir] is [tdir], cleaned. *)
Lemma Dir_Join (tdir name : string) :
  tdir ≠ "" → plain_elem name →
  Filepath.Dir (Filepath.Join [tdir; name]) = Filepath.Clean tdir.
Proof.
  intros Ht Hname. pose proof Hname as (Hn1 & _ & _ & Hsep).
  rewrite Join_two by done.
  destruct (Clean_stack tdir) as (stack & Hok & Hclean & Hstack).
  assert (Filepath.Clean (tdir +:+ "/" +:+ name)
          = (if Filepath.rooted tdir then "/" else "")
            +:+ Filepath.join (rev (name :: stack))) as Hjoined.
  { unfold Filepath.Clean at 1. cbv zeta. rewrite rooted_app by done.
    rewrite split_app_sep, (split_no_sep name), foldl_app, <-Hstack by done.
    simpl foldl. rewrite clean_step_plain by done.
    rewrite decide_False; [done|].
    rewrite <-(Clean_of_stack (Filepath.rooted tdir) (name :: stack));
      [apply Clean_nonempty|by apply clean_step_ok_plain|done]. }
  unfold Filepath.Dir. rewrite Hjoined. simpl rev.
  destruct stack as [|e stack].
  - simpl. rewrite Hclean. simpl.
    destruct (Filepath.rooted tdir).
    + change ("/" +:+ name) with ("" +:+ "/" +:+ name).
      by rewrite upto_last_sep_app.
    + rewrite str_app_nil_l, upto_last_sep_no_sep by done. done.
  - assert (rev stack ++ [e] ≠ []) as Hne by by destruct (rev stack).
    rewrite join_snoc, <-str_app_assoc, upto_last_sep_app by done.
    pose proof (Clean_of_stack _ _ Hok ltac:(done)) as Hout.
    rewrite Clean_trailing_sep.
    + rewrite Hout. rewrite Hclean.
      rewrite decide_False; [done|]. rewrite <-Hout. apply Clean_nonempty.
    + rewrite <-Hout. apply Clean_nonempty.
Qed.

(** *** The directories [os.MkdirAll] goes through *)

Lemma prefixes_go_last (acc : string) (elems : list string) :
  elems ≠ [] →
  Forall (λ e, e ≠ "" ∧ no_char Filepath.Separator e = true) elems →
  last (prefixes_go acc elems)
  = Some (if decide (acc = "") then Filepath.join elems
          else if decide (acc = "/") then "/" +:+ Filepath.join elems
          else acc +:+ "/" +:+ Filepath.join elems).
Proof.
  intros Hne Hel. revert acc.
  induction Hel as [|e elems [He Hsep] Hel IH]; intros acc; [done|].
  destruct elems as [|e' elems].
  { simpl. by repeat case_decide. }
  cbn [prefixes_go]. cbv zeta.
  set (here := if decide (acc = "") then e
               else if decide (acc = "/") then "/" +:+ e
               else acc +:+ "/" +:+ e).
  assert (here ≠ "" ∧ here ≠ "/") as [Hh1 Hh2].
  { unfold here. repeat case_decide.
    - split; [done|]. intros ->. done.
    - split; [done|]. intros Heq. simpl in Heq. by injection Heq.
    - destruct acc as [|c acc]; [done|]. split; [done|].
      rewrite str_app_cons. intros [= _ Heq]. by destruct acc. }
  change (last (here :: prefixes_go here (e' :: elems))
          = Some (if decide (acc = "") then Filepath.join (e :: e' :: elems)
                  else if decide (acc = "/") then "/" +:+ Filepath.join (e :: e' :: elems)
                  else acc +:+ "/" +:+ Filepath.join (e :: e' :: elems))).
  rewrite last_cons, (IH ltac:(done) here).
  rewrite decide_False, decide_False by done.
  rewrite (join_cons e (e' :: elems)) by done.
  unfold here. repeat case_decide; by rewrite ?str_app_assoc.
Qed.

Lemma filter_nonempty (elems : list string) :
  Forall (λ e, e ≠ "" ∧ no_char Filepath.Separator e = true) elems →
  filter (λ e, e ≠ "") elems = elems.
Proof.
  induction 1 as [|e elems [He _] _ IH]; [done|].
  by rewrite filter_cons_True, IH.
Qed.

(** A clean path other than the root is the last of the directories
    [os.MkdirAll] goes through for it. *)
Lemma prefixes_Clean (path : string) :
  Filepath.Clean path = "/" ∨ Filepath.Clean path ∈ prefixes (Filepath.Clean path).
Proof.
  destruct (Clean_stack path) as (stack & Hok & -> & _).
  destruct stack as [|e stack].
  { simpl. destruct (Filepath.rooted path); [by left|right]. by compute_done. }
  right. set (r := Filepath.rooted path) in *.
  assert (rev (e :: stack) ≠ []) as Hrev by (simpl; by destruct (rev stack)).
  assert (Forall (λ e, e ≠ "" ∧ no_char Filepath.Separator e = true) (rev (e :: stack)))
    as Hel by (apply List.Forall_rev; by eapply stack_ok_elems).
  assert (Forall (λ e, no_char Filepath.Separator e = true) (rev (e :: stack))) as Hsep.
  { eapply Forall_impl; [exact Hel|]. by intros ? [_ ?]. }
  pose proof (Clean_of_stack r (e :: stack) Hok ltac:(done)) as Hout.
  rewrite decide_False by (rewrite <-Hout; apply Clean_nonempty).
  apply last_Some_elem_of. unfold prefixes.
  destruct r.
  - change (Filepath.rooted ("/" +:+ ?s)) with true. cbv iota.
    change ("/" +:+ ?s) with (String Filepath.Separator s) at 1.
    rewrite split_cons, decide_True, split_join by done.
    rewrite filter_cons_False by (intros H; by apply H).
    rewrite filter_nonempty by done.
    rewrite prefixes_go_last by done. done.
  - rewrite str_app_nil_l, rooted_join, split_join by done.
    rewrite prefixes_go_last by done. done.
Qed.

(** ** More on [findReplace] *)

Lemma HasPrefix_app_l (s p q : string) :
  Strings.HasPrefix s (p +:+ q) = true → Strings.HasPrefix s p = true.
Proof.
  intros [r ->]%HasPrefix_spec. rewrite str_app_assoc. apply HasPrefix_app.
Qed.

Lemma Contains_app_l (s p q : string) :
  Strings.Contains s p = false → Strings.Contains s (p +:+ q) = false.
Proof.
  induction s as [|c s IH].
  - change (Strings.Contains "" ?x) with (Strings.HasPrefix "" x || false).
    rewrite !orb_false_r. intros H.
    destruct (Strings.HasPrefix "" (p +:+ q)) eqn:E; [|done].
    by rewrite (HasPrefix_app_l _ _ _ E) in H.
  - rewrite !Contains_cons. intros [H1 H2]%orb_false_iff.
    apply orb_false_iff. split; [|by apply IH].
    destruct (Strings.HasPrefix (String c s) (p +:+ q)) eqn:E; [|done].
    by rewrite (HasPrefix_app_l _ _ _ E) in H1.
Qed.

Lemma Contains_middle (pre x post : string) :
  Strings.Contains (pre +:+ x +:+ post) x = true.
Proof.
  induction pre as [|c pre IH].
  - rewrite str_app_nil_l. destruct (x +:+ post) eqn:E.
    + destruct x; [done|discriminate E].
    + rewrite Contains_cons, <-E, HasPrefix_app. done.
  - rewrite str_app_cons, Contains_cons, IH. apply orb_true_r.
Qed.

(** X1: a text without [${] goes through [findReplace] as it is and nothing
    is recorded, whatever the mapping holds and in whatever order its
    entries come. *)
Theorem findReplace_without_placeholder
    (order : list (string * string)) (unsub : gset string) (src : string) :
  Strings.Contains src "${" = false →
  findReplace order unsub src = (src, unsub).
Proof.
  intros Hc.
  assert (findReplace_loop order src = src) as Hloop.
  { induction order as [|[k v] order IH] using rev_ind; [done|].
    unfold findReplace_loop in *. rewrite foldl_app. simpl. rewrite IH.
    unfold replace_pass. simpl. apply replace_absent.
    rewrite placeholder_unfold.
    change (String "$" (String "{" (k +:+ "}"))) with ("${" +:+ (k +:+ "}")).
    by apply Contains_app_l. }
  unfold findReplace. rewrite Hloop, (FindString_absent _ Hc).
  by rewrite decide_False by (intros H; by apply H).
Qed.

Lemma findReplace_without_placeholder_witness :
  findReplace Sample.entries ∅ "Hello $5, {proj}"
  = ("Hello $5, {proj}", ∅).
Proof.
  apply (findReplace_without_placeholder Sample.entries ∅ "Hello $5, {proj}").
  reflexivity.
Defined.

(** X2: on a text cut into plain text and placeholders, [findReplace] gives
    the text in which every placeholder that names a key stands replaced
    by the value of the key, and every other stretch is as it was. *)
Theorem findReplace_simultaneous
    (m : gmap string string) (order : list (string * string))
    (src : string) (ts : list tok) (unsub : gset string) :
  range_of m order → mapping_ok m →
  tokenise src = Some ts →
  (findReplace order unsub src).1 = render (subst_map m <$> ts).
Proof.
  intros Hr Hm Hts. destruct (tokenise_sound _ _ Hts) as [<- Hwf].
  unfold findReplace. simpl. by apply loop_tokenised.
Qed.

Lemma findReplace_simultaneous_witness :
  (findReplace Sample.entries ∅ Sample.source).1
  = render (subst_map Sample.mapping <$>
              [Text "Hello "; Var "proj"; Text ", $5 from "; Var "owner";
               Text " and "; Var "x"; Text ""]).
Proof.
  apply (findReplace_simultaneous Sample.mapping Sample.entries Sample.source _ ∅).
  - exact Sample_range.
  - exact Sample_mapping_ok.
  - reflexivity.
Defined.

Lemma render_elem (n : string) (ts : list tok) :
  Var n ∈ ts → ∃ pre post, render ts = pre +:+ Sprintf_placeholder n +:+ post.
Proof.
  induction ts as [|t ts IH]; intros Hin.
  { by apply elem_of_nil in Hin. }
  apply elem_of_cons in Hin as [<-|Hin].
  - by exists "", (render ts).
  - destruct (IH Hin) as (pre & post & Heq).
    exists (render_tok t +:+ pre), post. simpl. by rewrite Heq, str_app_assoc.
Qed.

(** X3: a placeholder that names no key of the mapping is still in the result,
    and the call adds an entry to [Unsubstituted]; the name is not empty
    and holds no newline, as the pattern wants one character or more, none
    of them a newline. *)
Theorem findReplace_missing_key_reported
    (m : gmap string string) (order : list (string * string))
    (src : string) (unsub : gset string) (n : string) :
  range_of m order → mapping_ok m →
  well_formed src = true →
  n ∈ placeholder_names src → m !! n = None →
  n ≠ "" → no_char Regexp.newline n = true →
  Strings.Contains (findReplace order unsub src).1 (Sprintf_placeholder n) = true
  ∧ ∃ found, found ≠ ""
      ∧ (findReplace order unsub src).2 = {[ found ]} ∪ unsub.
Proof.
  intros Hr Hm (ts & <- & Hts & Hnames)%well_formed_tokens Hn Hnone Hne Hnl.
  rewrite Hnames in Hn. apply elem_of_names in Hn.
  unfold findReplace. simpl. rewrite (loop_tokenised m order) by done.
  assert (Var n ∈ subst_map m <$> ts) as Hin.
  { apply list_elem_of_fmap. exists (Var n). split; [|done]. simpl. by rewrite Hnone. }
  destruct (render_elem _ _ Hin) as (pre & post & ->).
  split; [apply Contains_middle|].
  exists (Regexp.FindString regex (pre +:+ Sprintf_placeholder n +:+ post)).
  pose proof (FindString_complete pre n post Hne Hnl) as Hf.
  split; [done|]. by rewrite decide_True.
Qed.

Lemma findReplace_missing_key_reported_witness :
  Strings.Contains (findReplace Sample.entries ∅ Sample.source).1
    (Sprintf_placeholder "x") = true
  ∧ ∃ found, found ≠ ""
      ∧ (findReplace Sample.entries ∅ Sample.source).2 = {[ found ]} ∪ ∅.
Proof.
  apply (findReplace_missing_key_reported Sample.mapping Sample.entries
           Sample.source ∅ "x").
  - exact Sample_range.
  - exact Sample_mapping_ok.
  - reflexivity.
  - by compute_done.
  - reflexivity.
  - discriminate.
  - reflexivity.
Defined.

(** ** [ReadUserInput] *)

Lemma add_stdouts_nil (w : World) : add_stdouts [] w = w.
Proof. destruct w. unfold add_stdouts. simpl. by rewrite app_nil_r. Qed.

Lemma add_stdouts_cons (lines : list string) (s : string) (w : World) :
  add_stdouts lines (add_stdout s w) = add_stdouts (s :: lines) w.
Proof. unfold add_stdout, add_stdouts. simpl. by rewrite <-(assoc_L (++)). Qed.

Lemma print_each_eq {A} (line : A → string) (l : list A) (w : World) :
  print_each line l w = Ret () (add_stdouts (line <$> l) w).
Proof.
  revert w. induction l as [|a l IH]; intros w.
  - simpl. by rewrite add_stdouts_nil.
  - simpl. erewrite bind_Ret by apply Printf_eq. by rewrite IH, add_stdouts_cons.
Qed.

Lemma ReadLine_eq (w : World) :
  ReadLine w = Ret (default "" (stdin w !! 0)) (set_stdin (drop 1 (stdin w)) w).
Proof. destruct w as [fs [|line rest] out err tr un rg]; reflexivity. Qed.

Lemma read_params_spec (params : list SkeletonParams) (acc : gmap string string)
    (w : World) :
  ∃ m,
    read_params params acc w
    = Ret m (set_stdin (drop (length params) (stdin w))
               (add_stdouts (prompt <$> params) w))
    ∧ dom m =@{gset string} list_to_set (param_Name <$> params) ∪ dom acc
    ∧ (∀ k, k ∉ param_Name <$> params → m !! k = acc !! k)
    ∧ (∀ i p, params !! i = Some p →
         (∀ j q, i < j → params !! j = Some q → param_Name q ≠ param_Name p) →
         m !! param_Name p = Some (default "" (stdin w !! i))).
Proof.
  revert acc w. induction params as [|p params IH]; intros acc w.
  { exists acc. split_and!.
    - simpl. rewrite add_stdouts_nil. by destruct w.
    - simpl. by rewrite (left_id_L ∅ (∪)).
    - done.
    - intros i p Hp. by rewrite lookup_nil in Hp. }
  cbn [read_params].
  erewrite bind_Ret by apply Printf_eq.
  erewrite bind_Ret by apply ReadLine_eq.
  destruct (IH (<[param_Name p := default "" (stdin w !! 0)]> acc)
              (set_stdin (drop 1 (stdin w))
                 (add_stdout (param_Description p +:+ ": " +:+ nl +:+ "> ") w)))
    as (m & Hrun & Hdom & Hother & Hvalue).
  exists m. split_and!.
  - cbv beta. change (stdin (add_stdout ?s w)) with (stdin w).
    rewrite Hrun. f_equal. unfold set_stdin, add_stdouts, add_stdout. simpl.
    by rewrite drop_drop, <-(assoc_L (++)).
  - rewrite Hdom, dom_insert_L, fmap_cons. cbn [list_to_set].
    by rewrite (assoc_L (∪)), (comm_L (∪) (list_to_set _) {[ _ ]}).
  - intros k Hk. rewrite fmap_cons in Hk. apply not_elem_of_cons in Hk as [Hne Hk].
    rewrite (Hother k Hk). by rewrite lookup_insert_ne.
  - intros [|i] q Hq Hlast.
    + injection Hq as <-. rewrite Hother.
      * by rewrite lookup_insert_eq.
      * intros (q & Hname & Hin)%list_elem_of_fmap.
        apply list_elem_of_lookup in Hin as [j Hj].
        apply (Hlast (S j) q); [lia|done|done].
    + simpl in Hq. rewrite (Hvalue i q Hq).
      * simpl. by rewrite lookup_drop.
      * intros j q' Hij Hq'. apply (Hlast (S j) q'); [lia|done].
Qed.

(** X4: [ReadUserInput] always returns.  The map it returns has the names of
    the parameters as its keys; the value of a parameter that no later
    parameter shares its name with is the line read for it, the [i]-th of
    the standard input for the [i]-th parameter, and the empty string once
    the input has ended.  (The lines of [stdin] are what the calls of
    [ReadLine] give one after the other: a line longer than the buffer of
    the reader counts as the pieces it comes in.) *)
Theorem ReadUserInput_values (env : Env) (t : Skeleton) (w : World) :
  ∃ paramvals w',
    ReadUserInput env t w = Ret paramvals w'
    ∧ dom paramvals =@{gset string} list_to_set (param_Name <$> Parameters (Config t))
    ∧ ∀ i p, Parameters (Config t) !! i = Some p →
        (∀ j q, i < j → Parameters (Config t) !! j = Some q →
                param_Name q ≠ param_Name p) →
        paramvals !! param_Name p = Some (default "" (stdin w !! i)).
Proof.
  destruct (read_params_spec (Parameters (Config t)) ∅ (add_stdout nl w))
    as (m & Hrun & Hdom & _ & Hvalue).
  exists m. eexists. split_and!.
  - unfold ReadUserInput.
    erewrite bind_Ret by apply Printf_eq.
    erewrite bind_Ret by exact Hrun.
    erewrite bind_Ret by apply Printf_eq.
    unfold get, modify, bind. rewrite print_each_eq. reflexivity.
  - by rewrite Hdom, dom_empty_L, (right_id_L ∅ (∪)).
  - exact Hvalue.
Qed.

(** X5: [ReadUserInput] takes one line of the standard input per parameter, as
    far as there are lines.  It prints an empty line, a prompt per
    parameter, a heading, every entry of the map it returns, in the order
    of its [range] loop, and an empty line.  It makes no system call and
    leaves the files, the standard error and [Unsubstituted] alone. *)
Theorem ReadUserInput_effects (env : Env) (t : Skeleton) (w : World) :
  ∃ paramvals w',
    ReadUserInput env t w = Ret paramvals w'
    ∧ stdin w' = drop (length (Parameters (Config t))) (stdin w)
    ∧ stdout w'
      = stdout w ++ [nl] ++ (prompt <$> Parameters (Config t))
        ++ [nl +:+ "The following parameters are specified:" +:+ nl +:+ nl]
        ++ (shown_entry <$> range_order env (ranges w) paramvals) ++ [nl]
    ∧ files w' = files w ∧ trace w' = trace w ∧ stderr w' = stderr w
    ∧ Unsubstituted w' = Unsubstituted w ∧ ranges w' = S (ranges w).
Proof.
  destruct (read_params_spec (Parameters (Config t)) ∅ (add_stdout nl w))
    as (m & Hrun & _).
  exists m. eexists. split.
  - unfold ReadUserInput.
    erewrite bind_Ret by apply Printf_eq.
    erewrite bind_Ret by exact Hrun.
    erewrite bind_Ret by apply Printf_eq.
    unfold get, modify, bind. rewrite print_each_eq. reflexivity.
  - simpl. split_and!; try done.
    rewrite <-!(assoc_L (++)). done.
Qed.

(** ** [ParseSkeleton] *)

Lemma sys_reading_eq {A} (env : Env) (c : syscall) (f : gmap string node → result A)
    (w : World) :
  sys env c (reading f) w
  = Ret (match fault env c with Some e => Err e | None => f (files w) end)
        (add_trace c w).
Proof. unfold sys, sys_outcome, reading. destruct (fault env c); by destruct w. Qed.

Lemma os_Open_eq (env : Env) (path : string) (w : World) :
  os_Open env path w
  = Ret (open_outcome env path (files w)) (add_trace (SysOpen path) w).
Proof.
  unfold os_Open, open_outcome. rewrite sys_reading_eq.
  by destruct (fault env _).
Qed.

Lemma ioutil_ReadAll_eq (env : Env) (f : OsFile) (w : World) :
  ioutil_ReadAll env f w
  = Ret (match fault env (SysReadFile (Name f)) with
         | Some e => Err e
         | None =>
             match opened f with
             | File c => Ok c
             | Dir => Err ("read " +:+ Name f +:+ ": is a directory")
             end
         end)
        (add_trace (SysReadFile (Name f)) w).
Proof. unfold ioutil_ReadAll. by rewrite sys_reading_eq. Qed.

Lemma Join_nonempty (a b : string) : b ≠ "" → Filepath.Join [a; b] ≠ "".
Proof.
  intros Hb. unfold Filepath.Join.
  destruct (decide (a = "")) as [->|Ha].
  - rewrite filter_cons_False by (intros H; by apply H).
    rewrite filter_cons_True by done. apply Clean_nonempty.
  - rewrite filter_cons_True by done. rewrite filter_cons_True by done.
    apply Clean_nonempty.
Qed.

Lemma Dir_config (tdir : string) :
  Filepath.Dir (Filepath.Join [tdir; "config.xml"]) = Filepath.Clean tdir.
Proof.
  destruct (decide (tdir = "")) as [->|Ht]; [reflexivity|].
  apply Dir_Join; [done|]. by repeat split.
Qed.

(** X6: [ParseSkeleton] always returns, and changes no file.  It returns a
    skeleton exactly when [config.xml] in [tdir] can be opened and read
    and is no directory; what the file holds plays no part. *)
Theorem ParseSkeleton_succeeds_iff (env : Env) (tdir : string) (w : World) :
  let config := Filepath.Join [tdir; "config.xml"] in
  ∃ r w',
    ParseSkeleton env tdir w = Ret r w'
    ∧ files w' = files w
    ∧ ((∃ t, r = Ok t)
       ↔ fault env (SysOpen config) = None
         ∧ fault env (SysReadFile config) = None
         ∧ ∃ content, node_at (files w) config = Some (File content)).
Proof.
  intros config.
  assert (Filepath.Clean config = config) as Hclean
    by by apply Clean_Join, Join_nonempty.
  unfold ParseSkeleton. cbv zeta. fold config.
  erewrite bind_Ret by apply os_Open_eq. unfold open_outcome.
  rewrite Hclean. destruct (fault env (SysOpen config)) as [e|].
  { eexists _, _. split; [reflexivity|]. split; [done|].
    split; [by intros [t Ht]|by intros [H _]]. }
  change (files (add_trace ?c w)) with (files w).
  destruct (node_at (files w) config) as [n|] eqn:Hnode; cbv iota.
  2:{ eexists _, _. split; [reflexivity|]. split; [done|].
      split; [by intros [t Ht]|by intros (_ & _ & content & H)]. }
  erewrite bind_Ret by apply ioutil_ReadAll_eq. cbn [Name opened].
  destruct (fault env (SysReadFile config)) as [e|].
  { eexists _, _. split; [reflexivity|]. split; [done|].
    split; [by intros [t Ht]|by intros (_ & H & _)]. }
  destruct n as [|content].
  { eexists _, _. split; [reflexivity|]. split; [done|].
    split; [by intros [t Ht]|by intros (_ & _ & content & H)]. }
  eexists _, _. split; [reflexivity|]. split; [done|].
  split; [intros _; by eauto|by eauto].
Qed.

(** X7: when [config.xml] in [tdir] is a file that can be opened and read,
    [ParseSkeleton] returns a skeleton whatever the file holds: the
    configuration is what [xml.Unmarshal] made of the bytes, the location
    is [tdir], cleaned, and [Unsubstituted] is a new, empty map.  The two
    system calls made are the opening and the reading of the file. *)
Theorem ParseSkeleton_reads_any_config
    (env : Env) (tdir : string) (w : World) (content : string) :
  let config := Filepath.Join [tdir; "config.xml"] in
  fault env (SysOpen config) = None →
  fault env (SysReadFile config) = None →
  node_at (files w) config = Some (File content) →
  ParseSkeleton env tdir w
  = Ret (Ok {| Location := Filepath.Clean tdir;
               Config := xml_Unmarshal env content;
               Outdir := "";
               Dryrun := false;
               KeyValues := ∅;
               outDirBase := config_Name (xml_Unmarshal env content)
                             +:+ "-" +:+ pretty (UnixNano env) |})
        (set_Unsubstituted ∅
           (add_trace (SysReadFile config) (add_trace (SysOpen config) w))).
Proof.
  intros config Hopen Hread Hnode.
  assert (Filepath.Clean config = config) as Hclean
    by by apply Clean_Join, Join_nonempty.
  unfold ParseSkeleton. cbv zeta. fold config.
  erewrite bind_Ret by apply os_Open_eq. unfold open_outcome.
  rewrite Hclean, Hopen. change (files (add_trace ?c w)) with (files w).
  rewrite Hnode.
  erewrite bind_Ret by apply ioutil_ReadAll_eq. cbn [Name opened].
  rewrite Hread. unfold config. rewrite Dir_config. reflexivity.
Qed.

Lemma ParseSkeleton_reads_any_config_witness :
  ParseSkeleton (Sample.env "skel" false false) "skel" Sample.world
  = Ret (Ok {| Location := "skel";
               Config := Sample.config;
               Outdir := "";
               Dryrun := false;
               KeyValues := ∅;
               outDirBase := "demo-17" |})
        (set_Unsubstituted ∅
           (add_trace (SysReadFile "skel/config.xml")
              (add_trace (SysOpen "skel/config.xml") Sample.world))).
Proof.
  apply (ParseSkeleton_reads_any_config (Sample.env "skel" false false) "skel"
           Sample.world "<skeleton/>"); reflexivity.
Defined.

(** ** Calls that only add *)

Global Instance fs_grows_preorder : PreOrder fs_grows.
Proof.
  split.
  - by intros fs.
  - intros fs1 fs2 fs3 [H1 H1'] [H2 H2']. split; intros p Hp; eauto.
Qed.

Global Instance grows_preorder : PreOrder grows.
Proof.
  split.
  - intros w. split; [reflexivity|]. exists []. by rewrite app_nil_r.
  - intros w1 w2 w3 [Hf1 (c1 & Ht1 & Hc1)] [Hf2 (c2 & Ht2 & Hc2)].
    split; [by etrans|]. exists (c1 ++ c2).
    rewrite Ht2, Ht1, <-(assoc_L (++)). split; [done|]. by apply Forall_app.
Qed.

Lemma quiet_grows (w w' : World) : quiet w w' → grows w w'.
Proof.
  intros [Hf (calls & Ht & Hc)]. split; [by rewrite Hf|].
  exists calls. split; [done|].
  eapply Forall_impl; [exact Hc|]. by intros [].
Qed.

Lemma preserves_quiet_grows {A} (c : M A) : preserves quiet c → preserves grows c.
Proof. intros H w. apply quiet_grows, H. Qed.

Lemma node_at_None (fs : gmap string node) (p : string) :
  node_at fs p = None → fs !! p = None.
Proof. unfold node_at. by case_decide. Qed.

Lemma node_at_lookup (fs : gmap string node) (p : string) :
  fs !! p = Some Dir → node_at fs p = Some Dir.
Proof. unfold node_at. by case_decide. Qed.

Lemma fs_grows_insert (fs : gmap string node) (p : string) (n : node) :
  fs !! p ≠ Some Dir → fs_grows fs (<[p := n]> fs).
Proof.
  intros Hp. split; intros q Hq.
  - destruct (decide (q = p)) as [->|Hne].
    + by rewrite lookup_insert_eq.
    + by rewrite lookup_insert_ne.
  - destruct (decide (q = p)) as [->|Hne]; [done|]. by rewrite lookup_insert_ne.
Qed.

Lemma mkdir_step_grows (acc : gmap string node * result unit) (p : string) :
  fs_grows acc.1 (mkdir_step acc p).1.
Proof.
  destruct acc as [fs [[]|e]]; simpl; [|done].
  destruct (node_at fs p) as [[|c]|] eqn:Hn; simpl; [done..|].
  apply fs_grows_insert. by rewrite (node_at_None _ _ Hn).
Qed.

Lemma foldl_mkdir_step_grows (l : list string) (acc : gmap string node * result unit) :
  fs_grows acc.1 (foldl mkdir_step acc l).1.
Proof.
  revert acc. induction l as [|p l IH]; intros acc; [done|].
  simpl. etrans; [apply mkdir_step_grows|apply IH].
Qed.

Lemma can_put_not_Dir (fs : gmap string node) (path : string) :
  can_put fs path = true → fs !! Filepath.Clean path ≠ Some Dir.
Proof.
  unfold can_put. cbv zeta. intros H Hd.
  rewrite (node_at_lookup _ _ Hd) in H. done.
Qed.

Lemma put_file_grows (op path data : string) (fs : gmap string node) :
  fs_grows fs (put_file op path data fs).1.
Proof.
  unfold put_file. cbv zeta. destruct (can_put fs path) eqn:Hc.
  - simpl. by apply fs_grows_insert, can_put_not_Dir.
  - by destruct (node_at fs (Filepath.Clean path)) as [[]|].
Qed.

Lemma grows_sys {A} (env : Env) (c : syscall)
    (body : gmap string node → gmap string node * result A) :
  removes c = false → (∀ fs, fs_grows fs (body fs).1) →
  preserves grows (sys env c body).
Proof.
  intros Hc Hbody w. unfold sys, sys_outcome. simpl. split.
  - destruct (fault env c); [done|apply Hbody].
  - exists [c]. split; [done|]. by constructor.
Qed.

Lemma grows_os_MkdirAll (env : Env) (path : string) :
  preserves grows (os_MkdirAll env path).
Proof. apply grows_sys; [done|]. intros fs. apply (foldl_mkdir_step_grows _ (fs, Ok ())). Qed.

Lemma grows_os_Create (env : Env) (path : string) : preserves grows (os_Create env path).
Proof. apply grows_sys; [done|]. intros fs. apply put_file_grows. Qed.

Lemma grows_ioutil_WriteFile (env : Env) (path data : string) :
  preserves grows (ioutil_WriteFile env path data).
Proof. apply grows_sys; [done|]. intros fs. apply put_file_grows. Qed.

Lemma grows_io_Copy (env : Env) (path data : string) :
  preserves grows (io_Copy env path data).
Proof. apply grows_sys; [done|]. intros fs. apply put_file_grows. Qed.

Lemma grows_ioutil_TempDir (env : Env) : preserves grows (ioutil_TempDir env).
Proof.
  apply grows_sys; [done|]. intros fs.
  destruct (node_at fs "/tmp") as [[|c]|]; [|done..].
  destruct (node_at fs _) as [n|] eqn:Hn; [done|].
  simpl. apply fs_grows_insert. by rewrite (node_at_None _ _ Hn).
Qed.

Lemma grows_Printf (s : string) : preserves grows (Printf s).
Proof. apply preserves_quiet_grows, quiet_Printf. Qed.

Lemma grows_zip_OpenReader (env : Env) (zipfile : string) :
  preserves grows (zip_OpenReader env zipfile).
Proof.
  unfold zip_OpenReader. apply preserves_bind; [apply _| |].
  - apply preserves_quiet_grows, quiet_ioutil_ReadFile.
  - intros [bytes|e]; [|apply preserves_ret, _].
    destruct (zip_decode env bytes); apply preserves_ret, _.
Qed.

(** ** [Unzip] *)

Lemma grows_Unzip_entries (env : Env) (d : string) (entries : list zipFile) :
  preserves grows (Unzip_entries env d entries).
Proof.
  induction entries as [|f entries IH]; [apply preserves_ret, _|].
  cbn [Unzip_entries]. destruct (zip_Open f) as [rc|e]; [|apply preserves_ret, _].
  cbv zeta. destruct (zip_IsDir f).
  - apply preserves_bind; [apply _| |].
    { apply preserves_when; [apply _|apply grows_Printf]. }
    intros _. apply preserves_bind; [apply _|apply grows_os_MkdirAll|].
    intros [[]|e]; [exact IH|apply preserves_ret, _].
  - apply preserves_bind; [apply _|apply grows_os_Create|].
    intros [[]|e]; [|apply preserves_ret, _].
    apply preserves_bind; [apply _| |].
    { apply preserves_when; [apply _|apply grows_Printf]. }
    intros _. apply preserves_bind; [apply _|apply grows_io_Copy|].
    intros [[]|e]; [exact IH|apply preserves_ret, _].
Qed.

Lemma grows_Unzip (env : Env) (zipfile : string) : preserves grows (Unzip env zipfile).
Proof.
  unfold Unzip. apply preserves_bind; [apply _|apply grows_zip_OpenReader|].
  intros [entries|e]; [|apply preserves_ret, _].
  apply preserves_bind; [apply _|apply grows_ioutil_TempDir|].
  intros [targetDir|e]; [|apply preserves_ret, _].
  apply preserves_bind; [apply _| |intros _; apply grows_Unzip_entries].
  apply preserves_when; [apply _|apply grows_Printf].
Qed.

(** The loop of [Unzip] always returns, with the directory it was given. *)
Lemma Unzip_entries_returns (env : Env) (d : string) (entries : list zipFile) (w : World) :
  ∃ err w', Unzip_entries env d entries w = Ret (d, err) w'.
Proof.
  revert w. induction entries as [|f entries IH]; intros w; [by eexists _, _|].
  cbn [Unzip_entries]. destruct (zip_Open f) as [rc|e]; [|by eexists _, _].
  cbv zeta. destruct (zip_IsDir f).
  - erewrite bind_Ret by apply when_Printf_eq.
    unfold os_MkdirAll, sys at 1, bind at 1.
    destruct (sys_outcome _ _ _ _).2 as [[]|e]; [apply IH|by eexists _, _].
  - unfold os_Create, sys at 1, bind at 1.
    destruct (sys_outcome _ _ _ _).2 as [[]|e]; [|by eexists _, _].
    erewrite bind_Ret by apply when_Printf_eq.
    unfold io_Copy, sys at 1, bind at 1.
    destruct (sys_outcome _ _ _ _).2 as [[]|e]; [apply IH|by eexists _, _].
Qed.

Lemma zip_OpenReader_eq (env : Env) (zipfile : string) (w : World) :
  zip_OpenReader env zipfile w
  = Ret (match read_outcome env zipfile (files w) with
         | Ok bytes =>
             match zip_decode env bytes with
             | Some entries => Ok entries
             | None => Err "zip: not a valid zip file"
             end
         | Err e => Err e
         end)
        (add_trace (SysReadFile zipfile) w).
Proof.
  unfold zip_OpenReader. erewrite bind_Ret by apply ioutil_ReadFile_eq.
  destruct (read_outcome env zipfile (files w)) as [bytes|e]; [|done].
  by destruct (zip_decode env bytes).
Qed.

Lemma ioutil_TempDir_spec (env : Env) (w : World) :
  ∃ r w', ioutil_TempDir env w = Ret r w'
    ∧ ((∃ e, r = Err e ∧ files w' = files w)
       ∨ (r = Ok (scratch env) ∧ node_at (files w) (scratch env) = None
          ∧ files w' !! scratch env = Some Dir)).
Proof.
  unfold ioutil_TempDir. cbv zeta. fold (scratch env). unfold sys, sys_outcome.
  eexists _, _. split; [reflexivity|].
  destruct (fault env (SysTempDir (scratch env))) as [e|]; [left; by eauto|].
  destruct (node_at (files w) "/tmp") as [[|c]|]; [|left; by eauto..].
  destruct (node_at (files w) (scratch env)) as [n|] eqn:Hnode; [left; by eauto|].
  right. split; [done|]. split; [done|]. apply lookup_insert_eq.
Qed.

(** X8: an archive that cannot be read, or that is no archive, is rejected
    before anything is made: [Unzip] returns no directory and an error,
    and the only system call is the reading of the file. *)
Theorem Unzip_rejects_bad_archive (env : Env) (zipfile : string) (w : World) :
  (∀ bytes, read_outcome env zipfile (files w) = Ok bytes →
            zip_decode env bytes = None) →
  ∃ e, Unzip env zipfile w = Ret ("", Some e) (add_trace (SysReadFile zipfile) w).
Proof.
  intros Hbad. unfold Unzip.
  erewrite bind_Ret by apply zip_OpenReader_eq.
  destruct (read_outcome env zipfile (files w)) as [bytes|e] eqn:Hr.
  - rewrite (Hbad bytes eq_refl). by eexists.
  - by eexists.
Qed.

Lemma Unzip_rejects_bad_archive_witness :
  ∃ e, Unzip (Sample.env "skel/README.md" false false) "skel/README.md" Sample.world
       = Ret ("", Some e) (add_trace (SysReadFile "skel/README.md") Sample.world).
Proof.
  apply (Unzip_rejects_bad_archive (Sample.env "skel/README.md" false false)
           "skel/README.md" Sample.world).
  intros bytes Hbytes. vm_compute in Hbytes. injection Hbytes as <-. reflexivity.
Defined.

Lemma Unzip_run (env : Env) (zipfile : string) (w : World) :
  ∃ d err w',
    Unzip env zipfile w = Ret (d, err) w'
    ∧ ((d = "" ∧ is_Some err ∧ files w' = files w)
       ∨ (d = scratch env ∧ node_at (files w) d = None
          ∧ files w' !! d = Some Dir)).
Proof.
  unfold Unzip. erewrite bind_Ret by apply zip_OpenReader_eq.
  destruct (read_outcome env zipfile (files w)) as [bytes|e].
  2:{ eexists _, _, _. split; [reflexivity|]. left. by eauto. }
  destruct (zip_decode env bytes) as [entries|].
  2:{ eexists _, _, _. split; [reflexivity|]. left. by eauto. }
  cbv beta iota.
  destruct (ioutil_TempDir_spec env (add_trace (SysReadFile zipfile) w))
    as (r & w2 & Htmp & [(e & -> & Hfiles)|(-> & Hnone & Hdir)]);
    erewrite bind_Ret by exact Htmp.
  { eexists _, _, _. split; [reflexivity|]. left. by eauto. }
  cbv beta iota. erewrite bind_Ret by apply when_Printf_eq.
  match goal with
  | |- context [Unzip_entries _ _ _ ?w0] => set (w3 := w0)
  end.
  assert (files w3 = files w2) as Hw3 by (unfold w3; by destruct (flagVerbose env)).
  destruct (Unzip_entries_returns env (scratch env) entries w3) as (err & w' & Hrun).
  pose proof (grows_Unzip_entries env (scratch env) entries w3) as Hg.
  rewrite Hrun in Hg |- *.
  eexists _, _, _. split; [reflexivity|]. right.
  split; [done|]. split; [done|].
  destruct Hg as [[_ Hkeep] _]. apply Hkeep. by rewrite Hw3.
Qed.

(** X9: [Unzip] always returns, and removes nothing.  Either it returns no
    directory, with an error, and the files are as they were; or it
    returns the directory [ioutil.TempDir] has made, which was not there
    before and is there after, whether the entries could all be unpacked
    or not: on an error [Unzip] does not take the directory away. *)
Theorem Unzip_directory (env : Env) (zipfile : string) (w : World) :
  ∃ d err w',
    Unzip env zipfile w = Ret (d, err) w'
    ∧ grows w w'
    ∧ ((d = "" ∧ is_Some err ∧ files w' = files w)
       ∨ (d = scratch env ∧ node_at (files w) d = None
          ∧ files w' !! d = Some Dir)).
Proof.
  destruct (Unzip_run env zipfile w) as (d & err & w' & Hrun & Hcases).
  exists d, err, w'. split; [done|]. split; [|done].
  pose proof (grows_Unzip env zipfile w) as Hg. by rewrite Hrun in Hg.
Qed.

(** *** What [os.MkdirAll] and the writing of a file leave *)

Lemma node_at_grows (fs fs' : gmap string node) (p : string) :
  fs_grows fs fs' → node_at fs p = Some Dir → node_at fs' p = Some Dir.
Proof.
  intros [_ Hkeep]. unfold node_at. case_decide; [done|]. apply Hkeep.
Qed.

Lemma node_at_insert_Dir (fs : gmap string node) (p : string) :
  node_at (<[p := Dir]> fs) p = Some Dir.
Proof. unfold node_at. case_decide; [done|]. apply lookup_insert_eq. Qed.

Lemma foldl_mkdir_step_Err (l : list string) (fs : gmap string node) (e : error) :
  foldl mkdir_step (fs, Err e) l = (fs, Err e).
Proof. induction l as [|p l IH]; [done|]. exact IH. Qed.

Lemma foldl_mkdir_step_Ok (l : list string) (fs fs' : gmap string node) :
  foldl mkdir_step (fs, Ok ()) l = (fs', Ok ()) →
  Forall (λ q, node_at fs' q = Some Dir) l.
Proof.
  revert fs. induction l as [|q l IH]; intros fs Hrun; [done|].
  cbn [foldl] in Hrun.
  pose proof (foldl_mkdir_step_grows l (mkdir_step (fs, Ok ()) q)) as Hg.
  rewrite Hrun in Hg. cbn [fst] in Hg.
  unfold mkdir_step in Hrun, Hg.
  destruct (node_at fs q) as [[|c]|] eqn:Hq.
  - constructor; [|by eapply IH]. by eapply node_at_grows.
  - by rewrite foldl_mkdir_step_Err in Hrun.
  - constructor; [|by eapply IH].
    eapply node_at_grows; [exact Hg|]. apply node_at_insert_Dir.
Qed.

(** Whatever [os.MkdirAll] found, a path for which it returns no error is
    a directory afterwards. *)
Lemma os_MkdirAll_Ok (env : Env) (path : string) (w w' : World) :
  os_MkdirAll env path w = Ret (Ok ()) w' →
  node_at (files w') (Filepath.Clean path) = Some Dir.
Proof.
  unfold os_MkdirAll, sys, sys_outcome.
  destruct (fault env _); [done|].
  destruct (foldl mkdir_step _ _) as [fs' r] eqn:Hrun.
  intros [= -> <-]. cbn [files set_files fst].
  destruct (prefixes_Clean path) as [->|Hin]; [done|].
  apply foldl_mkdir_step_Ok in Hrun.
  by apply (proj1 (Forall_forall _ _) Hrun).
Qed.

Lemma foldl_mkdir_step_keeps_file (l : list string)
    (acc : gmap string node * result unit) (k data : string) :
  acc.1 !! k = Some (File data) →
  (foldl mkdir_step acc l).1 !! k = Some (File data).
Proof.
  revert acc. induction l as [|q l IH]; intros acc Hk; [done|].
  cbn [foldl]. apply IH. destruct acc as [fs [[]|e]]; [|done]. simpl in *.
  destruct (node_at fs q) as [[|c]|] eqn:Hq; [done..|].
  simpl. rewrite lookup_insert_ne; [done|].
  intros <-. apply node_at_None in Hq. congruence.
Qed.

Lemma os_MkdirAll_keeps_file (env : Env) (path k data : string) (w w' : World) (r : result unit) :
  os_MkdirAll env path w = Ret r w' →
  files w !! k = Some (File data) → files w' !! k = Some (File data).
Proof.
  unfold os_MkdirAll, sys, sys_outcome.
  destruct (fault env _); [by intros [= _ <-]|].
  intros [= _ <-] Hk. cbn [files set_files].
  by apply foldl_mkdir_step_keeps_file.
Qed.

Lemma put_file_Ok (op path data : string) (fs fs' : gmap string node) :
  put_file op path data fs = (fs', Ok ()) →
  fs' = <[Filepath.Clean path := File data]> fs.
Proof.
  unfold put_file. cbv zeta. destruct (can_put fs path).
  - by intros [= <-].
  - by destruct (node_at fs (Filepath.Clean path)) as [[|c]|].
Qed.

(** What a call that writes the whole of a file leaves. *)
Lemma sys_put_file (env : Env) (c : syscall) (op path data : string)
    (w w' : World) (r : result unit) :
  sys env c (put_file op path data) w = Ret r w' →
  (r = Ok () ∧ files w' = <[Filepath.Clean path := File data]> (files w))
  ∨ ((∃ e, r = Err e) ∧ files w' = files w).
Proof.
  unfold sys, sys_outcome. destruct (fault env c) as [e|].
  { intros [= <- <-]. right. by eauto. }
  destruct (put_file op path data _) as [fs' [[]|e]] eqn:Hput; intros [= <- <-].
  - left. split; [done|]. by apply put_file_Ok in Hput.
  - right. split; [by eauto|]. cbn [files set_files fst].
    unfold put_file in Hput. cbv zeta in Hput.
    destruct (can_put _ _); [done|].
    destruct (node_at _ _) as [[|c']|]; by injection Hput.
Qed.

(** X10: an entry that is a file is unpacked by [os.Create], which makes no
    directory: when the directory the file belongs in is not there, the
    loop stops at the entry with an error, and nothing is written. *)
Theorem Unzip_entries_file_needs_directory
    (env : Env) (d : string) (f : zipFile) (rest : list zipFile) (w : World)
    (data : string) :
  d ≠ "" →
  zip_IsDir f = false → zip_Open f = Ok data →
  node_at (files w) (Filepath.Dir (Filepath.Join [d; zip_Name f])) ≠ Some Dir →
  ∃ e, Unzip_entries env d (f :: rest) w
       = Ret (d, Some e) (add_trace (SysCreate (Filepath.Join [d; zip_Name f])) w).
Proof.
  intros Hd Hfile Hopen Hparent. cbn [Unzip_entries]. rewrite Hopen, Hfile. cbv zeta.
  set (target := Filepath.Join [d; zip_Name f]) in *.
  assert (Filepath.Clean target = target) as Hclean.
  { apply Clean_Join. unfold target, Filepath.Join.
    rewrite filter_cons_True by done.
    destruct (filter _ _); apply Clean_nonempty. }
  assert (can_put (files w) target = false) as Hput.
  { unfold can_put. cbv zeta. rewrite Hclean.
    destruct (node_at (files w) target) as [[|c]|]; [done|..];
      by destruct (node_at (files w) (Filepath.Dir target)) as [[|c']|]. }
  assert (∃ e, os_Create env target w = Ret (Err e) (add_trace (SysCreate target) w))
    as [e Hcreate].
  { unfold os_Create, sys, sys_outcome.
    destruct (fault env (SysCreate target)) as [e|].
    - exists e. by destruct w.
    - unfold put_file. cbv zeta. change (files (add_trace ?c w)) with (files w).
      rewrite Hput.
      destruct (node_at (files w) (Filepath.Clean target)) as [[|c]|];
        eexists; by destruct w. }
  exists e. by erewrite bind_Ret by exact Hcreate.
Qed.

Lemma Unzip_entries_file_needs_directory_witness :
  ∃ e, Unzip_entries (Sample.env "skel.zip" false false) "/tmp/skel123"
         [ {| zip_Name := "src/main.go"; zip_IsDir := false; zip_Open := Ok "package main" |} ]
         Sample.world
       = Ret ("/tmp/skel123", Some e)
           (add_trace (SysCreate (Filepath.Join ["/tmp/skel123"; "src/main.go"]))
              Sample.world).
Proof.
  apply (Unzip_entries_file_needs_directory (Sample.env "skel.zip" false false)
           "/tmp/skel123"
           {| zip_Name := "src/main.go"; zip_IsDir := false; zip_Open := Ok "package main" |}
           [] Sample.world "package main").
  - discriminate.
  - reflexivity.
  - reflexivity.
  - vm_compute. discriminate.
Defined.

Lemma Unzip_entries_keeps_file (env : Env) (d : string) (entries : list zipFile)
    (w w' : World) (k data : string) (err : option error) :
  Unzip_entries env d entries w = Ret (d, err) w' →
  files w !! k = Some (File data) →
  (∀ g, g ∈ entries → zip_IsDir g = false →
        Filepath.Clean (Filepath.Join [d; zip_Name g]) ≠ k) →
  files w' !! k = Some (File data).
Proof.
  revert w. induction entries as [|g entries IH]; intros w Hrun Hk Hother.
  { by injection Hrun as <- <-. }
  cbn [Unzip_entries] in Hrun.
  destruct (zip_Open g) as [rc|e]; [|by injection Hrun as <- <-].
  cbv zeta in Hrun.
  assert (∀ g', g' ∈ entries → zip_IsDir g' = false →
                Filepath.Clean (Filepath.Join [d; zip_Name g']) ≠ k) as Hrest.
  { intros g' Hin. apply Hother. by right. }
  destruct (zip_IsDir g) eqn:Hdir.
  - erewrite bind_Ret in Hrun by apply when_Printf_eq.
    unfold bind at 1 in Hrun.
    destruct (os_MkdirAll env _ _) as [r w1| | |] eqn:Hmk; [|done..].
    pose proof (os_MkdirAll_keeps_file _ _ k data _ _ _ Hmk) as Hkeep.
    destruct r as [[]|e].
    + apply (IH w1); [done| |done]. apply Hkeep. by destruct (flagVerbose env).
    + injection Hrun as <- <-. apply Hkeep. by destruct (flagVerbose env).
  - assert (Filepath.Clean (Filepath.Join [d; zip_Name g]) ≠ k) as Hne
      by (apply Hother; [by left|done]).
    unfold bind at 1 in Hrun.
    destruct (os_Create env _ w) as [r w1| | |] eqn:Hcreate; [|done..].
    apply sys_put_file in Hcreate as [[-> Hw1]|[[e ->] Hw1]].
    2:{ injection Hrun as <- <-. by rewrite Hw1. }
    assert (files w1 !! k = Some (File data)) as Hk1
      by (rewrite Hw1; by rewrite lookup_insert_ne).
    erewrite bind_Ret in Hrun by apply when_Printf_eq.
    unfold bind at 1 in Hrun.
    destruct (io_Copy env _ _ _) as [r w2| | |] eqn:Hcopy; [|done..].
    apply sys_put_file in Hcopy as [[-> Hw2]|[[e ->] Hw2]].
    + apply (IH w2); [done| |done]. rewrite Hw2, lookup_insert_ne by done.
      by destruct (flagVerbose env).
    + injection Hrun as <- <-. rewrite Hw2. by destruct (flagVerbose env).
Qed.

Lemma Unzip_entries_unpacks (env : Env) (d : string) (entries : list zipFile)
    (w w' : World) :
  Unzip_entries env d entries w = Ret (d, None) w' →
  ∀ i f, entries !! i = Some f →
    if zip_IsDir f
    then node_at (files w') (Filepath.Clean (Filepath.Join [d; zip_Name f])) = Some Dir
    else (∀ j g, i < j → entries !! j = Some g → zip_IsDir g = false →
            Filepath.Clean (Filepath.Join [d; zip_Name g])
            ≠ Filepath.Clean (Filepath.Join [d; zip_Name f])) →
         ∃ data, zip_Open f = Ok data
           ∧ files w' !! Filepath.Clean (Filepath.Join [d; zip_Name f])
             = Some (File data).
Proof.
  revert w. induction entries as [|f0 entries IH]; intros w Hrun i f Hf.
  { by rewrite lookup_nil in Hf. }
  cbn [Unzip_entries] in Hrun.
  destruct (zip_Open f0) as [rc|e] eqn:Hopen; [|done].
  cbv zeta in Hrun.
  destruct (zip_IsDir f0) eqn:Hdir.
  - erewrite bind_Ret in Hrun by apply when_Printf_eq.
    unfold bind at 1 in Hrun.
    destruct (os_MkdirAll env _ _) as [r w1| | |] eqn:Hmk; [|done..].
    destruct r as [[]|e]; [|done].
    destruct i as [|i].
    + injection Hf as <-. rewrite Hdir.
      pose proof (grows_Unzip_entries env d entries w1) as Hg.
      rewrite Hrun in Hg. destruct Hg as [Hg _].
      eapply node_at_grows; [exact Hg|]. by eapply os_MkdirAll_Ok.
    + specialize (IH w1 Hrun i f Hf). destruct (zip_IsDir f); [done|].
      intros Hlater. apply IH. intros j g Hij Hg. apply (Hlater (S j) g); [lia|done].
  - unfold bind at 1 in Hrun.
    destruct (os_Create env _ w) as [r w1| | |] eqn:Hcreate; [|done..].
    apply sys_put_file in Hcreate as [[-> Hw1]|[[e ->] Hw1]]; [|done].
    erewrite bind_Ret in Hrun by apply when_Printf_eq.
    unfold bind at 1 in Hrun.
    destruct (io_Copy env _ _ _) as [r w2| | |] eqn:Hcopy; [|done..].
    apply sys_put_file in Hcopy as [[-> Hw2]|[[e ->] Hw2]]; [|done].
    destruct i as [|i].
    + injection Hf as <-. rewrite Hdir. intros Hlater.
      exists rc. split; [done|].
      eapply Unzip_entries_keeps_file; [exact Hrun|by rewrite Hw2, lookup_insert_eq|].
      intros g Hin Hgfile. apply list_elem_of_lookup in Hin as [j Hj].
      apply (Hlater (S j) g); [lia|done|done].
    + specialize (IH w2 Hrun i f Hf). destruct (zip_IsDir f); [done|].
      intros Hlater. apply IH. intros j g Hij Hg. apply (Hlater (S j) g); [lia|done].
Qed.

Lemma scratch_nonempty (env : Env) : scratch env ≠ "".
Proof. unfold scratch, Filepath.Join. rewrite filter_cons_True by done.
  destruct (filter _ _); apply Clean_nonempty. Qed.

Lemma Clean_Join_dir (d name : string) :
  d ≠ "" → Filepath.Clean (Filepath.Join [d; name]) = Filepath.Join [d; name].
Proof.
  intros Hd. apply Clean_Join. unfold Filepath.Join.
  rewrite filter_cons_True by done. destruct (filter _ _); apply Clean_nonempty.
Qed.

(** A run of [Unzip] that returns no error has gone through the whole
    archive. *)
Lemma Unzip_success (env : Env) (zipfile : string) (w w' : World) (d : string) :
  Unzip env zipfile w = Ret (d, None) w' →
  ∃ bytes entries w0,
    read_outcome env zipfile (files w) = Ok bytes
    ∧ zip_decode env bytes = Some entries
    ∧ d = scratch env
    ∧ Unzip_entries env d entries w0 = Ret (d, None) w'.
Proof.
  unfold Unzip. erewrite bind_Ret by apply zip_OpenReader_eq.
  destruct (read_outcome env zipfile (files w)) as [bytes|e]; [|done].
  destruct (zip_decode env bytes) as [entries|] eqn:Hdecode; [|done].
  cbv beta iota.
  destruct (ioutil_TempDir_spec env (add_trace (SysReadFile zipfile) w))
    as (r & w2 & Htmp & [(e & -> & Hfiles)|(-> & Hnone & Hdir)]);
    erewrite bind_Ret by exact Htmp; [done|].
  cbv beta iota. erewrite bind_Ret by apply when_Printf_eq.
  intros Hrun. exists bytes, entries. eexists. split; [done|]. split; [done|].
  destruct (Unzip_entries_returns env (scratch env) entries
              (if flagVerbose env
               then add_stdout ("Using temporary directory '" +:+ scratch env
                                +:+ "'" +:+ nl) w2
               else w2)) as (err & w'' & Hrun').
  rewrite Hrun' in Hrun. injection Hrun as <- <- <-. split; [done|]. exact Hrun'.
Qed.

(** X11: after a run of [Unzip] that returns no error, the entries of the
    archive are in the directory returned: the path of an entry that is a
    directory is a directory, and the path of an entry that is a file
    holds the bytes of the entry, unless a later entry that is a file has
    the same path. *)
Theorem Unzip_unpacks (env : Env) (zipfile : string) (w w' : World) (d : string) :
  Unzip env zipfile w = Ret (d, None) w' →
  ∃ bytes entries,
    read_outcome env zipfile (files w) = Ok bytes
    ∧ zip_decode env bytes = Some entries
    ∧ ∀ i f, entries !! i = Some f →
        if zip_IsDir f
        then node_at (files w') (Filepath.Join [d; zip_Name f]) = Some Dir
        else (∀ j g, i < j → entries !! j = Some g → zip_IsDir g = false →
                Filepath.Join [d; zip_Name g] ≠ Filepath.Join [d; zip_Name f]) →
             ∃ data, zip_Open f = Ok data
               ∧ files w' !! Filepath.Join [d; zip_Name f] = Some (File data).
Proof.
  intros (bytes & entries & w0 & Hread & Hdecode & -> & Hrun)%Unzip_success.
  exists bytes, entries. split; [done|]. split; [done|].
  intros i f Hf.
  pose proof (Unzip_entries_unpacks _ _ _ _ _ Hrun i f Hf) as H.
  rewrite Clean_Join_dir in H by apply scratch_nonempty.
  destruct (zip_IsDir f); [done|].
  intros Hlater. apply H. intros j g Hij Hg Hgfile.
  rewrite !Clean_Join_dir by apply scratch_nonempty. by apply (Hlater j g).
Qed.

Lemma Unzip_unpacks_witness :
  ∃ bytes entries,
    read_outcome (Sample.env "skel.zip" false false) "skel.zip" (files Sample.world)
    = Ok bytes
    ∧ zip_decode (Sample.env "skel.zip" false false) bytes = Some entries
    ∧ ∀ i f, entries !! i = Some f →
        if zip_IsDir f
        then node_at
               (files (world_of (Unzip (Sample.env "skel.zip" false false) "skel.zip"
                                   Sample.world)))
               (Filepath.Join ["/tmp/skel123"; zip_Name f]) = Some Dir
        else (∀ j g, i < j → entries !! j = Some g → zip_IsDir g = false →
                Filepath.Join ["/tmp/skel123"; zip_Name g]
                ≠ Filepath.Join ["/tmp/skel123"; zip_Name f]) →
             ∃ data, zip_Open f = Ok data
               ∧ files (world_of (Unzip (Sample.env "skel.zip" false false) "skel.zip"
                                    Sample.world))
                 !! Filepath.Join ["/tmp/skel123"; zip_Name f] = Some (File data).
Proof.
  apply (Unzip_unpacks (Sample.env "skel.zip" false false) "skel.zip" Sample.world
           (world_of (Unzip (Sample.env "skel.zip" false false) "skel.zip" Sample.world))
           "/tmp/skel123").
  vm_compute. reflexivity.
Defined.

(** ** More on [walkFunc] and the walk *)

Lemma grows_call_findReplace (env : Env) (t : Skeleton) (src : string) :
  preserves grows (call_findReplace env t src).
Proof. apply preserves_quiet_grows, quiet_call_findReplace. Qed.

Lemma grows_walkFunc (env : Env) (t : Skeleton) (path : string)
    (info : option FileInfo) (err : option error) :
  preserves grows (walkFunc env t path info err).
Proof.
  unfold walkFunc.
  apply preserves_bind; [apply _|apply grows_call_findReplace|]. intros targetpath.
  destruct info as [info|]; [|apply preserves_stop, _].
  destruct (IsDir info).
  - apply preserves_bind; [apply _| |].
    + apply preserves_when; [apply _|].
      apply preserves_bind; [apply _|apply grows_call_findReplace|].
      intros shown. apply grows_Printf.
    + intros _. apply preserves_bind; [apply _| |intros _; apply preserves_ret, _].
      apply preserves_when; [apply _|]. apply preserves_discard; [apply _|].
      apply grows_os_MkdirAll.
  - apply preserves_bind; [apply _| |].
    + apply preserves_when; [apply _|]. apply grows_Printf.
    + intros _. apply preserves_bind; [apply _| |].
      { apply preserves_when; [apply _|]. apply preserves_discard; [apply _|].
        apply grows_os_Create. }
      intros _. apply preserves_bind; [apply _| |].
      { apply preserves_quiet_grows, quiet_ioutil_ReadFile. }
      intros [origBytes|e].
      * apply preserves_bind; [apply _| |intros _; apply preserves_ret, _].
        apply preserves_when; [apply _|].
        apply preserves_bind; [apply _|apply grows_call_findReplace|].
        intros newcontents. apply preserves_discard; [apply _|].
        apply grows_ioutil_WriteFile.
      * apply preserves_bind; [apply _| |intros _; apply preserves_ret, _].
        apply preserves_quiet_grows, quiet_Fprintf_Stderr.
Qed.

Lemma grows_Walk (env : Env) (fuel : nat) (t : Skeleton) :
  preserves grows (Walk env fuel t).
Proof.
  apply preserves_discard; [apply _|].
  apply preserves_filepath_Walk; [apply _|..].
  - intros path. apply preserves_quiet_grows, quiet_os_Lstat.
  - intros path. apply preserves_quiet_grows, quiet_readDirNames.
  - intros path info err. apply grows_walkFunc.
Qed.

(** X16: the walk removes nothing, dry run or not, and however it ends: a path
    that was there is there afterwards, a directory is still a directory
    (a file may have been written over), and [os.RemoveAll] is not
    called. *)
Theorem Walk_removes_nothing (env : Env) (fuel : nat) (t : Skeleton) (w : World) :
  (∀ p, is_Some (files w !! p) → is_Some (files (world_of (Walk env fuel t w)) !! p))
  ∧ (∀ p, files w !! p = Some Dir → files (world_of (Walk env fuel t w)) !! p = Some Dir)
  ∧ ∃ calls, trace (world_of (Walk env fuel t w)) = trace w ++ calls
             ∧ Forall (λ c, removes c = false) calls.
Proof.
  destruct (grows_Walk env fuel t w) as [[H1 H2] H3]. by split_and!.
Qed.

(** X17: when the root of the walk cannot be examined, [filepath.Walk] calls
    the callback with a nil [FileInfo], and the walk ends in a panic,
    before anything is written. *)
Theorem Walk_panics_without_root (env : Env) (fuel : nat) (t : Skeleton) (w : World) :
  fault env (SysLstat (Location t)) ≠ None
  ∨ node_at (files w) (Filepath.Clean (Location t)) = None →
  ∃ w', Walk env fuel t w = Panic w'
    ∧ files w' = files w ∧ trace w' = trace w ++ [SysLstat (Location t)].
Proof.
  intros Hroot. unfold Walk, discard, filepath_Walk.
  unfold os_Lstat. unfold bind at 1 2. rewrite sys_reading_eq.
  assert (∃ e, match fault env (SysLstat (Location t)) with
               | Some e => Err e
               | None =>
                   match node_at (files w) (Filepath.Clean (Location t)) with
                   | Some n => Ok (info_of n)
                   | None => Err ("lstat " +:+ Location t +:+ ": no such file or directory")
                   end
               end = Err e) as [e ->].
  { destruct (fault env (SysLstat (Location t))) as [e|]; [by eexists|].
    destruct Hroot as [Hf|Hn]; [done|]. rewrite Hn. by eexists. }
  unfold bind at 1. unfold walkFunc.
  erewrite bind_Ret by apply call_findReplace_eq.
  eexists. split; [reflexivity|]. done.
Qed.

Lemma Walk_panics_without_root_witness :
  ∃ w', Walk (Sample.env "gone" false false) 10
          {| Location := "gone"; Config := Sample.config; Outdir := "./__out/";
             Dryrun := false; KeyValues := ∅; outDirBase := "demo-17" |}
          Sample.world = Panic w'
    ∧ files w' = files Sample.world
    ∧ trace w' = trace Sample.world ++ [SysLstat "gone"].
Proof.
  apply (Walk_panics_without_root (Sample.env "gone" false false) 10
           {| Location := "gone"; Config := Sample.config; Outdir := "./__out/";
              Dryrun := false; KeyValues := ∅; outDirBase := "demo-17" |}
           Sample.world).
  right. reflexivity.
Defined.

(** *** Where an entry goes *)

(** X15: for an entry whose cleaned path is the cleaned location followed by
    [rest], the target is the output directory, the base directory and
    [rest], provided the cleaned location does not occur in [rest]; the
    root of the skeleton goes to the base directory. *)
Theorem raw_target_below_location (t : Skeleton) (path rest : string) :
  Filepath.Clean path = Filepath.Clean (Location t) +:+ rest →
  Strings.Contains rest (Filepath.Clean (Location t)) = false →
  raw_target t path = Filepath.Join [Outdir t; outDirBase t; rest].
Proof.
  intros Hpath Hrest. unfold raw_target.
  rewrite Hpath, replace_hit by apply Clean_nonempty.
  by rewrite replace_absent, str_app_nil_l.
Qed.

Lemma raw_target_below_location_witness :
  raw_target (Sample.skeleton false) "skel/src/main.go"
  = Filepath.Join ["./__out/"; "demo-17"; "/src/main.go"].
Proof.
  apply (raw_target_below_location (Sample.skeleton false) "skel/src/main.go"
           "/src/main.go"); reflexivity.
Defined.

(** Every occurrence of the location in the path of an entry is taken
    out, not the one it starts with only: two entries go to one target. *)
Example raw_target_collision :
  raw_target (Sample.skeleton false) "skel/src/skel/main.go"
  = raw_target (Sample.skeleton false) "skel/src/main.go".
Proof. reflexivity. Qed.

(** *** What a call of [walkFunc] writes *)

Lemma can_put_spec (fs : gmap string node) (path : string) :
  can_put fs path = true →
  node_at fs (Filepath.Clean path) ≠ Some Dir
  ∧ node_at fs (Filepath.Dir (Filepath.Clean path)) = Some Dir.
Proof.
  unfold can_put. cbv zeta.
  destruct (node_at fs (Filepath.Clean path)) as [[|c]|];
    destruct (node_at fs (Filepath.Dir (Filepath.Clean path))) as [[|c']|]; done.
Qed.

Lemma node_at_insert_ne (fs : gmap string node) (p q : string) (n : node) :
  q ≠ p → node_at (<[p := n]> fs) q = node_at fs q.
Proof. intros Hne. unfold node_at. case_decide; [done|]. by rewrite lookup_insert_ne. Qed.

Lemma node_at_insert_File (fs : gmap string node) (p data : string) :
  node_at fs p ≠ Some Dir → node_at (<[p := File data]> fs) p = Some (File data).
Proof.
  unfold node_at. case_decide; [done|]. intros _. apply lookup_insert_eq.
Qed.

(** A file that has been put can be put again. *)
Lemma can_put_again (fs : gmap string node) (path data : string) :
  can_put fs path = true →
  can_put (<[Filepath.Clean path := File data]> fs) path = true.
Proof.
  intros [Hp Hd]%can_put_spec. unfold can_put. cbv zeta.
  rewrite node_at_insert_File by done.
  rewrite node_at_insert_ne; [by rewrite Hd|].
  intros Heq. by rewrite Heq in Hd.
Qed.

Lemma put_file_can_put (op path data : string) (fs : gmap string node) :
  can_put fs path = true →
  put_file op path data fs = (<[Filepath.Clean path := File data]> fs, Ok ()).
Proof. intros H. unfold put_file. cbv zeta. by rewrite H. Qed.

Lemma ioutil_WriteFile_eq (env : Env) (path data : string) (w : World) :
  ioutil_WriteFile env path data w
  = Ret (sys_outcome env (SysWriteFile path data) (put_file "open" path data) (files w)).2
        (set_files
           (sys_outcome env (SysWriteFile path data) (put_file "open" path data) (files w)).1
           (add_trace (SysWriteFile path data) w)).
Proof. reflexivity. Qed.

Lemma read_outcome_insert_ne (env : Env) (path p : string) (n : node)
    (fs : gmap string node) :
  Filepath.Clean path ≠ p →
  read_outcome env path (<[p := n]> fs) = read_outcome env path fs.
Proof.
  intros Hne. unfold read_outcome, sys_outcome, reading, read_file.
  destruct (fault env _); [done|]. simpl. by rewrite node_at_insert_ne.
Qed.

(** X13: in a run that is not dry, for an entry that is a file: when the file
    can be read, the target can be created and written, and the target is
    not the file itself, the target holds, after the call, what
    [findReplace] makes of the bytes of the file; [Unsubstituted] is as the
    two calls of [findReplace], on the target path and on the bytes, leave
    it. *)
Theorem walkFunc_writes_file
    (env : Env) (t : Skeleton) (path : string) (info : FileInfo)
    (err : option error) (w : World) (origBytes : string) :
  let tp := targetpath_of env t path w in
  let new := content_of env t path w origBytes in
  Dryrun t = false → IsDir info = false →
  fault env (SysCreate tp) = None →
  fault env (SysWriteFile tp new.1) = None →
  can_put (files w) tp = true →
  Filepath.Clean path ≠ Filepath.Clean tp →
  read_outcome env path (files w) = Ok origBytes →
  ∃ w', walkFunc env t path (Some info) err w = Ret None w'
    ∧ files w' = <[Filepath.Clean tp := File new.1]> (files w)
    ∧ trace w' = trace w ++ [SysCreate tp; SysReadFile path; SysWriteFile tp new.1]
    ∧ Unsubstituted w' = new.2
    ∧ stderr w' = stderr w.
Proof.
  intros tp new Hdry Hfile Hcreate Hwrite Hput Hne Hread.
  assert (create_outcome env tp (files w)
          = (<[Filepath.Clean tp := File ""]> (files w), Ok ())) as Hc.
  { unfold create_outcome, sys_outcome. rewrite Hcreate. by apply put_file_can_put. }
  assert (sys_outcome env (SysWriteFile tp new.1) (put_file "open" tp new.1)
            (<[Filepath.Clean tp := File ""]> (files w))
          = (<[Filepath.Clean tp := File new.1]> (files w), Ok ())) as Hw.
  { unfold sys_outcome. rewrite Hwrite.
    rewrite put_file_can_put by by apply can_put_again.
    by rewrite insert_insert_eq. }
  unfold walkFunc.
  erewrite bind_Ret by apply call_findReplace_eq.
  fold (raw_target t path). fold (targetpath_of env t path w). fold tp.
  fold (unsub_of_target env t path w).
  rewrite Hfile, Hdry. cbv iota. cbn [negb when].
  erewrite bind_Ret by apply when_Printf_eq.
  erewrite bind_Ret by (eapply discard_Ret, os_Create_eq).
  erewrite bind_Ret by apply ioutil_ReadFile_eq.
  set (w1 := if flagVerbose env
             then add_stdout ("Creating file:  " +:+ tp +:+ nl)
                    (next_range (set_Unsubstituted (unsub_of_target env t path w) w))
             else next_range (set_Unsubstituted (unsub_of_target env t path w) w)).
  assert (files w1 = files w ∧ ranges w1 = S (ranges w)
          ∧ Unsubstituted w1 = unsub_of_target env t path w
          ∧ trace w1 = trace w ∧ stderr w1 = stderr w) as (Hf1 & Hr1 & Hu1 & Ht1 & He1)
    by (unfold w1; by destruct (flagVerbose env)).
  rewrite Hf1, Hc. cbn [fst snd files set_files add_trace].
  rewrite read_outcome_insert_ne, Hread by done. cbv iota.
  erewrite bind_Ret.
  2:{ erewrite bind_Ret by apply call_findReplace_eq.
      eapply discard_Ret, ioutil_WriteFile_eq. }
  cbn [files set_files add_trace next_range set_Unsubstituted ranges Unsubstituted].
  rewrite Hr1, Hu1. fold (content_of env t path w origBytes). fold new.
  rewrite Hw.
  eexists. split; [reflexivity|].
  cbn [fst snd files set_files add_trace next_range set_Unsubstituted ranges
         Unsubstituted trace stderr].
  rewrite Ht1, He1. split_and!; try done.
  by rewrite <-!(assoc_L (++)).
Qed.

Lemma walkFunc_writes_file_witness :
  let env := Sample.env "skel" false false in
  let w := world_of (os_MkdirAll env "__out/demo-17" Sample.world) in
  ∃ w', walkFunc env (Sample.skeleton false) "skel/README.md"
          (Some {| IsDir := false |}) None w = Ret None w'
    ∧ files w' = <["__out/demo-17/README.md" := File "Hello Acme from ${owner}!"]> (files w)
    ∧ trace w' = trace w ++ [SysCreate "__out/demo-17/README.md";
                             SysReadFile "skel/README.md";
                             SysWriteFile "__out/demo-17/README.md"
                               "Hello Acme from ${owner}!"]
    ∧ Unsubstituted w' = {[ "${owner}" ]} ∪ ∅
    ∧ stderr w' = stderr w.
Proof.
  apply (walkFunc_writes_file (Sample.env "skel" false false) (Sample.skeleton false)
           "skel/README.md" {| IsDir := false |} None
           (world_of (os_MkdirAll (Sample.env "skel" false false) "__out/demo-17"
                        Sample.world))
           "Hello ${proj} from ${owner}!"); try reflexivity.
  vm_compute. discriminate.
Defined.




(** ** [cleanup] and the whole run *)

Lemma bind_Ret_inv {A B} (c : M A) (k : A → M B) (w w' : World) (b : B) :
  bind c k w = Ret b w' → ∃ a w1, c w = Ret a w1 ∧ k a w1 = Ret b w'.
Proof. unfold bind. destruct (c w) as [a w1| | |]; [by eauto|done..]. Qed.

Lemma preserves_mono {A} (R R' : relation World) (c : M A) :
  (∀ w w', R w w' → R' w w') → preserves R c → preserves R' c.
Proof. intros Hsub Hc w. apply Hsub, Hc. Qed.

(** A step whose result is known to satisfy [P]. *)
Lemma preserves_bind_post {A B} (R : relation World) `{!PreOrder R}
    (c : M A) (k : A → M B) (P : A → Prop) :
  preserves R c → (∀ w a w', c w = Ret a w' → P a) →
  (∀ a, P a → preserves R (k a)) → preserves R (bind c k).
Proof.
  intros Hc HP Hk w. unfold bind. specialize (Hc w). specialize (HP w).
  destruct (c w) as [a w'| | |]; simpl in *; [|done..].
  etrans; [exact Hc|]. apply Hk. by eapply HP.
Qed.

Global Instance kept_outside_preorder (d : string) : PreOrder (kept_outside d).
Proof.
  split.
  - by intros w p Hp.
  - intros w1 w2 w3 H1 H2 p Hp. destruct (H1 p Hp), (H2 p Hp). split; eauto.
Qed.

Lemma grows_kept_outside (d : string) (w w' : World) : grows w w' → kept_outside d w w'.
Proof. intros [[H1 H2] _] p _. split; [apply H1|apply H2]. Qed.

Lemma remove_all_lookup (env : Env) (path : string) (fs : gmap string node) (p : string) :
  (remove_all env path fs).1 !! p
  = if decide (¬ below (Filepath.Clean path) p ∨ held (refused env path fs) p)
    then fs !! p else None.
Proof.
  unfold remove_all. cbn [fst]. cbv zeta.
  destruct (fs !! p) as [n|] eqn:Hn.
  - case_decide as Hkeep.
    + by apply map_lookup_filter_Some.
    + apply map_lookup_filter_None. right. by intros n' _ Hkeep'.
  - rewrite (proj2 (map_lookup_filter_None _ _ _)) by by left. by case_decide.
Qed.

Lemma remove_all_Ok (env : Env) (path : string) (fs : gmap string node) :
  (remove_all env path fs).2 = Ok ()
  ↔ refused env path fs = [] ∧ fault env (SysRemoveAll path) = None.
Proof.
  unfold remove_all. cbn [snd]. cbv zeta.
  destruct (refused env path fs) as [|r rs].
  - destruct (fault env (SysRemoveAll path)); (split; [done|]); by intros [_ ?].
  - split; [done|]. by intros [? _].
Qed.

Lemma held_nil (q : string) : ¬ held [] q.
Proof. unfold held. by intros H%Exists_nil. Qed.

Lemma os_RemoveAll_spec (env : Env) (path : string) (w : World) :
  ∃ r w',
    os_RemoveAll env path w = Ret r w'
    ∧ trace w' = trace w ++ [SysRemoveAll path]
    ∧ stdout w' = stdout w ∧ stderr w' = stderr w
    ∧ Unsubstituted w' = Unsubstituted w
    ∧ (∀ p, ¬ below (Filepath.Clean path) p → files w' !! p = files w !! p)
    ∧ (∀ p, below (Filepath.Clean path) p →
            files w' !! p
            = if decide (held (refused env path (files w)) p) then files w !! p else None)
    ∧ (r = Ok () ↔ refused env path (files w) = []
                   ∧ fault env (SysRemoveAll path) = None).
Proof.
  unfold os_RemoveAll. cbv zeta. eexists _, _. split; [reflexivity|].
  cbn [trace stdout stderr Unsubstituted files set_files add_trace].
  split_and!; try done.
  - intros p Hp. rewrite remove_all_lookup. by rewrite decide_True by by left.
  - intros p Hp. rewrite remove_all_lookup.
    destruct (decide (held (refused env path (files w)) p)) as [Hheld|Hfree].
    + by rewrite decide_True by by right.
    + rewrite decide_False; [done|]. by intros [|].
  - apply remove_all_Ok.
Qed.

(** X12: [cleanup] removes of the directory and of what is in it all that
    [os.RemoveAll] can remove, and nothing else: an entry stays when its
    removal is refused, or the removal of an entry below it.  When nothing
    is refused, the directory and everything in it are gone and [cleanup]
    returns; otherwise it reports the error on the standard error and the
    process exits with status 1. *)
Theorem cleanup_removes_directory (env : Env) (dir : string) (w : World) :
  let refusals := refused env dir (files w) in
  ∃ w',
    (∀ p, ¬ below (Filepath.Clean dir) p → files w' !! p = files w !! p)
    ∧ (∀ p, below (Filepath.Clean dir) p →
            files w' !! p = if decide (held refusals p) then files w !! p else None)
    ∧ ((refusals = [] ∧ fault env (SysRemoveAll dir) = None
        ∧ cleanup env dir w = Ret () w'
        ∧ (∀ p, below (Filepath.Clean dir) p → files w' !! p = None)
        ∧ stderr w' = stderr w)
       ∨ (∃ e, ¬ (refusals = [] ∧ fault env (SysRemoveAll dir) = None)
            ∧ cleanup env dir w = Exit 1 w'
            ∧ stderr w' = stderr w ++ ["Unable to remove directory '" +:+ dir +:+ "': "
                                        +:+ e +:+ nl])).
Proof.
  intros refusals. unfold cleanup. erewrite bind_Ret by apply when_Printf_eq.
  set (w0 := if flagVerbose env then _ else w).
  assert (files w0 = files w ∧ stderr w0 = stderr w) as [Hf0 He0]
    by (unfold w0; by destruct (flagVerbose env)).
  destruct (os_RemoveAll_spec env dir w0)
    as (r & w1 & Hrun & _ & _ & He1 & _ & Hout & Hin & Hok).
  rewrite Hf0 in Hout, Hin, Hok. fold refusals in Hin, Hok.
  erewrite bind_Ret by exact Hrun.
  destruct r as [[]|e].
  - exists w1. split; [done|]. split; [done|]. left.
    destruct (proj1 Hok eq_refl) as [Hnone Hfault].
    split_and!; [done|done|done| |congruence].
    intros p Hp. rewrite (Hin p Hp), decide_False; [done|].
    rewrite Hnone. apply held_nil.
  - exists (add_stderr ("Unable to remove directory '" +:+ dir +:+ "': " +:+ e +:+ nl) w1).
    split; [exact Hout|]. split; [exact Hin|]. right. exists e.
    split; [|split; [reflexivity|]].
    + intros Hno. by apply Hok in Hno.
    + cbn. by rewrite He1, He0.
Qed.

(** With the removal of [/tmp/skel123/src] refused, [cleanup] removes the
    files of the directory, leaves [src] and the directory itself, and the
    process exits. *)
Example cleanup_removes_what_it_can :
  let env :=
    {| flagVerbose := false; flagIn := "skel.zip"; flagDryRun := false;
       flagOut := "./__out/";
       fault := λ c, match c with
                     | SysRemoveAll "/tmp/skel123/src" => Some "permission denied"
                     | _ => None
                     end;
       range_order := λ _ m, map_to_list m;
       range_keys := λ _ s, elements s;
       UnixNano := 17; temp_name := "123";
       zip_decode := Sample.decode; xml_Unmarshal := λ _, Sample.config |} in
  let w := world_of (Unzip env "skel.zip" Sample.world) in
  ∃ w', cleanup env "/tmp/skel123" w = Exit 1 w'
    ∧ files w !! "/tmp/skel123/config.xml" = Some (File "<skeleton/>")
    ∧ files w' !! "/tmp/skel123/config.xml" = None
    ∧ files w' !! "/tmp/skel123/src/${proj}.go" = None
    ∧ files w' !! "/tmp/skel123/src" = Some Dir
    ∧ files w' !! "/tmp/skel123" = Some Dir
    ∧ files w' !! "skel/config.xml" = Some (File "<skeleton/>")
    ∧ stderr w' = ["Unable to remove directory '/tmp/skel123': permission denied" +:+ nl].
Proof. eexists. vm_compute. repeat split. Qed.

Lemma kept_outside_cleanup (env : Env) (d : string) :
  preserves (kept_outside (Filepath.Clean d)) (cleanup env d).
Proof.
  unfold cleanup.
  apply preserves_bind; [apply _| |].
  { apply preserves_when; [apply _|].
    eapply preserves_mono; [apply grows_kept_outside|apply grows_Printf]. }
  intros _. intros w.
  destruct (os_RemoveAll_spec env d w) as (r & w' & Hrun & _ & _ & _ & _ & Hout & _).
  unfold bind. rewrite Hrun.
  destruct r as [[]|e]; intros p Hp; cbn; by rewrite (Hout p Hp).
Qed.

Lemma quiet_print_each {A} (line : A → string) (l : list A) :
  preserves quiet (print_each line l).
Proof.
  induction l as [|a l IH]; [apply preserves_ret, _|].
  apply preserves_bind; [apply _|apply quiet_Printf|]. by intros _.
Qed.

Lemma quiet_ReadLine : preserves quiet ReadLine.
Proof.
  intros w. rewrite ReadLine_eq. split; [done|]. exists []. by rewrite app_nil_r.
Qed.

Lemma quiet_read_params (params : list SkeletonParams) (acc : gmap string string) :
  preserves quiet (read_params params acc).
Proof.
  revert acc. induction params as [|p params IH]; intros acc; [apply preserves_ret, _|].
  apply preserves_bind; [apply _|apply quiet_Printf|]. intros _.
  apply preserves_bind; [apply _|apply quiet_ReadLine|]. intros bline. apply IH.
Qed.

Lemma quiet_next_range : preserves quiet (modify next_range).
Proof.
  apply preserves_modify. intros w. split; [done|]. exists []. by rewrite app_nil_r.
Qed.

Lemma quiet_ReadUserInput (env : Env) (t : Skeleton) :
  preserves quiet (ReadUserInput env t).
Proof.
  unfold ReadUserInput.
  apply preserves_bind; [apply _|apply quiet_Printf|]. intros _.
  apply preserves_bind; [apply _|apply quiet_read_params|]. intros paramvals.
  apply preserves_bind; [apply _|apply quiet_Printf|]. intros _.
  apply preserves_bind; [apply _|apply preserves_get, _|]. intros n.
  apply preserves_bind; [apply _|apply quiet_next_range|]. intros _.
  apply preserves_bind; [apply _|apply quiet_print_each|]. intros _.
  apply preserves_bind; [apply _|apply quiet_Printf|]. intros _.
  apply preserves_ret, _.
Qed.

Lemma quiet_File_Stat (env : Env) (f : OsFile) : preserves quiet (File_Stat env f).
Proof. by apply quiet_reading. Qed.

Lemma quiet_kept_outside (d : string) {A} (c : M A) :
  preserves quiet c → preserves (kept_outside d) c.
Proof.
  intros H. eapply preserves_mono; [apply grows_kept_outside|].
  by apply preserves_quiet_grows.
Qed.

Lemma grows_kept {A} (d : string) (c : M A) :
  preserves grows c → preserves (kept_outside d) c.
Proof. apply preserves_mono, grows_kept_outside. Qed.

Lemma kept_outside_fail (d : string) (s : string) :
  preserves (kept_outside d) (Fprintf_Stderr s;; os_Exit 1 : M unit).
Proof.
  apply preserves_bind; [apply _| |intros _; apply preserves_stop, _].
  apply quiet_kept_outside, quiet_Fprintf_Stderr.
Qed.

Lemma Clean_scratch (env : Env) : Filepath.Clean (scratch env) = scratch env.
Proof. apply Clean_Join. apply scratch_nonempty. Qed.

(** X21: whatever the input is and however the run ends, [main] removes
    nothing outside the directory that [Unzip] makes for an archive:
    every path that was there before the run and is not that directory
    or in it is still there after the run, and a directory is still a
    directory. *)
Theorem main_removes_only_scratch (env : Env) (fuel : nat) (w : World) (p : string) :
  ¬ below (scratch env) p →
  (is_Some (files w !! p) → is_Some (files (world_of (main env fuel w)) !! p))
  ∧ (files w !! p = Some Dir → files (world_of (main env fuel w)) !! p = Some Dir).
Proof.
  revert p.
  enough (preserves (kept_outside (scratch env)) (main env fuel)) as H by apply H.
  set (d := scratch env). unfold main.
  destruct (decide (flagIn env = "")) as [_|_]; [apply kept_outside_fail|].
  apply preserves_bind; [apply _|apply quiet_kept_outside, quiet_Printf|]. intros _.
  apply preserves_bind; [apply _|apply quiet_kept_outside, quiet_os_Open|].
  intros [fileOrDir|e]; [|apply kept_outside_fail].
  apply preserves_bind; [apply _|apply quiet_kept_outside, quiet_File_Stat|].
  intros [stat|e]; [|apply kept_outside_fail].
  apply preserves_bind; [apply _| |].
  { apply preserves_when; [apply _|]. apply quiet_kept_outside, quiet_Printf. }
  intros _.
  apply (preserves_bind_post _ _ _ (λ a : bool * string, a.1 = true → a.2 = d)).
  - destruct (negb (IsDir stat)); [|apply preserves_ret, _].
    apply preserves_bind; [apply _|apply grows_kept, grows_Unzip|].
    intros [tdir [e|]]; [apply kept_outside_fail|apply preserves_ret, _].
  - intros w0 a w1. destruct (negb (IsDir stat)).
    + intros (r & w2 & Hunzip & Hret)%bind_Ret_inv. destruct r as [tdir [e|]]; [done|].
      injection Hret as <- <-. intros _.
      by apply Unzip_success in Hunzip as (_ & _ & _ & _ & _ & -> & _).
    + by intros [= <- <-].
  - intros [isZip targetFileDir] Hzip. simpl in Hzip.
    apply preserves_bind; [apply _|apply quiet_kept_outside, quiet_ParseSkeleton|].
    intros [t|e]; [|apply kept_outside_fail]. cbv zeta.
    apply preserves_bind; [apply _|apply quiet_kept_outside, quiet_Printf|]. intros _.
    apply preserves_bind; [apply _|apply quiet_kept_outside, quiet_Printf|]. intros _.
    apply preserves_bind; [apply _|apply quiet_kept_outside, quiet_Printf|]. intros _.
    apply preserves_bind; [apply _|apply quiet_kept_outside, quiet_Printf|]. intros _.
    apply preserves_bind; [apply _| |].
    { apply preserves_when; [apply _|]. apply quiet_kept_outside, quiet_print_each. }
    intros _.
    apply preserves_bind; [apply _|apply quiet_kept_outside, quiet_ReadUserInput|].
    intros themap.
    apply preserves_bind; [apply _|apply grows_kept, grows_Walk|]. intros _.
    apply preserves_bind; [apply _|apply preserves_get, _|]. intros unsub.
    apply preserves_bind; [apply _| |].
    { apply preserves_when; [apply _|].
      apply preserves_bind; [apply _|apply quiet_kept_outside, quiet_Printf|]. intros _.
      apply preserves_bind; [apply _|apply preserves_get, _|]. intros n.
      apply preserves_bind; [apply _|apply quiet_kept_outside, quiet_next_range|].
      intros _. apply quiet_kept_outside, quiet_print_each. }
    intros _. destruct isZip; [|apply preserves_ret, _].
    rewrite Hzip by done. unfold d. rewrite <-(Clean_scratch env) at 1.
    apply kept_outside_cleanup.
Qed.

Lemma main_removes_only_scratch_witness :
  (is_Some (files Sample.world !! "skel/config.xml") →
   is_Some (files (world_of (main (Sample.env "skel.zip" false false) 10 Sample.world))
              !! "skel/config.xml"))
  ∧ (files Sample.world !! "skel/config.xml" = Some Dir →
     files (world_of (main (Sample.env "skel.zip" false false) 10 Sample.world))
       !! "skel/config.xml" = Some Dir).
Proof.
  apply (main_removes_only_scratch (Sample.env "skel.zip" false false) 10 Sample.world
           "skel/config.xml").
  intros [H|H]; vm_compute in H; discriminate H.
Defined.

Lemma quiet_fail (s : string) : preserves quiet (Fprintf_Stderr s;; os_Exit 1 : M unit).
Proof.
  apply preserves_bind; [apply _|apply quiet_Fprintf_Stderr|].
  intros _. apply preserves_stop, _.
Qed.

Lemma quiet_Walk_dry (env : Env) (fuel : nat) (t : Skeleton) :
  Dryrun t = true → preserves quiet (Walk env fuel t).
Proof.
  intros Hdry. apply preserves_discard; [apply _|].
  apply preserves_filepath_Walk;
    auto using quiet_os_Lstat, quiet_readDirNames, quiet_walkFunc_dry with typeclass_instances.
Qed.

(** X20: a dry run on an input that is no regular file (a directory, or
    nothing at all) changes no file and makes no system call that could,
    from the start of [main] to its end, however it ends. *)
Theorem main_dry_run_changes_nothing (env : Env) (fuel : nat) (w : World) :
  flagDryRun env = true →
  (∀ content, node_at (files w) (Filepath.Clean (flagIn env)) ≠ Some (File content)) →
  files (world_of (main env fuel w)) = files w
  ∧ ∃ calls, trace (world_of (main env fuel w)) = trace w ++ calls
             ∧ Forall (λ c, mutates c = false) calls.
Proof.
  intros Hdry Hinput.
  enough (quiet w (world_of (main env fuel w))) as H by apply H.
  unfold main.
  destruct (decide (flagIn env = "")) as [_|_]; [apply quiet_fail|].
  erewrite bind_Ret by apply Printf_eq.
  set (w0 := add_stdout _ w).
  assert (quiet w w0) as Hq0 by apply quiet_add_stdout.
  erewrite bind_Ret by apply os_Open_eq.
  set (w1 := add_trace _ w0).
  assert (quiet w w1) as Hq1.
  { etrans; [exact Hq0|]. by apply quiet_add_trace. }
  unfold open_outcome. change (files w0) with (files w).
  destruct (fault env (SysOpen (flagIn env))) as [e|].
  { etrans; [exact Hq1|]. apply quiet_fail. }
  destruct (node_at (files w) (Filepath.Clean (flagIn env))) as [[|content]|] eqn:Hnode.
  2:{ by destruct (Hinput content). }
  2:{ etrans; [exact Hq1|]. apply quiet_fail. }
  cbv iota. unfold File_Stat. erewrite bind_Ret by apply sys_reading_eq.
  cbn [Name opened].
  set (w2 := add_trace _ w1).
  assert (quiet w w2) as Hq2.
  { etrans; [exact Hq1|]. by apply quiet_add_trace. }
  destruct (fault env (SysStat (flagIn env))) as [e|].
  { etrans; [exact Hq2|]. apply quiet_fail. }
  cbv iota. etrans; [exact Hq2|].
  generalize w2.
  apply (preserves_bind quiet).
  { apply preserves_when; [apply _|apply quiet_Printf]. }
  intros _. cbn [info_of IsDir negb].
  apply (preserves_bind_post quiet _ _ (λ a : bool * string, a.1 = false)).
  { apply preserves_ret, _. }
  { by intros w3 a w4 [= <- _]. }
  intros [isZip targetFileDir] Hzip. simpl in Hzip. subst isZip.
  apply preserves_bind; [apply _|apply quiet_ParseSkeleton|].
  intros [t|e]; [|apply quiet_fail]. cbv zeta.
  apply preserves_bind; [apply _|apply quiet_Printf|]. intros _.
  apply preserves_bind; [apply _|apply quiet_Printf|]. intros _.
  apply preserves_bind; [apply _|apply quiet_Printf|]. intros _.
  apply preserves_bind; [apply _|apply quiet_Printf|]. intros _.
  apply preserves_bind; [apply _| |].
  { apply preserves_when; [apply _|]. apply quiet_print_each. }
  intros _.
  apply preserves_bind; [apply _|apply quiet_ReadUserInput|]. intros themap.
  apply preserves_bind; [apply _| |].
  { apply quiet_Walk_dry. exact Hdry. }
  intros _.
  apply preserves_bind; [apply _|apply preserves_get, _|]. intros unsub.
  apply preserves_bind; [apply _| |intros _; apply preserves_ret, _].
  apply preserves_when; [apply _|].
  apply preserves_bind; [apply _|apply quiet_Printf|]. intros _.
  apply preserves_bind; [apply _|apply preserves_get, _|]. intros n.
  apply preserves_bind; [apply _|apply quiet_next_range|]. intros _.
  apply quiet_print_each.
Qed.

Lemma main_dry_run_changes_nothing_witness :
  files (world_of (main (Sample.env "skel" true true) 10 Sample.world))
  = files Sample.world
  ∧ ∃ calls,
      trace (world_of (main (Sample.env "skel" true true) 10 Sample.world))
      = trace Sample.world ++ calls
      ∧ Forall (λ c, mutates c = false) calls.
Proof.
  apply (main_dry_run_changes_nothing (Sample.env "skel" true true) 10 Sample.world).
  - reflexivity.
  - intros content. vm_compute. discriminate.
Defined.

(** A dry run on an archive is another matter: the archive is unpacked
    and the directory removed again. *)
Example main_dry_run_unpacks_archive :
  trace (world_of (main (Sample.env "skel.zip" true false) 10 Sample.world))
  = [SysOpen "skel.zip"; SysStat "skel.zip"; SysReadFile "skel.zip";
     SysTempDir "/tmp/skel123"; SysCreate "/tmp/skel123/config.xml";
     SysWriteFile "/tmp/skel123/config.xml" "<skeleton/>";
     SysMkdirAll "/tmp/skel123/src"; SysCreate "/tmp/skel123/src/${proj}.go";
     SysWriteFile "/tmp/skel123/src/${proj}.go" "package ${proj} // ${owner}";
     SysOpen "/tmp/skel123/config.xml"; SysReadFile "/tmp/skel123/config.xml";
     SysLstat "/tmp/skel123"; SysReadDir "/tmp/skel123";
     SysLstat "/tmp/skel123/config.xml"; SysReadFile "/tmp/skel123/config.xml";
     SysLstat "/tmp/skel123/src"; SysReadDir "/tmp/skel123/src";
     SysLstat "/tmp/skel123/src/${proj}.go"; SysReadFile "/tmp/skel123/src/${proj}.go";
     SysRemoveAll "/tmp/skel123"].
Proof. vm_compute. reflexivity. Qed.

Lemma fail_not_Ret {B} (s : string) (w w' : World) (b : B) :
  (Fprintf_Stderr s;; os_Exit 1) w ≠ Ret b w'.
Proof. done. Qed.

Lemma bind_Exit {A B} (c : M A) (k : A → M B) (w w' : World) (code : Z) :
  c w = Exit code w' → bind c k w = Exit code w'.
Proof. intros H. unfold bind. by rewrite H. Qed.

Lemma cleanup_Ret (env : Env) (d : string) (w w' : World) :
  cleanup env d w = Ret () w' →
  (∀ p, below (Filepath.Clean d) p → files w' !! p = None)
  ∧ last (trace w') = Some (SysRemoveAll d)
  ∧ Unsubstituted w' = Unsubstituted w
  ∧ ∃ lines, stdout w' = stdout w ++ lines.
Proof.
  unfold cleanup. erewrite bind_Ret by apply when_Printf_eq.
  set (w0 := if flagVerbose env then _ else w).
  assert (Unsubstituted w0 = Unsubstituted w ∧ ∃ lines, stdout w0 = stdout w ++ lines)
    as [Hu0 Hs0].
  { unfold w0. destruct (flagVerbose env); (split; [done|]).
    - by eexists.
    - exists []. by rewrite app_nil_r. }
  intros (r & w1 & Hrun & Hret)%bind_Ret_inv.
  destruct (os_RemoveAll_spec env d w0)
    as (r' & w1' & Hrun' & Htrace & Hs1 & _ & Hu1 & _ & Hin & Hok).
  rewrite Hrun' in Hrun. injection Hrun as -> ->.
  destruct r as [[]|e]; [|done]. injection Hret as <-.
  destruct (proj1 Hok eq_refl) as [Hnone _].
  split_and!.
  - intros p Hp. rewrite (Hin p Hp), decide_False; [done|].
    rewrite Hnone. apply held_nil.
  - rewrite Htrace. apply last_snoc.
  - congruence.
  - by rewrite Hs1.
Qed.

(** X22: when the input is a regular file and [main] returns, the directory
    that [Unzip] made has been removed, with everything in it: the last
    system call of the run is the [os.RemoveAll] of that directory. *)
Theorem main_removes_scratch_at_the_end
    (env : Env) (fuel : nat) (w w' : World) (content : string) :
  main env fuel w = Ret () w' →
  node_at (files w) (Filepath.Clean (flagIn env)) = Some (File content) →
  (∀ p, below (scratch env) p → files w' !! p = None)
  ∧ last (trace w') = Some (SysRemoveAll (scratch env)).
Proof.
  intros Hmain Hinput. unfold main in Hmain.
  destruct (decide (flagIn env = "")) as [_|_]; [by apply fail_not_Ret in Hmain|].
  erewrite bind_Ret in Hmain by apply Printf_eq.
  erewrite bind_Ret in Hmain by apply os_Open_eq.
  unfold open_outcome in Hmain.
  change (files (add_stdout ?s w)) with (files w) in Hmain.
  destruct (fault env (SysOpen (flagIn env))); [by apply fail_not_Ret in Hmain|].
  rewrite Hinput in Hmain. cbv iota in Hmain.
  unfold File_Stat in Hmain. erewrite bind_Ret in Hmain by apply sys_reading_eq.
  cbn [Name opened] in Hmain.
  destruct (fault env (SysStat (flagIn env))); [by apply fail_not_Ret in Hmain|].
  cbv iota in Hmain. erewrite bind_Ret in Hmain by apply when_Printf_eq.
  cbn [info_of IsDir negb] in Hmain.
  apply bind_Ret_inv in Hmain as ([isZip targetFileDir] & w5 & Hzip & Hrest).
  apply bind_Ret_inv in Hzip as ([tdir err] & w4 & Hunzip & Hret).
  destruct err as [e|]; [by apply fail_not_Ret in Hret|].
  injection Hret as <- <- <-.
  apply Unzip_success in Hunzip as (_ & _ & _ & _ & _ & -> & _).
  apply bind_Ret_inv in Hrest as (r & w6 & _ & Hrest).
  destruct r as [t|e]; [|by apply fail_not_Ret in Hrest].
  cbv zeta in Hrest.
  do 9 (apply bind_Ret_inv in Hrest as (? & ? & _ & Hrest)).
  cbn [when] in Hrest. apply cleanup_Ret in Hrest as (Hgone & Hlast & _).
  by rewrite Clean_scratch in Hgone.
Qed.

Lemma main_removes_scratch_at_the_end_witness :
  (∀ p, below (scratch (Sample.env "skel.zip" false false)) p →
        files (world_of (main (Sample.env "skel.zip" false false) 10 Sample.world)) !! p
        = None)
  ∧ last (trace (world_of (main (Sample.env "skel.zip" false false) 10 Sample.world)))
    = Some (SysRemoveAll (scratch (Sample.env "skel.zip" false false))).
Proof.
  apply (main_removes_scratch_at_the_end (Sample.env "skel.zip" false false) 10
           Sample.world
           (world_of (main (Sample.env "skel.zip" false false) 10 Sample.world))
           "PK-skel").
  - vm_compute. reflexivity.
  - reflexivity.
Defined.

Lemma Unzip_entries_bad_entry (env : Env) (d : string) (entries : list zipFile)
    (w : World) (i : nat) (f : zipFile) (e : error) :
  entries !! i = Some f → zip_Open f = Err e →
  ∃ e' w', Unzip_entries env d entries w = Ret (d, Some e') w'.
Proof.
  revert i w. induction entries as [|f0 entries IH]; intros i w Hf Hbad.
  { by rewrite lookup_nil in Hf. }
  cbn [Unzip_entries]. destruct (zip_Open f0) as [rc|e0] eqn:Hopen; [|by eexists _, _].
  destruct i as [|i]; [injection Hf as ->; congruence|]. simpl in Hf.
  cbv zeta. destruct (zip_IsDir f0).
  - erewrite bind_Ret by apply when_Printf_eq.
    unfold os_MkdirAll, sys at 1, bind at 1.
    destruct (sys_outcome _ _ _ _).2 as [[]|e1]; [by eapply IH|by eexists _, _].
  - unfold os_Create, sys at 1, bind at 1.
    destruct (sys_outcome _ _ _ _).2 as [[]|e1]; [|by eexists _, _].
    erewrite bind_Ret by apply when_Printf_eq.
    unfold io_Copy, sys at 1, bind at 1.
    destruct (sys_outcome _ _ _ _).2 as [[]|e1]; [by eapply IH|by eexists _, _].
Qed.

(** X23: when an entry of the archive cannot be opened, [Unzip] has made its
    directory by then, and returns it with the error; [main] reports the
    error and exits with status 1: the directory is still there when the
    process ends. *)
Theorem main_leaves_scratch_when_Unzip_fails
    (env : Env) (fuel : nat) (w : World) (content : string)
    (entries : list zipFile) (i : nat) (f : zipFile) (e : error) :
  flagIn env ≠ "" →
  fault env (SysOpen (flagIn env)) = None →
  fault env (SysStat (flagIn env)) = None →
  fault env (SysReadFile (flagIn env)) = None →
  fault env (SysTempDir (scratch env)) = None →
  node_at (files w) (Filepath.Clean (flagIn env)) = Some (File content) →
  zip_decode env content = Some entries →
  node_at (files w) "/tmp" = Some Dir →
  node_at (files w) (scratch env) = None →
  entries !! i = Some f → zip_Open f = Err e →
  ∃ w' e', main env fuel w = Exit 1 w'
    ∧ files w' !! scratch env = Some Dir
    ∧ last (stderr w') = Some ("ZIP does not seem to be OK: " +:+ e' +:+ nl).
Proof.
  intros Hin Hopen Hstat Hread Htmp Hinput Hdecode Htmpdir Hfresh Hf Hbad.
  unfold main. rewrite decide_False by done.
  erewrite bind_Ret by apply Printf_eq.
  erewrite bind_Ret by apply os_Open_eq.
  unfold open_outcome. change (files (add_stdout ?s w)) with (files w).
  rewrite Hopen, Hinput. cbv iota.
  unfold File_Stat. erewrite bind_Ret by apply sys_reading_eq.
  cbn [Name opened]. rewrite Hstat. cbv iota.
  erewrite bind_Ret by apply when_Printf_eq.
  cbn [info_of IsDir negb].
  set (w4 := if flagDryRun env then _ else _).
  assert (files w4 = files w) as Hw4 by (unfold w4; by destruct (flagDryRun env)).
  assert (∃ e' w5, Unzip env (flagIn env) w4 = Ret (scratch env, Some e') w5
                   ∧ files w5 !! scratch env = Some Dir) as (e' & w5 & Hunzip & Hdir).
  { unfold Unzip. erewrite bind_Ret by apply zip_OpenReader_eq.
    unfold read_outcome, sys_outcome, reading, read_file.
    rewrite Hread, Hw4. cbn [snd]. rewrite Hinput, Hdecode. cbv beta iota.
    assert (ioutil_TempDir env (add_trace (SysReadFile (flagIn env)) w4)
            = Ret (Ok (scratch env))
                (set_files (<[scratch env := Dir]> (files w))
                   (add_trace (SysTempDir (scratch env))
                      (add_trace (SysReadFile (flagIn env)) w4)))) as Htd.
    { unfold ioutil_TempDir. cbv zeta. fold (scratch env). unfold sys, sys_outcome.
      change (files (add_trace ?c w4)) with (files w4).
      by rewrite Htmp, Hw4, Htmpdir, Hfresh. }
    erewrite bind_Ret by exact Htd. cbv beta iota.
    erewrite bind_Ret by apply when_Printf_eq.
    match goal with
    | |- context [Unzip_entries _ _ _ ?w0] => set (w3 := w0)
    end.
    assert (files w3 !! scratch env = Some Dir) as Hw3.
    { unfold w3. destruct (flagVerbose env); apply lookup_insert_eq. }
    destruct (Unzip_entries_bad_entry env (scratch env) entries w3 i f e Hf Hbad)
      as (e' & w5 & Hrun).
    exists e', w5. split; [done|].
    pose proof (grows_Unzip_entries env (scratch env) entries w3) as Hg.
    rewrite Hrun in Hg. destruct Hg as [[_ Hkeep] _]. by apply Hkeep. }
  exists (add_stderr ("ZIP does not seem to be OK: " +:+ e' +:+ nl) w5), e'.
  split; [|split; [done|apply last_snoc]].
  apply bind_Exit. by erewrite bind_Ret by exact Hunzip.
Qed.

Lemma main_leaves_scratch_when_Unzip_fails_witness :
  ∃ w' e', main (Sample.env "torn.zip" false false) 10 Sample.world = Exit 1 w'
    ∧ files w' !! scratch (Sample.env "torn.zip" false false) = Some Dir
    ∧ last (stderr w') = Some ("ZIP does not seem to be OK: " +:+ e' +:+ nl).
Proof.
  apply (main_leaves_scratch_when_Unzip_fails (Sample.env "torn.zip" false false) 10
           Sample.world "PK-torn"
           [ {| zip_Name := "config.xml"; zip_IsDir := false; zip_Open := Ok "<skeleton/>" |};
             {| zip_Name := "data.bin"; zip_IsDir := false;
                zip_Open := Err "zip: checksum error" |} ]
           1 {| zip_Name := "data.bin"; zip_IsDir := false;
                zip_Open := Err "zip: checksum error" |} "zip: checksum error");
    try reflexivity.
  discriminate.
Defined.

(** X18: without an input, or with an input that cannot be opened, [main]
    reports it on the standard error and exits with status 1; no file has
    changed, and the opening of the input is the only system call. *)
Theorem main_rejects_missing_input (env : Env) (fuel : nat) (w : World) :
  flagIn env = "" ∨ (∃ e, open_outcome env (flagIn env) (files w) = Err e) →
  ∃ w' line,
    main env fuel w = Exit 1 w'
    ∧ files w' = files w
    ∧ stderr w' = stderr w ++ [line]
    ∧ trace w' = trace w ++ (if decide (flagIn env = "") then []
                             else [SysOpen (flagIn env)]).
Proof.
  intros Hinput. unfold main.
  destruct (decide (flagIn env = "")) as [Hempty|Hne].
  { eexists _, _. split; [reflexivity|]. cbn. by rewrite app_nil_r. }
  destruct Hinput as [?|[e He]]; [done|].
  erewrite bind_Ret by apply Printf_eq.
  erewrite bind_Ret by apply os_Open_eq.
  change (files (add_stdout ?s w)) with (files w). rewrite He.
  eexists _, _. split; [reflexivity|]. done.
Qed.

Lemma main_rejects_missing_input_witness :
  ∃ w' line,
    main (Sample.env "nowhere" false false) 10 Sample.world = Exit 1 w'
    ∧ files w' = files Sample.world
    ∧ stderr w' = stderr Sample.world ++ [line]
    ∧ trace w' = trace Sample.world
                 ++ (if decide (flagIn (Sample.env "nowhere" false false) = "") then []
                     else [SysOpen (flagIn (Sample.env "nowhere" false false))]).
Proof.
  apply (main_rejects_missing_input (Sample.env "nowhere" false false) 10 Sample.world).
  right. eexists. reflexivity.
Defined.

(** X19: for an input that is a directory in which [config.xml] cannot be
    opened, [main] reports that the skeleton cannot be opened and exits
    with status 1; it has opened and examined the input and tried to open
    [config.xml], and no file has changed. *)
Theorem main_rejects_directory_without_config
    (env : Env) (fuel : nat) (w : World) (e : error) :
  flagIn env ≠ "" →
  fault env (SysOpen (flagIn env)) = None →
  fault env (SysStat (flagIn env)) = None →
  node_at (files w) (Filepath.Clean (flagIn env)) = Some Dir →
  open_outcome env (Filepath.Join [flagIn env; "config.xml"]) (files w) = Err e →
  ∃ w', main env fuel w = Exit 1 w'
    ∧ files w' = files w
    ∧ stderr w'
      = stderr w ++ ["Error opening skeleton: "
                     +:+ ("Unable to open skeleton 'config.xml': " +:+ e +:+ nl) +:+ nl]
    ∧ trace w'
      = trace w ++ [SysOpen (flagIn env); SysStat (flagIn env);
                    SysOpen (Filepath.Join [flagIn env; "config.xml"])].
Proof.
  intros Hin Hopen Hstat Hdir Hconfig. unfold main. rewrite decide_False by done.
  erewrite bind_Ret by apply Printf_eq.
  erewrite bind_Ret by apply os_Open_eq.
  unfold open_outcome at 1. change (files (add_stdout ?s w)) with (files w).
  rewrite Hopen, Hdir. cbv iota.
  unfold File_Stat. erewrite bind_Ret by apply sys_reading_eq.
  cbn [Name opened]. rewrite Hstat. cbv iota.
  erewrite bind_Ret by apply when_Printf_eq.
  cbn [info_of IsDir negb].
  erewrite bind_Ret by reflexivity. cbv beta iota.
  set (w4 := if flagDryRun env then _ else _).
  assert (files w4 = files w ∧ stderr w4 = stderr w
          ∧ trace w4 = trace w ++ [SysOpen (flagIn env); SysStat (flagIn env)])
    as (Hf4 & He4 & Ht4).
  { unfold w4. destruct (flagDryRun env); cbn; by rewrite <-(assoc_L (++)). }
  erewrite bind_Ret.
  2:{ unfold ParseSkeleton. cbv zeta. erewrite bind_Ret by apply os_Open_eq.
      rewrite Hf4, Hconfig. reflexivity. }
  eexists. split; [reflexivity|]. cbn. rewrite Hf4, He4, Ht4.
  by rewrite <-(assoc_L (++)).
Qed.

Lemma main_rejects_directory_without_config_witness :
  ∃ w', main (Sample.env "skel/src" false false) 10 Sample.world = Exit 1 w'
    ∧ files w' = files Sample.world
    ∧ stderr w'
      = stderr Sample.world
        ++ ["Error opening skeleton: "
            +:+ ("Unable to open skeleton 'config.xml': "
                 +:+ "open skel/src/config.xml: no such file or directory" +:+ nl) +:+ nl]
    ∧ trace w'
      = trace Sample.world
        ++ [SysOpen "skel/src"; SysStat "skel/src"; SysOpen "skel/src/config.xml"].
Proof.
  apply (main_rejects_directory_without_config (Sample.env "skel/src" false false) 10
           Sample.world "open skel/src/config.xml: no such file or directory");
    try reflexivity.
  discriminate.
Defined.

(** The walk makes no exception for [config.xml]: it is generated like
    every other file of the skeleton. *)
Example main_generates_config_xml :
  files (world_of (main (Sample.env "skel" false false) 10 Sample.world))
    !! "__out/demo-17/config.xml" = Some (File "<skeleton/>").
Proof. vm_compute. reflexivity. Qed.

(** *** The report on [Unsubstituted] *)

(** What the report leaves: the heading and a line per entry, in the
    order of the [range] loop, when [Unsubstituted] is not empty. *)
Lemma report_eq (env : Env) (w : World) :
  when (bool_decide (0 < size (Unsubstituted w)))
    (Printf (nl +:+ "Warning: the following variables were left unsubstituted:"
             +:+ nl +:+ nl);;
     let* n := get ranges in
     modify next_range;;
     print_each (λ k, String "009"%char k +:+ nl)
       (range_keys env n (Unsubstituted w))) w
  = Ret () (if bool_decide (0 < size (Unsubstituted w))
            then add_stdouts (warning_line <$> range_keys env (ranges w) (Unsubstituted w))
                   (next_range (add_stdout warning_heading w))
            else w).
Proof.
  destruct (bool_decide (0 < size (Unsubstituted w))); [|done]. cbn [when].
  erewrite bind_Ret by apply Printf_eq.
  unfold get, modify, bind. by rewrite print_each_eq.
Qed.

(** X26: when [main] returns, everything that is in [Unsubstituted] has
    been reported: with a [range] loop that yields every entry of the
    map, the standard output holds the line of each entry, and the
    heading when there is an entry. *)
Theorem main_reports_unsubstituted (env : Env) (fuel : nat) (w w' : World) :
  (∀ n (unsub : gset string), range_keys env n unsub ≡ₚ elements unsub) →
  main env fuel w = Ret () w' →
  (∀ found, found ∈ Unsubstituted w' → warning_line found ∈ stdout w')
  ∧ (Unsubstituted w' ≠ ∅ → warning_heading ∈ stdout w').
Proof.
  intros Hrange Hmain. unfold main in Hmain.
  destruct (decide (flagIn env = "")) as [_|_]; [by apply fail_not_Ret in Hmain|].
  apply bind_Ret_inv in Hmain as (? & ? & _ & Hmain).
  apply bind_Ret_inv in Hmain as ([fileOrDir|e] & ? & _ & Hmain);
    [|by apply fail_not_Ret in Hmain].
  apply bind_Ret_inv in Hmain as ([stat|e] & ? & _ & Hmain);
    [|by apply fail_not_Ret in Hmain].
  apply bind_Ret_inv in Hmain as (? & ? & _ & Hmain).
  apply bind_Ret_inv in Hmain as ([isZip targetFileDir] & ? & _ & Hmain).
  apply bind_Ret_inv in Hmain as ([t|e] & ? & _ & Hmain);
    [|by apply fail_not_Ret in Hmain].
  cbv zeta in Hmain.
  do 7 (apply bind_Ret_inv in Hmain as (? & ? & _ & Hmain)).
  apply bind_Ret_inv in Hmain as (unsub & w0 & Hget & Hmain).
  injection Hget as <- ->.
  apply bind_Ret_inv in Hmain as ([] & w1 & Hreport & Hclean).
  rewrite report_eq in Hreport. injection Hreport as <-.
  assert (Unsubstituted w' = Unsubstituted w0
          ∧ ∃ lines, stdout w'
                     = stdout (if bool_decide (0 < size (Unsubstituted w0))
                               then add_stdouts
                                      (warning_line <$> range_keys env (ranges w0)
                                                          (Unsubstituted w0))
                                      (next_range (add_stdout warning_heading w0))
                               else w0) ++ lines) as [Hunsub [lines Hout]].
  { destruct isZip.
    - cbn [when] in Hclean. apply cleanup_Ret in Hclean as (_ & _ & Hu & Hs).
      split; [|exact Hs]. rewrite Hu. by case_bool_decide.
    - injection Hclean as <-. split; [by case_bool_decide|].
      exists []. by rewrite app_nil_r. }
  rewrite Hunsub, Hout. split.
  - intros found Hfound.
    assert (0 < size (Unsubstituted w0)) as Hpos.
    { apply Nat.neq_0_lt_0. apply size_non_empty_iff. intros Hempty%leibniz_equiv.
      rewrite Hempty in Hfound. by apply not_elem_of_empty in Hfound. }
    rewrite bool_decide_eq_true_2 by exact Hpos.
    apply elem_of_app. left. cbn [stdout add_stdouts]. apply elem_of_app. right.
    apply list_elem_of_fmap. exists found. split; [done|].
    rewrite Hrange. by apply elem_of_elements.
  - intros Hne.
    assert (0 < size (Unsubstituted w0)) as Hpos.
    { apply Nat.neq_0_lt_0. apply size_non_empty_iff. by intros Hempty%leibniz_equiv. }
    rewrite bool_decide_eq_true_2 by exact Hpos.
    apply elem_of_app. left. cbn [stdout add_stdouts next_range add_stdout].
    apply elem_of_app. left. apply elem_of_app. right. by apply list_elem_of_singleton.
Qed.

Lemma main_reports_unsubstituted_witness :
  (∀ found,
     found ∈ Unsubstituted (world_of (main (Sample.env "skel" false false) 10 Sample.world)) →
     warning_line found
     ∈ stdout (world_of (main (Sample.env "skel" false false) 10 Sample.world)))
  ∧ (Unsubstituted (world_of (main (Sample.env "skel" false false) 10 Sample.world)) ≠ ∅ →
     warning_heading
     ∈ stdout (world_of (main (Sample.env "skel" false false) 10 Sample.world))).
Proof.
  apply (main_reports_unsubstituted (Sample.env "skel" false false) 10 Sample.world
           (world_of (main (Sample.env "skel" false false) 10 Sample.world))).
  - intros n unsub. reflexivity.
  - vm_compute. reflexivity.
Defined.

(** In the sample run [${owner}] is reported. *)
Example main_reports_owner :
  Unsubstituted (world_of (main (Sample.env "skel" false false) 10 Sample.world))
  = {[ "${owner}" ]}
  ∧ warning_line "${owner}"
    ∈ stdout (world_of (main (Sample.env "skel" false false) 10 Sample.world)).
Proof. split; [vm_compute; reflexivity|]. by compute_done. Qed.

(** ** Version 1.0 *)

(** An entry whose path has no more than two elements is passed by: the
    callback returns nil and nothing happens. *)
Lemma V10_walkFunc_shallow
    (env : Env) (t : Skeleton) (path : string) (info : option FileInfo)
    (err : option error) (w : World) :
  length (Filepath.split path) ≤ 2 →
  V10.walkFunc env t path info err w = Ret None w.
Proof.
  intros Hlen. unfold V10.walkFunc. cbv zeta.
  rewrite bool_decide_eq_false_2 by lia. reflexivity.
Qed.

(** X24: in version 1.0 the target of an entry is the output directory
    followed by the elements of its path after the first two.  In a run
    that is not dry, for an entry that is a file and has more than two
    elements: when the file can be read, the target can be created and
    written, and the target is not the file itself, the callback prints
    its line and the target holds, after the call, what [findReplace]
    makes of the bytes of the file. *)
Theorem V10_walkFunc_cuts_two_elements
    (env : Env) (t : Skeleton) (path : string) (info : FileInfo)
    (err : option error) (w : World) (origBytes : string) :
  let first := findReplace (range_order env (ranges w) (KeyValues t)) (Unsubstituted w)
                 (V10.raw_target t path) in
  let new := findReplace (range_order env (S (ranges w)) (KeyValues t)) first.2
               origBytes in
  2 < length (Filepath.split path) →
  Dryrun t = false → IsDir info = false →
  fault env (SysCreate first.1) = None →
  fault env (SysWriteFile first.1 new.1) = None →
  can_put (files w) first.1 = true →
  Filepath.Clean path ≠ Filepath.Clean first.1 →
  read_outcome env path (files w) = Ok origBytes →
  ∃ w', V10.walkFunc env t path (Some info) err w = Ret None w'
    ∧ files w' = <[Filepath.Clean first.1 := File new.1]> (files w)
    ∧ trace w' = trace w ++ [SysCreate first.1; SysReadFile path;
                             SysWriteFile first.1 new.1]
    ∧ stdout w' = stdout w ++ ["Creating file:  " +:+ first.1 +:+ nl]
    ∧ Unsubstituted w' = new.2.
Proof.
  intros first new Hdeep Hdry Hfile Hcreate Hwrite Hput Hne Hread.
  assert (create_outcome env first.1 (files w)
          = (<[Filepath.Clean first.1 := File ""]> (files w), Ok ())) as Hc.
  { unfold create_outcome, sys_outcome. rewrite Hcreate. by apply put_file_can_put. }
  assert (sys_outcome env (SysWriteFile first.1 new.1) (put_file "open" first.1 new.1)
            (<[Filepath.Clean first.1 := File ""]> (files w))
          = (<[Filepath.Clean first.1 := File new.1]> (files w), Ok ())) as Hw.
  { unfold sys_outcome. rewrite Hwrite.
    rewrite put_file_can_put by by apply can_put_again.
    by rewrite insert_insert_eq. }
  unfold V10.walkFunc. cbv zeta. rewrite bool_decide_eq_true_2 by done.
  fold (V10.raw_target t path).
  erewrite bind_Ret by apply call_findReplace_eq. fold first.
  rewrite Hfile, Hdry. cbv iota. cbn [negb when].
  erewrite bind_Ret by apply Printf_eq.
  erewrite bind_Ret by (eapply discard_Ret, os_Create_eq).
  erewrite bind_Ret by apply ioutil_ReadFile_eq.
  cbn [files set_files add_trace add_stdout next_range set_Unsubstituted].
  rewrite Hc. cbn [fst snd].
  rewrite read_outcome_insert_ne, Hread by done. cbv iota.
  erewrite bind_Ret.
  2:{ erewrite bind_Ret by apply call_findReplace_eq.
      eapply discard_Ret, ioutil_WriteFile_eq. }
  cbn [files set_files add_trace add_stdout next_range set_Unsubstituted ranges
         Unsubstituted].
  fold new. rewrite Hw.
  eexists. split; [reflexivity|].
  cbn [fst snd files set_files add_trace add_stdout next_range set_Unsubstituted
         ranges Unsubstituted trace stdout].
  split_and!; try done.
  by rewrite <-!(assoc_L (++)).
Qed.

Lemma V10_walkFunc_cuts_two_elements_witness :
  let env := Sample.env "skel" false false in
  let w := world_of (os_MkdirAll env "__out" Sample.world) in
  ∃ w', V10.walkFunc env (Sample.skeleton false) "skel/src/${proj}.go"
          (Some {| IsDir := false |}) None w = Ret None w'
    ∧ files w' = <["__out/Acme.go" := File "package Acme"]> (files w)
    ∧ trace w' = trace w ++ [SysCreate "__out/Acme.go";
                             SysReadFile "skel/src/${proj}.go";
                             SysWriteFile "__out/Acme.go" "package Acme"]
    ∧ stdout w' = stdout w ++ ["Creating file:  " +:+ "__out/Acme.go" +:+ nl]
    ∧ Unsubstituted w' = ∅.
Proof.
  apply (V10_walkFunc_cuts_two_elements (Sample.env "skel" false false)
           (Sample.skeleton false) "skel/src/${proj}.go" {| IsDir := false |} None
           (world_of (os_MkdirAll (Sample.env "skel" false false) "__out" Sample.world))
           "package ${proj}"); try reflexivity.
  - vm_compute. lia.
  - vm_compute. discriminate.
Defined.

(** With the template [skel] nothing but what lies in its directories is
    made: the files right in it are passed by, and the files below go to
    the output directory without the first directory of their path. *)
Example V10_Walk_sample :
  files (world_of (V10.Walk (Sample.env "skel" false false) 10 (Sample.skeleton false)
                     (world_of (os_MkdirAll (Sample.env "skel" false false) "__out"
                                  Sample.world))))
  = <["__out/Acme.go" := File "package Acme"]>
      (<["__out" := Dir]> Sample.tree).
Proof. vm_compute. reflexivity. Qed.

Lemma quiet_V10_walkFunc_dry (env : Env) (t : Skeleton) :
  Dryrun t = true →
  ∀ path info err, preserves quiet (V10.walkFunc env t path info err).
Proof.
  intros Hdry path info err. unfold V10.walkFunc. cbv zeta. rewrite Hdry. simpl negb.
  case_bool_decide; [|apply preserves_ret, _].
  apply preserves_bind; [apply _|apply quiet_call_findReplace|]. intros targetpath.
  destruct info as [info|]; [|apply preserves_stop, _].
  destruct (IsDir info).
  - apply preserves_bind; [apply _|apply quiet_call_findReplace|]. intros shown.
    apply preserves_bind; [apply _|apply quiet_Printf|]. intros _.
    apply preserves_bind; [apply _|apply preserves_ret, _|].
    intros _. apply preserves_ret, _.
  - apply preserves_bind; [apply _|apply quiet_Printf|]. intros _.
    apply preserves_bind; [apply _|apply preserves_ret, _|]. intros _.
    apply preserves_bind; [apply _|apply quiet_ioutil_ReadFile|].
    intros [origBytes|e].
    + apply preserves_bind; [apply _|apply preserves_ret, _|].
      intros _. apply preserves_ret, _.
    + apply preserves_bind; [apply _|apply quiet_Fprintf_Stderr|].
      intros _. apply preserves_ret, _.
Qed.

(** X25: in version 1.0 as well, a dry run of the walk leaves the files as
    they are and makes no system call that creates or writes, however the
    walk ends. *)
Theorem V10_Walk_dry_run_no_mutation
    (env : Env) (fuel : nat) (t : Skeleton) (w : World) :
  Dryrun t = true →
  files (world_of (V10.Walk env fuel t w)) = files w
  ∧ ∃ calls, trace (world_of (V10.Walk env fuel t w)) = trace w ++ calls
             ∧ Forall (λ c, mutates c = false) calls.
Proof.
  intros Hdry.
  enough (preserves quiet (V10.Walk env fuel t)) as H by apply H.
  apply preserves_discard; [apply _|].
  apply preserves_filepath_Walk;
    auto using quiet_os_Lstat, quiet_readDirNames, quiet_V10_walkFunc_dry
      with typeclass_instances.
Qed.

Lemma V10_Walk_dry_run_no_mutation_witness :
  files (world_of (V10.Walk (Sample.env "skel" true false) 10 (Sample.skeleton true)
                     Sample.world))
  = files Sample.world
  ∧ ∃ calls,
      trace (world_of (V10.Walk (Sample.env "skel" true false) 10 (Sample.skeleton true)
                         Sample.world))
      = trace Sample.world ++ calls
      ∧ Forall (λ c, mutates c = false) calls.
Proof.
  apply (V10_Walk_dry_run_no_mutation (Sample.env "skel" true false) 10
           (Sample.skeleton true) Sample.world).
  reflexivity.
Defined.
